(** * Patel Chat: a shallow embedding of the service layer

    The development follows the JavaScript sources of the application:

    - [ChatLogicService]  : src/services/chatLogicService.js
    - [ChatArea]          : src/components/ChatArea.jsx (the messages it creates)
    - [IndexedDBService]  : src/services/indexedDBService.js
    - [StatsService]      : src/services/statsService.js
    - [App]               : src/App.jsx (the handlers' use of the statistics)
    - [EmbeddingService]  : src/services/embeddingService.js
    - [EmbeddingDoubles]  : the same file, [cosineSimilarity] on doubles
    - [CodeEditor]        : src/components/CodeEditor.jsx (extractCodeBlocks)
    - [GeminiService]     : src/services/geminiService.js
    - [ThemeService]      : src/services/themeService.js

    Conventions.  A JavaScript [number] that counts or stamps time is a [Z],
    and where the statistics add to a stored one, or divide, the result is
    rounded as a double is ([Js.plus], [Js.divide]); one that measures (a
    TF-IDF weight, a similarity) is a real number, except in
    [EmbeddingDoubles], where the numbers are the doubles themselves
    ([float]); a property that may be missing from an object is an
    [option]; [null] and
    [undefined] results are [None]; an exception (or a rejected promise) is
    an explicit outcome.  Arrays are lists, objects used as dictionaries are
    finite maps, a [Map] whose order is observed is an association list.  A
    string is the sequence of its code units, each below 256. *)

From Stdlib Require Import Floats.
From stdpp Require Import base option list gmap strings pretty sorting.
From Stdlib Require Import ZArith Lia Ascii Reals Lra.

Local Open Scope Z_scope.

(** ** Small pieces of the JavaScript runtime used by the services *)

Module Js.

(** [Array.prototype.findIndex]: the index of the first element satisfying
    the predicate, [-1] when there is none. *)
Fixpoint findIndexFrom {A} (p : A -> bool) (i : Z) (l : list A) : Z :=
  match l with
  | [] => -1
  | x :: l' => if p x then i else findIndexFrom p (i + 1) l'
  end.

Definition findIndex {A} (p : A -> bool) (l : list A) : Z := findIndexFrom p 0 l.

(** [arr[i]] for a number [i]: [undefined] (here [None]) outside the array. *)
Definition index {A} (l : list A) (i : Z) : option A :=
  if bool_decide (0 <= i) then l !! Z.to_nat i else None.

(** [arr.length] *)
Definition len {A} (l : list A) : Z := Z.of_nat (length l).

(** [Array.prototype.some] *)
Definition some {A} (p : A -> bool) (l : list A) : bool := existsb p l.

(** [===] on strings. *)
Definition str_eq (a b : string) : bool := bool_decide (a = b).

(** [Number.prototype.toString] on an integer. *)
Definition toString (n : Z) : string := pretty n.

(** Numbers are doubles: an integer is kept to 53 significant bits, the
    nearest such value being taken, and of two equally near ones the one
    with an even last bit.  (Beyond the largest double, near 1.8e308, a
    number is [Infinity], which is no integer.) *)
Definition roundDouble (z : Z) : Z :=
  let bits := Z.log2 (Z.abs z) + 1 in
  if bool_decide (bits <= 53) then z
  else
    let ulp := 2 ^ (bits - 53) in
    let q := z / ulp in
    let r := z mod ulp in
    if bool_decide (2 * r < ulp) then q * ulp
    else if bool_decide (2 * r > ulp) then (q + 1) * ulp
    else if Z.even q then q * ulp else (q + 1) * ulp.

(** [a + b] and [a - b] on numbers that hold integers. *)
Definition plus (a b : Z) : Z := roundDouble (a + b).
Definition minus (a b : Z) : Z := roundDouble (a - b).

(** [a / b] on numbers that hold integers, for a divisor above 0.  The
    quotient is a double, [m * 2 ^ e] as the pair [(m, e)]: the nearest one
    to the quotient of the integers, with 53 significant bits, and of two
    equally near ones the one with the even mantissa.  (No quotient of
    integers that doubles hold is too small or too large for that.) *)
Definition divide (a b : Z) : Z * Z :=
  if bool_decide (a = 0) then (0, 0)
  else
    let scaled (e : Z) : Z * Z :=
      if bool_decide (0 <= e) then (Z.abs a, b * 2 ^ e) else (Z.abs a * 2 ^ (- e), b) in
    let e0 := Z.log2 (Z.abs a) - Z.log2 b - 53 in
    let e := if bool_decide (2 ^ 53 * (scaled e0).2 <= (scaled e0).1) then e0 + 1 else e0 in
    let '(n, d) := scaled e in
    let q := n / d in
    let r := n mod d in
    let m := if bool_decide (2 * r < d) then q
             else if bool_decide (2 * r > d) then q + 1
             else if Z.even q then q else q + 1 in
    (Z.sgn a * m, e).

(** [Math.floor] of a double [m * 2 ^ e]. *)
Definition Math_floor (x : Z * Z) : Z :=
  let '(m, e) := x in
  if bool_decide (0 <= e) then m * 2 ^ e else m / 2 ^ (- e).

(** [Math.round] of a double [m * 2 ^ e]: the nearest integer, a half
    going up. *)
Definition Math_round (x : Z * Z) : Z :=
  let '(m, e) := x in
  if bool_decide (0 <= e) then m * 2 ^ e else (2 * m + 2 ^ (- e)) / (2 * 2 ^ (- e)).

(** The code units of a string, and back. *)
Definition chars (s : string) : list ascii := String.list_ascii_of_string s.
Definition str (l : list ascii) : string := String.string_of_list_ascii l.

Definition code (c : ascii) : N := N_of_ascii c.

(** The class [\s] of regular expressions, which is also what [trim]
    strips: tab, line feed, vertical tab, form feed, carriage return, space
    and no-break space. *)
Definition isWhiteSpace (c : ascii) : bool :=
  bool_decide (code c ∈ [9; 10; 11; 12; 13; 32; 160]%N).

(** The class [\w]: [A-Za-z0-9_]. *)
Definition isWordChar (c : ascii) : bool :=
  let n := code c in
  (((48 <=? n) && (n <=? 57)) || ((65 <=? n) && (n <=? 90))
   || ((97 <=? n) && (n <=? 122)) || (n =? 95))%N.

(** [String.prototype.toLowerCase] on a string of code units below 256,
    where it goes one code unit at a time: [A-Z] and the capital letters of
    the upper half of the range move up by 32. *)
Definition toLowerCaseChar (c : ascii) : ascii :=
  let n := code c in
  if (((65 <=? n) && (n <=? 90))
      || ((192 <=? n) && (n <=? 222) && negb (n =? 215)))%N
  then ascii_of_N (n + 32) else c.

Definition toLowerCase (l : list ascii) : list ascii := toLowerCaseChar <$> l.

(** [String.prototype.trim] *)
Fixpoint trimStart (l : list ascii) : list ascii :=
  match l with
  | c :: l' => if isWhiteSpace c then trimStart l' else l
  | [] => []
  end.

Definition trimEnd (l : list ascii) : list ascii := reverse (trimStart (reverse l)).

Definition trim (l : list ascii) : list ascii := trimEnd (trimStart l).

(** [String.prototype.split] on [/\s+/]: the pieces between the runs of
    white space, the empty piece before a leading run and after a trailing
    one included.  [piece] is the piece being read, last code unit first;
    [inRun] tells that the previous code unit was white space. *)
Fixpoint splitWhiteSpaceFrom (piece : list ascii) (inRun : bool) (l : list ascii)
    : list (list ascii) :=
  match l with
  | [] => [reverse piece]
  | c :: l' =>
      if isWhiteSpace c then
        if inRun then splitWhiteSpaceFrom [] true l'
        else reverse piece :: splitWhiteSpaceFrom [] true l'
      else splitWhiteSpaceFrom (c :: piece) false l'
  end.

Definition splitWhiteSpace (l : list ascii) : list (list ascii) :=
  splitWhiteSpaceFrom [] false l.

(** A [Map] in insertion order. *)
Definition mapGet {V} (m : list (string * V)) (key : string) : option V :=
  snd <$> List.find (fun entry => str_eq entry.1 key) m.

Definition mapHas {V} (m : list (string * V)) (key : string) : bool :=
  bool_decide (is_Some (mapGet m key)).

(** [map.set(key, value)]: a known key keeps its place, a new one goes to
    the end. *)
Fixpoint mapSet {V} (m : list (string * V)) (key : string) (value : V)
    : list (string * V) :=
  match m with
  | [] => [(key, value)]
  | entry :: m' =>
      if str_eq entry.1 key then (key, value) :: m'
      else entry :: mapSet m' key value
  end.

(** [arr.slice(0, end)] for an integer [end]: a negative [end] counts from
    the end of the array. *)
Definition slice0 {A} (l : list A) (stop : Z) : list A :=
  if bool_decide (stop < 0) then take (Z.to_nat (Z.max (len l + stop) 0)) l
  else take (Z.to_nat stop) l.

(** [Array.prototype.sort] with a comparison function, given through
    [notAfter a b], which tells that the comparison of [a] with [b] is not
    positive.  The sort is stable; it is written as an insertion sort. *)
Fixpoint sortInsert {A} (notAfter : A -> A -> bool) (x : A) (l : list A) : list A :=
  match l with
  | [] => [x]
  | y :: l' => if notAfter x y then x :: l else y :: sortInsert notAfter x l'
  end.

Definition sort {A} (notAfter : A -> A -> bool) (l : list A) : list A :=
  foldr (sortInsert notAfter) [] l.

(** [String.prototype.substring(0, end)] for an integer [end]: a negative
    [end] counts as 0, one past the length as the length. *)
Definition substring0 (l : list ascii) (stop : Z) : list ascii :=
  take (Z.to_nat stop) l.

(** [String.prototype.startsWith] and [String.prototype.includes]: [term]
    occurs at the start of [l], somewhere in [l]. *)
Fixpoint startsWith (l term : list ascii) : bool :=
  match term, l with
  | [], _ => true
  | _ :: _, [] => false
  | c :: term', d :: l' => bool_decide (c = d) && startsWith l' term'
  end.

Fixpoint stringIncludes (l term : list ascii) : bool :=
  startsWith l term
  || match l with
     | [] => false
     | _ :: l' => stringIncludes l' term
     end.

End Js.

(** ** chatLogicService.js *)

Module ChatLogicService.

Record Message := {
  msg_id : string;
  sender : string;
  text : string;
  timestamp : Z;
  isLoading : option bool;
  isError : option bool;
}.

Record ChatSession := {
  id : string;
  title : string;
  messages : list Message;
  createdAt : Z;
  lastUpdatedAt : Z;
  systemInstruction : option string;
}.

Record NextState := {
  updatedSessions : list ChatSession;
  newActiveSessionId : option string;
}.

(** [updatedSessions[i].id]: reading [.id] of [undefined] throws a
    TypeError, which is the [None] of this option-valued read. *)
Definition idAt (l : list ChatSession) (i : Z) : option string :=
  id <$> Js.index l i.

(** [calculateNextStateAfterDeletion]; [None] stands for a thrown
    TypeError, [newActiveSessionId = None] for [null]. *)
Definition calculateNextStateAfterDeletion
    (currentSessions : list ChatSession)
    (sessionIdToDelete : string)
    (currentActiveSessionId : option string) : option NextState :=
  let originalIndexToDelete :=
    Js.findIndex (fun s => Js.str_eq (id s) sessionIdToDelete) currentSessions in
  let updatedSessions :=
    List.filter (fun session => negb (Js.str_eq (id session) sessionIdToDelete))
                currentSessions in
  let result a := Some {| updatedSessions := updatedSessions; newActiveSessionId := a |} in
  if bool_decide (currentActiveSessionId = Some sessionIdToDelete) then
    if bool_decide (Js.len updatedSessions = 0) then result None
    else if bool_decide (originalIndexToDelete >= 0) then
      if bool_decide (originalIndexToDelete < Js.len updatedSessions) then
        a ← idAt updatedSessions originalIndexToDelete; result (Some a)
      else
        a ← idAt updatedSessions (Js.len updatedSessions - 1); result (Some a)
    else
      a ← idAt updatedSessions 0; result (Some a)
  else
    if bool_decide (Js.len updatedSessions = 0) then result None
    else match currentActiveSessionId with
         | None => a ← idAt updatedSessions 0; result (Some a)
         | Some active =>
             let activeStillExists :=
               Js.some (fun s => Js.str_eq (id s) active) updatedSessions in
             if negb activeStillExists then
               a ← idAt updatedSessions 0; result (Some a)
             else result (Some active)
         end.

(** [createNewChatSession], with the reading of [Date.now()] as argument. *)
Definition createNewChatSession (timestamp : Z) : ChatSession :=
  {| id := Js.toString timestamp;
     title := "New Chat";
     messages :=
       [ {| msg_id := Js.toString (timestamp + 1);
            sender := "bot";
            text := "Welcome to Patel Chat! I'm your AI assistant, ready to help with your queries, search the web, or just chat. How can I assist you today?";
            timestamp := timestamp + 1;
            isLoading := Some false;
            isError := None |} ];
     createdAt := timestamp;
     lastUpdatedAt := timestamp;
     systemInstruction := Some "" |}.

(** [generateChatTitle]: the first 30 code units of the first message the
    user sent, with an ellipsis when there are more. *)
Definition generateChatTitle (messages : list Message) : string :=
  match List.find (fun m => Js.str_eq (sender m) "user") messages with
  | Some firstUserMessage =>
      Js.str (Js.substring0 (Js.chars (text firstUserMessage)) 30)
      +:+ (if bool_decide (Js.len (Js.chars (text firstUserMessage)) > 30)
           then "..." else "")
  | None => "New Chat"
  end.

(** [searchChatSessions]: a term that is blank once trimmed selects
    everything; otherwise the term, in lower case but not trimmed, is looked
    for in the title and in the text of every message. *)
Definition searchChatSessions (sessions : list ChatSession) (searchTerm : string)
    : list ChatSession :=
  if bool_decide (Js.trim (Js.chars searchTerm) = []) then sessions
  else
    let term := Js.toLowerCase (Js.chars searchTerm) in
    List.filter
      (fun session =>
         if Js.stringIncludes (Js.toLowerCase (Js.chars (title session))) term
         then true
         else Js.some
                (fun message =>
                   Js.stringIncludes (Js.toLowerCase (Js.chars (text message))) term)
                (messages session))
      sessions.

(** [filterChatSessionsByDate], with the reading of [Date.now()] as first
    argument. *)
Definition filterChatSessionsByDate (now : Z) (sessions : list ChatSession)
    (daysAgo : Z) : list ChatSession :=
  let cutoffDate := now - daysAgo * 24 * 60 * 60 * 1000 in
  List.filter (fun session => bool_decide (lastUpdatedAt session >= cutoffDate))
              sessions.

End ChatLogicService.

(** ** ChatArea.jsx: the messages [handleSendMessage] creates *)

Module ChatArea.
Import ChatLogicService.

(** The message for what the user typed; [now] is the reading of
    [Date.now()]. *)
Definition userMessage (now : Z) (messageText : string) : Message :=
  {| msg_id := "msg-" +:+ Js.toString now;
     text := Js.str (Js.trim (Js.chars messageText));
     sender := "user";
     timestamp := now;
     isLoading := None;
     isError := None |}.

(** The message for the model's answer. *)
Definition aiMessage (now : Z) (response : string) : Message :=
  {| msg_id := "msg-" +:+ Js.toString now +:+ "-ai";
     text := response;
     sender := "ai";
     timestamp := now;
     isLoading := None;
     isError := None |}.

(** The message shown when the call to the model throws. *)
Definition errorMessage (now : Z) (message : string) : Message :=
  {| msg_id := "msg-" +:+ Js.toString now +:+ "-error";
     text := "Sorry, I encountered an error: " +:+ message;
     sender := "ai";
     timestamp := now;
     isLoading := None;
     isError := Some true |}.

End ChatArea.

(** ** Facts about the runtime pieces *)

Section JsFacts.
Context {A : Type}.
Implicit Types (p : A -> bool) (l : list A).

Lemma findIndexFrom_shift p i l :
  Js.findIndexFrom p i l = -1 \/
  (exists n : nat, Js.findIndexFrom p i l = i + Z.of_nat n).
Proof.
  revert i; induction l as [|x l IH]; intros i; simpl; [by left|].
  destruct (p x); [right; exists 0%nat; lia|].
  destruct (IH (i + 1)) as [->|[n ->]]; [by left|].
  right; exists (S n); lia.
Qed.

(** The first position whose element satisfies [p] is what [findIndex]
    returns. *)
Lemma findIndexFrom_first p i l (n : nat) x :
  l !! n = Some x -> p x = true ->
  (forall (j : nat) y, (j < n)%nat -> l !! j = Some y -> p y = false) ->
  Js.findIndexFrom p i l = i + Z.of_nat n.
Proof.
  revert i n; induction l as [|y l IH]; intros i n Hn Hx Hbefore; [done|].
  destruct n as [|n]; simpl in *.
  - injection Hn as ->. rewrite Hx. lia.
  - rewrite (Hbefore 0%nat y) by (done || lia).
    rewrite (IH (i + 1) n Hn Hx); [lia|].
    intros j z Hj Hz. apply (Hbefore (S j) z); [lia|done].
Qed.

Lemma index_nat l (n : nat) : Js.index l (Z.of_nat n) = l !! n.
Proof.
  unfold Js.index. rewrite bool_decide_eq_true_2 by lia. by rewrite Nat2Z.id.
Qed.

Lemma index_last l : l <> [] -> Js.index l (Js.len l - 1) = last l.
Proof.
  intros Hl. unfold Js.len.
  destruct l as [|x l]; [done|].
  replace (Z.of_nat (length (x :: l)) - 1) with (Z.of_nat (length l))
    by (simpl; lia).
  rewrite index_nat, last_lookup. done.
Qed.

Lemma some_true p l : Js.some p l = true -> exists x, x ∈ l /\ p x = true.
Proof.
  unfold Js.some. rewrite existsb_exists. intros (x & Hin & Hx).
  exists x. by rewrite list_elem_of_In.
Qed.

Lemma filter_bool_decide (P : A -> Prop) `{!forall x, Decision (P x)} l :
  List.filter (fun x => bool_decide (P x)) l = filter P l.
Proof.
  induction l as [|x l IH]; [done|]. simpl. rewrite filter_cons.
  destruct (decide (P x)).
  - rewrite bool_decide_eq_true_2 by done. by rewrite IH.
  - rewrite bool_decide_eq_false_2 by done. done.
Qed.

End JsFacts.

(** ** Deleting a chat session *)

Section Deletion.
Import ChatLogicService.
Implicit Types (sessions : list ChatSession) (del : string) (act : option string).

(** The sessions that survive the deletion of [del]. *)
Definition survivors del sessions : list ChatSession :=
  filter (fun s => id s <> del) sessions.

Lemma updated_is_survivors del sessions :
  List.filter (fun session => negb (Js.str_eq (id session) del)) sessions
  = survivors del sessions.
Proof.
  unfold survivors. rewrite <- filter_bool_decide.
  induction sessions as [|s l IH]; [done|]. simpl. rewrite IH.
  unfold Js.str_eq. by rewrite bool_decide_not.
Qed.

Lemma idAt_head l : l <> [] -> exists s, idAt l 0 = Some (id s) /\ s ∈ l /\ l !! 0%nat = Some s.
Proof.
  destruct l as [|s l]; [done|]. intros _. exists s.
  split; [done|]. split; [left|done].
Qed.

Lemma idAt_nat l (n : nat) : idAt l (Z.of_nat n) = id <$> l !! n.
Proof. unfold idAt. by rewrite index_nat. Qed.

Lemma idAt_last l : l <> [] -> idAt l (Js.len l - 1) = id <$> last l.
Proof. intros. unfold idAt. by rewrite index_last. Qed.

Lemma len_zero {A} (l : list A) : Js.len l = 0 <-> l = [].
Proof. unfold Js.len. destruct l; simpl; split; (done || lia). Qed.

(** The choice made when the active session is the one deleted and it sits
    at position [i]: the survivor at position [i], else the last one. *)
Definition successor (i : nat) (updated : list ChatSession) : option string :=
  id <$> (if decide (i < length updated)%nat then updated !! i else last updated).

(** C2. For every session list, deleted id and active id, the function
    returns (it never throws); [updatedSessions] is the input with every
    session of the deleted id removed, order kept; [newActiveSessionId] is
    [null] exactly when no session is left, and otherwise names a session of
    [updatedSessions]; when the active session is the deleted one, found at
    position [i], the survivor now at position [i] is selected, or the last
    survivor when [i] is past the end. *)
Theorem calculateNextStateAfterDeletion_spec sessions del act :
  exists r,
    calculateNextStateAfterDeletion sessions del act = Some r
    /\ updatedSessions r = survivors del sessions
    /\ (newActiveSessionId r = None <-> updatedSessions r = [])
    /\ (forall a, newActiveSessionId r = Some a ->
          exists s, s ∈ updatedSessions r /\ id s = a)
    /\ (act = Some del ->
        forall (i : nat) s,
          sessions !! i = Some s -> id s = del ->
          (forall (j : nat) s', (j < i)%nat -> sessions !! j = Some s' -> id s' <> del) ->
          updatedSessions r <> [] ->
          newActiveSessionId r = successor i (updatedSessions r)).
Proof.
  unfold calculateNextStateAfterDeletion.
  rewrite updated_is_survivors.
  set (upd := survivors del sessions).
  set (idx := Js.findIndex _ sessions).
  assert (Hidx : forall (i : nat) s,
            sessions !! i = Some s -> id s = del ->
            (forall (j : nat) s', (j < i)%nat -> sessions !! j = Some s' -> id s' <> del) ->
            idx = Z.of_nat i).
  { intros i s Hi Hs Hfirst. unfold idx, Js.findIndex.
    rewrite (findIndexFrom_first _ 0 sessions i s Hi); [lia| |].
    - unfold Js.str_eq. by apply bool_decide_eq_true_2.
    - intros j y Hj Hy. unfold Js.str_eq. apply bool_decide_eq_false_2. eauto. }
  destruct (decide (upd = [])) as [Hemp|Hne].
  - (* nothing left: both branches answer null *)
    rewrite (bool_decide_eq_true_2 (Js.len upd = 0)) by (by apply len_zero).
    exists {| updatedSessions := upd; newActiveSessionId := None |}.
    simpl. split; [by repeat case_bool_decide|].
    repeat split; try done. 
  - rewrite (bool_decide_eq_false_2 (Js.len upd = 0)) by (by rewrite len_zero).
    destruct (idAt_head upd Hne) as (s0 & Hs0 & Hin0 & _).
    case_bool_decide as Hact.
    + (* the active session is deleted *)
      case_bool_decide as Hfound.
      * destruct (findIndexFrom_shift
                    (fun s => Js.str_eq (id s) del) 0 sessions) as [Hm|[n Hn]];
          [unfold idx, Js.findIndex in Hfound; lia|].
        assert (Hidxn : idx = Z.of_nat n) by (unfold idx, Js.findIndex; lia).
        case_bool_decide as Hlt.
        -- rewrite Hidxn, idAt_nat.
           assert (Hn' : (n < length upd)%nat) by (unfold Js.len in Hlt; lia).
           destruct (lookup_lt_is_Some_2 upd n Hn') as [s Hs].
           rewrite Hs. simpl. eexists; split; [done|]. simpl.
           repeat split; try done.
           ++ intros a [= <-]. exists s. split; [|done].
              by eapply list_elem_of_lookup_2.
           ++ intros _ i s' Hi Hs' Hfirst _.
              assert (i = n) as -> by (specialize (Hidx i s' Hi Hs' Hfirst); lia).
              unfold successor. rewrite decide_True by done. by rewrite Hs.
        -- rewrite idAt_last by done.
           destruct (last upd) as [s|] eqn:Hlast;
             [|by apply last_None in Hlast].
           simpl. eexists; split; [done|]. simpl.
           repeat split; try done.
           ++ intros a [= <-]. exists s. split; [|done].
              rewrite last_lookup in Hlast. by eapply list_elem_of_lookup_2.
           ++ intros _ i s' Hi Hs' Hfirst _.
              assert (i = n) as -> by (specialize (Hidx i s' Hi Hs' Hfirst); lia).
              unfold successor. rewrite decide_False by (unfold Js.len in Hlt; lia).
              by rewrite Hlast.
      * rewrite Hs0. simpl. eexists; split; [done|]. simpl.
        repeat split; try done.
        -- intros a [= <-]. by exists s0.
        -- intros _ i s' Hi Hs' Hfirst _.
           specialize (Hidx i s' Hi Hs' Hfirst). lia.
    + (* another session, or none, is active *)
      destruct act as [active|].
      * destruct (Js.some _ upd) eqn:Hsome; simpl.
        -- eexists; split; [done|]. simpl. repeat split; try done.
           ++ intros a [= <-]. apply some_true in Hsome as (s & Hin & Hs).
              exists s. split; [done|].
              unfold Js.str_eq in Hs. by apply bool_decide_eq_true_1 in Hs.
        -- rewrite Hs0. simpl. eexists; split; [done|]. simpl.
           repeat split; try done.
           ++ intros a [= <-]. by exists s0.
      * rewrite Hs0. simpl. eexists; split; [done|]. simpl.
        repeat split; try done.
        intros a [= <-]. by exists s0.
Qed.

(** Deleting the active session in the middle selects the session that
    takes its place; deleting the active last one selects the new last. *)
Example deletion_of_active_session :
  let sessions := createNewChatSession <$> [10; 20; 30] in
  (newActiveSessionId <$> calculateNextStateAfterDeletion sessions "20" (Some "20"))
  = Some (Some "30")
  /\ (newActiveSessionId <$> calculateNextStateAfterDeletion sessions "30" (Some "30"))
    = Some (Some "20")
  /\ (newActiveSessionId <$> calculateNextStateAfterDeletion sessions "30" (Some "10"))
    = Some (Some "10")
  /\ (newActiveSessionId <$> calculateNextStateAfterDeletion [] "30" (Some "10"))
    = Some None.
Proof. repeat split; vm_compute; reflexivity. Qed.

End Deletion.

(** ** Who sends a message *)

Section Senders.
Import ChatLogicService.

(** The senders of the type [Message] in types.js: ['user' | 'bot']. *)
Definition declaredSenders : list string := ["user"; "bot"].

(** C4, as the code has it.  The welcome message of every new chat
    session has sender ['bot'] and the message created for what the user
    typed has sender ['user']: both are senders of the declared type. *)
Theorem created_senders (timestamp now : Z) (messageText : string) :
  Forall (fun m => sender m = "bot") (messages (createNewChatSession timestamp))
  /\ sender (ChatArea.userMessage now messageText) = "user"
  /\ Forall (fun m => sender m ∈ declaredSenders)
        (ChatArea.userMessage now messageText
           :: messages (createNewChatSession timestamp)).
Proof.
  split; [by repeat constructor|]. split; [done|].
  unfold declaredSenders. repeat constructor.
Qed.

(** C4, as stated, fails on the welcome message: its sender is neither
    ['user'] nor ['assistant']. *)
Lemma welcome_sender_not_user_or_assistant :
  ~ (forall timestamp m,
       m ∈ messages (createNewChatSession timestamp) ->
       sender m = "user" \/ sender m = "assistant").
Proof.
  intros Hclaim.
  destruct (Hclaim 0 _ (list_elem_of_here _ _)) as [H|H]; discriminate H.
Qed.

(** The answers of the model, and the error notices, are created with
    sender ['ai']. *)
Example answer_senders (now : Z) (response : string) :
  sender (ChatArea.aiMessage now response) = "ai"
  /\ sender (ChatArea.errorMessage now response) = "ai".
Proof. done. Qed.

End Senders.

(** ** indexedDBService.js *)

Module IndexedDBService.

Definition DB_NAME : string := "PatelChatDB".
Definition DB_VERSION : Z := 1.

(** The [STORES] table: the object stores of the database. *)
Inductive Store := CHAT_SESSIONS | QUICK_PROMPTS | USER_STATS | THEMES | EMBEDDINGS.

Definition STORES (s : Store) : string :=
  match s with
  | CHAT_SESSIONS => "chatSessions"
  | QUICK_PROMPTS => "quickPrompts"
  | USER_STATS => "userStats"
  | THEMES => "themes"
  | EMBEDDINGS => "embeddings"
  end.

#[global] Instance Store_eq_dec : EqDecision Store.
Proof. solve_decision. Defined.

Definition allStores : list Store :=
  [CHAT_SESSIONS; QUICK_PROMPTS; USER_STATS; THEMES; EMBEDDINGS].

(** What a request can fail with. *)
Inductive DOMException := NotFoundError | DataError | ConstraintError.

(** How a promise settles. *)
Inductive Outcome (A : Type) :=
  | Resolved (a : A)
  | Rejected (e : DOMException).
Arguments Resolved {A} a.
Arguments Rejected {A} e.

(** Every store is created with [{ keyPath: 'id' }]: the key of a record is
    its [id] property, when it has one. *)
Class KeyPath (Item : Type) := keyOf : Item -> option string.

(** The key an index reads from a record: a string or a number. *)
Inductive IndexKey := StringKey (s : string) | NumberKey (n : Z).

#[global] Instance IndexKey_eq_dec : EqDecision IndexKey.
Proof. solve_decision. Defined.

(** The indexes [initDB] creates with the stores: name, key path and
    whether the index is unique. *)
Definition indexes (s : Store) : list (string * string * bool) :=
  match s with
  | CHAT_SESSIONS =>
      [("lastUpdatedAt", "lastUpdatedAt", false); ("createdAt", "createdAt", false)]
  | EMBEDDINGS => [("chatId", "chatId", false); ("messageId", "messageId", true)]
  | QUICK_PROMPTS | USER_STATS | THEMES => []
  end.

(** The one unique index is ['messageId'], on the embeddings store:
    [messageIdOf record] is the key it reads from a record, none for a
    record without a [messageId] property. *)
Class MessageIdPath (Item : Type) := messageIdOf : Item -> option IndexKey.

(** An object store is the key-value map from [id] to record; a database
    maps the names in [objectStoreNames] to their stores.  The stores are
    the ones [initDB] creates, so the store named ['embeddings'] is the one
    with the unique index; the indexes that are not unique refuse
    nothing. *)
Abbreviation Database Item := (gmap string (gmap string Item)).

Section Database.
Context {Item : Type} `{!KeyPath Item} `{!MessageIdPath Item}.

(** The world a call runs in: the origin's database, [None] while no
    database named [DB_NAME] exists, and the reading of the clock, taken to
    stay the same for the duration of one call. *)
Record World := {
  database : option (Database Item);
  clock : Z;
}.

(** An asynchronous computation: it settles and leaves a world behind. *)
Definition Async (A : Type) : Type := World -> Outcome A * World.

Definition resolve {A} (a : A) : Async A := fun w => (Resolved a, w).
Definition reject {A} (e : DOMException) : Async A := fun w => (Rejected e, w).

(** [await]: the continuation runs on a resolved value, a rejection
    propagates. *)
Definition await {A B} (m : Async A) (k : A -> Async B) : Async B :=
  fun w =>
    match m w with
    | (Resolved a, w') => k a w'
    | (Rejected e, w') => (Rejected e, w')
    end.

(** [try { ... } catch (error) { ... }] *)
Definition tryCatch {A} (m : Async A) (handler : DOMException -> Async A) : Async A :=
  fun w =>
    match m w with
    | (Resolved a, w') => (Resolved a, w')
    | (Rejected e, w') => handler e w'
    end.

(** [Date.now()] *)
Definition Date_now : Async Z := fun w => (Resolved (clock w), w).

(** [onupgradeneeded]: each store of [STORES] is created, empty and with
    its [indexes], unless present. *)
Definition createObjectStores (d : Database Item) : Database Item :=
  foldr (fun s d => match d !! STORES s with
                    | Some _ => d
                    | None => <[STORES s := ∅]> d
                    end) d allStores.

(** [initDB]: opening creates the database, with its stores, when the
    origin has none; the connection [db] is to that one database, so
    opening again changes nothing. *)
Definition initDB : Async unit :=
  fun w =>
    match database w with
    | Some _ => (Resolved tt, w)
    | None => (Resolved tt, {| database := Some (createObjectStores ∅); clock := clock w |})
    end.

(** [db.transaction([storeName], mode).objectStore(storeName)] followed by
    one request [req] on the store: [NotFoundError] when the database has no
    such store, otherwise the request's outcome and the store it leaves (a
    request that fails leaves the store as it was). *)
Definition transaction {A} (storeName : string)
    (req : gmap string Item -> Outcome A * gmap string Item) : Async A :=
  fun w =>
    match database w with
    | None => (Rejected NotFoundError, w)
    | Some d =>
        match d !! storeName with
        | None => (Rejected NotFoundError, w)
        | Some store =>
            let '(r, store') := req store in
            (r, {| database := Some (<[storeName := store']> d); clock := clock w |})
        end
    end.

(** On the store with the unique index, a record to be put under [k]
    clashes with the store when a record under another key has its
    [messageId]. *)
Definition clash (storeName : string) (k : string) (item : Item)
    (store : gmap string Item) : Prop :=
  storeName = STORES EMBEDDINGS
  /\ map_Exists (fun k' other =>
                   k' <> k /\ is_Some (messageIdOf item)
                   /\ messageIdOf other = messageIdOf item) store.

#[global] Instance clash_dec storeName k item store :
  Decision (clash storeName k item store).
Proof. unfold clash. apply _. Defined.

(** [store.put(item)]: the key is read through the key path; a record
    without one is refused with [DataError], and one that clashes on the
    unique index with [ConstraintError]; otherwise the record takes the
    place of the one under its key, if any. *)
Definition put (storeName : string) (item : Item) (store : gmap string Item)
    : Outcome unit * gmap string Item :=
  match keyOf item with
  | Some k =>
      if bool_decide (clash storeName k item store) then (Rejected ConstraintError, store)
      else (Resolved tt, <[k := item]> store)
  | None => (Rejected DataError, store)
  end.

Definition putInStore (storeName : string) (item : Item) : Async unit :=
  await initDB (fun _ => transaction storeName (put storeName item)).

Definition deleteFromStore (storeName : string) (id : string) : Async unit :=
  await initDB (fun _ =>
    transaction storeName (fun store => (Resolved tt, delete id store))).

(** [request.result || null]: a stored record is an object, hence truthy. *)
Definition getFromStore (storeName : string) (id : string) : Async (option Item) :=
  await initDB (fun _ =>
    transaction storeName (fun store => (Resolved (store !! id), store))).

(** [store.getAll()]: the records of the store, in the order of their
    keys. *)
Definition getAll (store : gmap string Item) : list Item :=
  snd <$> Js.sort (fun a b => String.leb a.1 b.1) (map_to_list store).

Definition getAllFromStore (storeName : string) : Async (list Item) :=
  await initDB (fun _ =>
    transaction storeName (fun store => (Resolved (getAll store), store))).

End Database.

Arguments World : clear implicits.
Arguments Async : clear implicits.

End IndexedDBService.

(** ** The object stores as key-value maps *)

Section StoreLaws.
Import IndexedDBService.
Context {Item : Type} `{!KeyPath Item} `{!MessageIdPath Item}.
Implicit Types (w : World Item) (d : Database Item) (name id : string) (item : Item).

(** The database a call works on once [initDB] has resolved. *)
Definition opened w : Database Item :=
  default (createObjectStores ∅) (database w).

Definition withDatabase w d : World Item :=
  {| database := Some d; clock := clock w |}.

(** The requests that write to the database. *)
Inductive Request :=
  | Put (name : string) (item : Item)
  | Delete (name : string) (id : string).

Definition perform (r : Request) w : World Item :=
  match r with
  | Put name item => (putInStore name item w).2
  | Delete name id => (deleteFromStore name id w).2
  end.

(** The world after a history of requests, oldest first. *)
Definition after (history : list Request) w : World Item :=
  foldl (fun w r => perform r w) w history.

(** The origin before the application ever ran. *)
Definition pristine (t : Z) : World Item := {| database := None; clock := t |}.

(** Every store of [STORES] exists. *)
Definition complete d : Prop := forall s : Store, is_Some (d !! STORES s).

Lemma createObjectStores_complete d : complete (createObjectStores d).
Proof.
  intros s. unfold createObjectStores.
  assert (Hin : s ∈ allStores) by (destruct s; set_solver).
  revert Hin. generalize allStores as l.
  induction l as [|s' l IH]; intros Hin; [by apply elem_of_nil in Hin|].
  simpl. destruct (decide (s = s')) as [<-|Hne].
  - destruct (foldr _ d l !! STORES s) eqn:Hs; [by rewrite Hs|].
    rewrite lookup_insert_eq. by eexists.
  - apply elem_of_cons in Hin as [?|Hin]; [done|].
    destruct (foldr _ d l !! STORES s') eqn:Hs; [by apply IH|].
    rewrite lookup_insert_ne; [by apply IH|].
    intros Heq. apply Hne. by destruct s, s'.
Qed.

(** A store of the opened database that the origin did not have starts
    out empty. *)
Lemma createObjectStores_fresh d name store :
  createObjectStores d !! name = Some store ->
  d !! name = Some store \/ store = ∅.
Proof.
  unfold createObjectStores. generalize allStores as l. intros l. revert store.
  induction l as [|s l IH]; intros store; simpl; [by left|].
  destruct (foldr _ d l !! STORES s) eqn:Hs; [by apply IH|].
  destruct (decide (STORES s = name)) as [<-|Hne].
  - rewrite lookup_insert_eq. intros [= <-]. by right.
  - rewrite lookup_insert_ne by done. by apply IH.
Qed.

Lemma initDB_opened w : initDB w = (Resolved tt, withDatabase w (opened w)).
Proof.
  unfold initDB, opened, withDatabase. destruct w as [[d|] t]; simpl; done.
Qed.

(** Only the embeddings store refuses a record for its [messageId]. *)
Lemma clash_embeddings name k item store :
  name <> STORES EMBEDDINGS -> ~ clash name k item store.
Proof. intros Hne [Hname _]. done. Qed.

Lemma clash_other_stores (s : Store) k item store :
  s <> EMBEDDINGS -> ~ clash (STORES s) k item store.
Proof. intros Hs. apply clash_embeddings. by destruct s. Qed.

Lemma clash_messageId name k item store :
  messageIdOf item = None -> ~ clash name k item store.
Proof.
  intros Hnone (_ & k' & other & _ & _ & Hsome & _).
  rewrite Hnone in Hsome. by destruct Hsome.
Qed.

Lemma putInStore_stored w name store item k :
  opened w !! name = Some store -> keyOf item = Some k ->
  ~ clash name k item store ->
  putInStore name item w
  = (Resolved tt, withDatabase w (<[name := <[k := item]> store]> (opened w))).
Proof.
  intros Hs Hk Hfree. unfold putInStore, await. rewrite initDB_opened.
  unfold transaction, withDatabase, put. simpl. rewrite Hs, Hk.
  by rewrite bool_decide_eq_false_2.
Qed.

Lemma putInStore_constrained w name store item k :
  opened w !! name = Some store -> keyOf item = Some k ->
  clash name k item store ->
  putInStore name item w = (Rejected ConstraintError, withDatabase w (opened w)).
Proof.
  intros Hs Hk Hclash. unfold putInStore, await. rewrite initDB_opened.
  unfold transaction, withDatabase, put. simpl. rewrite Hs, Hk.
  rewrite bool_decide_eq_true_2 by done. by rewrite insert_id.
Qed.

Lemma putInStore_refused w name store item :
  opened w !! name = Some store -> keyOf item = None ->
  putInStore name item w = (Rejected DataError, withDatabase w (opened w)).
Proof.
  intros Hs Hk. unfold putInStore, await. rewrite initDB_opened.
  unfold transaction, withDatabase, put. simpl. rewrite Hs, Hk.
  by rewrite insert_id.
Qed.

Lemma deleteFromStore_removed w name store id :
  opened w !! name = Some store ->
  deleteFromStore name id w
  = (Resolved tt, withDatabase w (<[name := delete id store]> (opened w))).
Proof.
  intros Hs. unfold deleteFromStore, await. rewrite initDB_opened.
  unfold transaction, withDatabase. simpl. by rewrite Hs.
Qed.

Lemma getFromStore_read w name store id :
  opened w !! name = Some store ->
  getFromStore name id w = (Resolved (store !! id), withDatabase w (opened w)).
Proof.
  intros Hs. unfold getFromStore, await. rewrite initDB_opened.
  unfold transaction, withDatabase. simpl. rewrite Hs. by rewrite insert_id.
Qed.

Lemma no_such_store {A} w name (req : gmap string Item -> Outcome A * gmap string Item) :
  opened w !! name = None ->
  await initDB (fun _ => transaction name req) w
  = (Rejected NotFoundError, withDatabase w (opened w)).
Proof.
  intros Hs. unfold await. rewrite initDB_opened.
  unfold transaction, withDatabase. simpl. by rewrite Hs.
Qed.

Lemma opened_withDatabase w d : opened (withDatabase w d) = d.
Proof. done. Qed.

(** What a request does to the opened database. *)
Lemma perform_opened r w :
  opened (perform r w) =
  match r with
  | Put name item =>
      match opened w !! name, keyOf item with
      | Some store, Some k =>
          if decide (clash name k item store) then opened w
          else <[name := <[k := item]> store]> (opened w)
      | _, _ => opened w
      end
  | Delete name id =>
      match opened w !! name with
      | Some store => <[name := delete id store]> (opened w)
      | None => opened w
      end
  end.
Proof.
  destruct r as [name item|name id]; simpl.
  - destruct (opened w !! name) as [store|] eqn:Hs.
    + destruct (keyOf item) as [k|] eqn:Hk.
      * destruct (decide (clash name k item store)).
        -- by erewrite putInStore_constrained.
        -- by erewrite putInStore_stored.
      * by erewrite putInStore_refused.
    + unfold putInStore. by rewrite no_such_store.
  - destruct (opened w !! name) as [store|] eqn:Hs.
    + by erewrite deleteFromStore_removed.
    + unfold deleteFromStore. by rewrite no_such_store.
Qed.

Lemma perform_complete r w : complete (opened w) -> complete (opened (perform r w)).
Proof.
  intros Hc s. rewrite perform_opened.
  destruct r as [name item|name id].
  - destruct (opened w !! name) eqn:Hs; [|done].
    destruct (keyOf item); [|done].
    case_decide; [done|].
    destruct (decide (name = STORES s)) as [->|?].
    + rewrite lookup_insert_eq. by eexists.
    + by rewrite lookup_insert_ne.
  - destruct (opened w !! name) eqn:Hs; [|done].
    destruct (decide (name = STORES s)) as [->|?].
    + rewrite lookup_insert_eq. by eexists.
    + by rewrite lookup_insert_ne.
Qed.

Lemma after_snoc history r w : after (history ++ [r]) w = perform r (after history w).
Proof. unfold after. by rewrite foldl_app. Qed.



(** Every record sits under the key its key path yields. *)
Definition keyed d : Prop :=
  forall name store k item,
    d !! name = Some store -> store !! k = Some item -> keyOf item = Some k.

Lemma createObjectStores_keyed : keyed (createObjectStores ∅).
Proof.
  intros name store k item Hs Hk.
  apply createObjectStores_fresh in Hs as [Hs| ->]; [done|].
  by rewrite lookup_empty in Hk.
Qed.

Lemma perform_keyed r w : keyed (opened w) -> keyed (opened (perform r w)).
Proof.
  intros Hw name store k item. rewrite perform_opened.
  destruct r as [name' item'|name' id].
  - destruct (opened w !! name') as [store'|] eqn:Hs'; [|apply Hw].
    destruct (keyOf item') as [k'|] eqn:Hk'; [|apply Hw].
    case_decide; [apply Hw|].
    destruct (decide (name' = name)) as [->|Hne].
    + rewrite lookup_insert_eq. intros [= <-].
      destruct (decide (k' = k)) as [->|Hk].
      * rewrite lookup_insert_eq. by intros [= <-].
      * rewrite lookup_insert_ne by done. by apply (Hw name).
    + rewrite lookup_insert_ne by done. apply Hw.
  - destruct (opened w !! name') as [store'|] eqn:Hs'; [|apply Hw].
    destruct (decide (name' = name)) as [->|Hne].
    + rewrite lookup_insert_eq. intros [= <-].
      rewrite lookup_delete. case_decide; [done|]. by apply (Hw name).
    + rewrite lookup_insert_ne by done. apply Hw.
Qed.

(** What holds of the database in every world the application reaches. *)
Definition sound w : Prop := complete (opened w) /\ keyed (opened w).

Lemma pristine_sound t : sound (pristine t).
Proof. split; [apply createObjectStores_complete|apply createObjectStores_keyed]. Qed.

Lemma perform_sound r w : sound w -> sound (perform r w).
Proof. intros [? ?]. split; [by apply perform_complete|by apply perform_keyed]. Qed.

Lemma after_sound history t : sound (after history (pristine t)).
Proof.
  induction history as [|r history IH] using rev_ind.
  - apply pristine_sound.
  - rewrite after_snoc. by apply perform_sound.
Qed.

End StoreLaws.

Section StoreClaims.
Import IndexedDBService.
Context {Item : Type} `{!KeyPath Item} `{!MessageIdPath Item}.


End StoreClaims.

(** Chat sessions are stored under their [id]. *)
#[global] Instance ChatSession_keyPath :
  IndexedDBService.KeyPath ChatLogicService.ChatSession :=
  fun session => Some (ChatLogicService.id session).

(** A chat session has no [messageId]. *)
#[global] Instance ChatSession_messageIdPath :
  IndexedDBService.MessageIdPath ChatLogicService.ChatSession :=
  fun session => None.


(** ** indexedDBService.js: the functions for chat sessions *)

Module ChatSessionStore.
Import IndexedDBService.

Abbreviation Async := (IndexedDBService.Async ChatLogicService.ChatSession).

Definition getChatSessions : Async (list ChatLogicService.ChatSession) :=
  getAllFromStore (STORES CHAT_SESSIONS).

Definition saveChatSession (session : ChatLogicService.ChatSession) : Async unit :=
  putInStore (STORES CHAT_SESSIONS) session.

Definition deleteChatSession (id : string) : Async unit :=
  deleteFromStore (STORES CHAT_SESSIONS) id.

End ChatSessionStore.

(** ** App.jsx: deleting a chat *)

Module AppChats.
Import IndexedDBService ChatLogicService ChatSessionStore.

(** The two pieces of component state the chat handlers work on. *)
Record ChatState := {
  chatSessions : list ChatSession;
  activeChatSessionId : option string;
}.

(** [handleDeleteChat]: whatever is thrown inside [try] is caught and
    logged, and the state is then left as it was. *)
Definition handleDeleteChat (sessionIdToDelete : string) (state : ChatState)
    : Async ChatState :=
  match calculateNextStateAfterDeletion (chatSessions state) sessionIdToDelete
          (activeChatSessionId state) with
  | None => resolve state
  | Some next =>
      tryCatch
        (await (deleteChatSession sessionIdToDelete) (fun _ =>
           resolve {| chatSessions := updatedSessions next;
                      activeChatSessionId := newActiveSessionId next |}))
        (fun error => resolve state)
  end.

End AppChats.

(** ** statsService.js *)

Module StatsService.
Import IndexedDBService.

(** The objects the service passes around and stores.  Numeric properties
    are addressed by name, as [stats[statName]] does; a property that is
    missing (or holds [NaN]: both are falsy and fail every comparison) has
    no entry in [numbers].  The properties that are not numbers have fields
    of their own. *)
Record UserStats := {
  id : option string;
  numbers : gmap string Z;
  achievements : option (list string);
  favoriteFeatures : option (gmap string Z);
}.

(** The names [numbers] does not range over. *)
Definition otherProperties : list string := ["id"; "achievements"; "favoriteFeatures"].

#[global] Instance UserStats_keyPath : KeyPath UserStats := id.

(** A [messageId] of the statistics would be one of their numbers. *)
#[global] Instance UserStats_messageIdPath : MessageIdPath UserStats :=
  fun stats => NumberKey <$> numbers stats !! "messageId".

Abbreviation Async := (IndexedDBService.Async UserStats).

#[global] Instance Async_ret : MRet Async := fun A => resolve.
#[global] Instance Async_bind : MBind Async := fun A B k m => await m k.

(** [a || b] on a property that may be missing. *)
Definition orElse {A} (a b : option A) : option A :=
  match a with Some _ => a | None => b end.

(** [{ ...a, ...b }] *)
Definition spread (a b : UserStats) : UserStats :=
  {| id := orElse (id b) (id a);
     numbers := numbers b ∪ numbers a;
     achievements := orElse (achievements b) (achievements a);
     favoriteFeatures := orElse (favoriteFeatures b) (favoriteFeatures a) |}.

(** [stats[name] || 0] *)
Definition numberOr0 (stats : UserStats) (name : string) : Z :=
  default 0 (numbers stats !! name).

(** [stats[name] = value] *)
Definition setNumber (name : string) (value : Z) (stats : UserStats) : UserStats :=
  {| id := id stats;
     numbers := <[name := value]> (numbers stats);
     achievements := achievements stats;
     favoriteFeatures := favoriteFeatures stats |}.

Definition getUserStats : Async (option UserStats) :=
  getFromStore (STORES USER_STATS) "main".

Definition saveUserStats (stats : UserStats) : Async unit :=
  putInStore (STORES USER_STATS)
    (spread {| id := Some "main"; numbers := ∅;
               achievements := None; favoriteFeatures := None |} stats).

(** The object literal of [initializeUserStats]. *)
Definition newUserStats (joinDate lastActiveDate : Z) : UserStats :=
  {| id := None;
     numbers := list_to_map
       [ ("totalMessages", 0); ("totalChats", 0); ("totalQuickPrompts", 0);
         ("joinDate", joinDate); ("streakDays", 0);
         ("lastActiveDate", lastActiveDate); ("timeSpentChatting", 0) ];
     achievements := Some [];
     favoriteFeatures := Some ∅ |}.

Definition initializeUserStats : Async UserStats :=
  stats ← getUserStats;
  match stats with
  | Some stats => mret stats
  | None =>
      joinDate ← Date_now;
      lastActiveDate ← Date_now;
      let stats := newUserStats joinDate lastActiveDate in
      _ ← saveUserStats stats;
      mret stats
  end.

(** [await getUserStats() || await initializeUserStats()] *)
Definition currentUserStats : Async UserStats :=
  stats ← getUserStats;
  match stats with
  | Some stats => mret stats
  | None => initializeUserStats
  end.

Definition updateUserStats (updates : UserStats) : Async UserStats :=
  currentStats ← currentUserStats;
  let updatedStats := spread currentStats updates in
  _ ← saveUserStats updatedStats;
  mret updatedStats.

(** The names every object inherits from [Object.prototype]: its
    functions and the accessor [__proto__]. *)
Definition objectPrototype : list string :=
  [ "constructor"; "hasOwnProperty"; "isPrototypeOf"; "propertyIsEnumerable";
    "toLocaleString"; "toString"; "valueOf";
    "__defineGetter__"; "__defineSetter__"; "__lookupGetter__"; "__lookupSetter__";
    "__proto__" ].

(** What an expression over the statistics can evaluate to.  [Joined left
    amount] is the string [String(left) + String(amount)], which [+] makes
    of a left operand that is not a number. *)
Inductive Value :=
  | Undefined
  | Number (n : Z)
  | Text (s : string)
  | Array (items : list string)
  | Features (entries : gmap string Z)
  | Prototype
  | Builtin (name : string)
  | Joined (left : Value) (amount : Z).

(** [stats[name]]: the property of the object itself, else the one it
    inherits. *)
Definition getProperty (stats : UserStats) (name : string) : Value :=
  if bool_decide (name = "id") then from_option Text Undefined (id stats)
  else if bool_decide (name = "achievements") then
    from_option Array Undefined (achievements stats)
  else if bool_decide (name = "favoriteFeatures") then
    from_option Features Undefined (favoriteFeatures stats)
  else
    match numbers stats !! name with
    | Some n => Number n
    | None =>
        if bool_decide (name = "__proto__") then Prototype
        else if bool_decide (name ∈ objectPrototype) then Builtin name
        else Undefined
    end.

(** [(currentStats[statName] || 0) + amount]: a sum of numbers when the
    property is a number or falsy, a string otherwise. *)
Definition incremented (currentStats : UserStats) (statName : string) (amount : Z)
    : Value :=
  match getProperty currentStats statName with
  | Undefined => Number (Js.plus 0 amount)
  | Number n => Number (Js.plus n amount)
  | Text s => if bool_decide (s = "") then Number (Js.plus 0 amount)
              else Joined (Text s) amount
  | value => Joined value amount
  end.

(** [incrementStat] for a stat name under which the statistics hold a
    number or nothing, on the object or through its prototype: there
    [incremented] is the number that is stored.  (Under another name it is
    a string, which no record of this type holds.) *)
Definition incrementStat (statName : string) (amount : Z) : Async UserStats :=
  currentStats ← currentUserStats;
  let currentStats :=
    setNumber statName (Js.plus (numberOr0 currentStats statName) amount) currentStats in
  _ ← saveUserStats currentStats;
  mret currentStats.

(** A rule of the achievement table. *)
Record Achievement := {
  a_id : string;
  name : string;
  description : string;
  condition : UserStats -> bool;
  icon : string;
}.

(** [s[counter] >= threshold]: false when the counter is missing. *)
Definition atLeast (counter : string) (threshold : Z) (s : UserStats) : bool :=
  match numbers s !! counter with
  | Some n => bool_decide (n >= threshold)
  | None => false
  end.

Definition achievementTable : list Achievement :=
  [ {| a_id := "first_message"; name := "First Steps";
       description := "Send your first message";
       condition := atLeast "totalMessages" 1; icon := "💬" |};
    {| a_id := "chat_starter"; name := "Chat Starter";
       description := "Create your first chat";
       condition := atLeast "totalChats" 1; icon := "🚀" |};
    {| a_id := "conversationalist"; name := "Conversationalist";
       description := "Send 50 messages";
       condition := atLeast "totalMessages" 50; icon := "🗣️" |};
    {| a_id := "chat_master"; name := "Chat Master";
       description := "Create 10 chat sessions";
       condition := atLeast "totalChats" 10; icon := "👑" |};
    {| a_id := "prompt_creator"; name := "Prompt Creator";
       description := "Create your first quick prompt";
       condition := atLeast "totalQuickPrompts" 1; icon := "⚡" |};
    {| a_id := "efficiency_expert"; name := "Efficiency Expert";
       description := "Create 5 quick prompts";
       condition := atLeast "totalQuickPrompts" 5; icon := "🎯" |};
    {| a_id := "marathon_chatter"; name := "Marathon Chatter";
       description := "Send 200 messages";
       condition := atLeast "totalMessages" 200; icon := "🏃‍♂️" |};
    {| a_id := "week_warrior"; name := "Week Warrior";
       description := "Use the app for 7 consecutive days";
       condition := atLeast "streakDays" 7; icon := "🔥" |};
    {| a_id := "power_user"; name := "Power User";
       description := "Spend 60 minutes chatting";
       condition := atLeast "timeSpentChatting" 60; icon := "⚡" |};
    {| a_id := "explorer"; name := "Explorer";
       description := "Create 25 chat sessions";
       condition := atLeast "totalChats" 25; icon := "🧭" |} ].

(** [arr.includes(x)] on an array of strings. *)
Definition includes (arr : list string) (x : string) : bool := bool_decide (x ∈ arr).

(** [const currentAchievements = stats.achievements || []]: the array of
    the caller's object when it has one (pushing to it changes that object),
    a fresh array otherwise.  [seenBy stats current] is the caller's object
    while the loop has brought the array to [current]. *)
Definition seenBy (stats : UserStats) (currentAchievements : list string) : UserStats :=
  match achievements stats with
  | Some _ =>
      {| id := id stats; numbers := numbers stats;
         achievements := Some currentAchievements;
         favoriteFeatures := favoriteFeatures stats |}
  | None => stats
  end.

(** One turn of [for (const achievement of achievements)], on the pair
    [(newAchievements, currentAchievements)]. *)
Definition checkOne (stats : UserStats)
    (acc : list Achievement * list string) (achievement : Achievement)
    : list Achievement * list string :=
  let '(newAchievements, currentAchievements) := acc in
  if negb (includes currentAchievements (a_id achievement))
     && condition achievement (seenBy stats currentAchievements)
  then (newAchievements ++ [achievement], currentAchievements ++ [a_id achievement])
  else acc.

(** What [checkAchievements] hands back: the promise's value and the
    caller's [stats] object as the call leaves it. *)
Record Checked := {
  newAchievements : list Achievement;
  statsAfter : UserStats;
}.

Definition checkAchievements (stats : UserStats) : Async Checked :=
  let currentAchievements := default [] (achievements stats) in
  let '(newAchievements, currentAchievements) :=
    foldl (checkOne stats) ([], currentAchievements) achievementTable in
  let result := {| newAchievements := newAchievements;
                   statsAfter := seenBy stats currentAchievements |} in
  if bool_decide (Js.len newAchievements > 0) then
    _ ← updateUserStats
          {| id := None; numbers := ∅;
             achievements := Some currentAchievements;
             favoriteFeatures := None |};
    mret result
  else mret result.

(** [Math.round(a / b)]: the quotient is a double, and that is what is
    rounded. *)
Definition roundDiv (a b : Z) : Z := Js.Math_round (Js.divide a b).

Definition msPerDay : Z := 24 * 60 * 60 * 1000.

(** [getUsageInsights]; a [NaN] (from a missing [joinDate]) leaves the
    property without entry. *)
Definition getUsageInsights : Async UserStats :=
  stats ← currentUserStats;
  now ← Date_now;
  let daysSinceJoin : option Z :=
    (fun joinDate => Js.Math_floor (Js.divide (Js.minus now joinDate) msPerDay))
      <$> numbers stats !! "joinDate" in
  let average (name : string) (total : Z) : list (string * Z) :=
    match daysSinceJoin with
    | Some days => [(name, roundDiv total (Z.max days 1))]
    | None => []
    end in
  mret
    {| id := None;
       numbers := list_to_map
         ([ ("totalMessages", numberOr0 stats "totalMessages");
            ("totalChats", numberOr0 stats "totalChats");
            ("totalQuickPrompts", numberOr0 stats "totalQuickPrompts");
            ("daysSinceJoin",
              match daysSinceJoin with
              | Some days => if bool_decide (days = 0) then 1 else days
              | None => 1
              end) ]
          ++ average "averageMessagesPerDay" (numberOr0 stats "totalMessages")
          ++ average "averageChatsPerDay" (numberOr0 stats "totalChats")
          ++ [ ("streakDays", numberOr0 stats "streakDays");
               ("timeSpentChatting", numberOr0 stats "timeSpentChatting");
               ("achievementsEarned", Js.len (default [] (achievements stats)));
               ("totalAchievements", 10) ]);
       achievements := None;
       favoriteFeatures := None |}.

Section LocalTime.
(** The local time zone: the offset of local time from UTC at each instant,
    in milliseconds (it changes where clocks are put forward or back). *)
Variable zoneOffset : Z -> Z.

(** [new Date(t).toDateString()]: the text names the local calendar day, so
    it is kept as the number of that day; [None] is ["Invalid Date"], the
    text for a missing time value. *)
Definition toDateString (t : option Z) : option Z :=
  (fun t => (t + zoneOffset t) / msPerDay) <$> t.

Definition updateStreakDays : Async UserStats :=
  stats ← currentUserStats;
  now ← Date_now;
  let today := toDateString (Some now) in
  let lastActiveDate := toDateString (numbers stats !! "lastActiveDate") in
  let yesterday := toDateString (Some (now - 24 * 60 * 60 * 1000)) in
  let newStreakDays := numberOr0 stats "streakDays" in
  let update (newStreakDays : Z) :=
    updateUserStats
      {| id := None;
         numbers := list_to_map [("streakDays", newStreakDays); ("lastActiveDate", now)];
         achievements := None;
         favoriteFeatures := None |} in
  if bool_decide (lastActiveDate = today) then mret stats
  else if bool_decide (lastActiveDate = yesterday) then update (Js.plus newStreakDays 1)
  else update 1.

End LocalTime.

Definition trackTimeSpent (minutes : Z) : Async UserStats :=
  incrementStat "timeSpentChatting" minutes.

(** An entry of the list [getAllAchievements] returns. *)
Record AchievementStatus := {
  status_id : string;
  status_name : string;
  status_description : string;
  status_icon : string;
  earned : bool;
}.

Definition getAllAchievements : Async (list AchievementStatus) :=
  stats ← currentUserStats;
  let earnedAchievements := default [] (achievements stats) in
  mret
    [ {| status_id := "first_message"; status_name := "First Steps";
         status_description := "Send your first message"; status_icon := "💬";
         earned := includes earnedAchievements "first_message" |};
      {| status_id := "chat_starter"; status_name := "Chat Starter";
         status_description := "Create your first chat"; status_icon := "🚀";
         earned := includes earnedAchievements "chat_starter" |};
      {| status_id := "conversationalist"; status_name := "Conversationalist";
         status_description := "Send 50 messages"; status_icon := "🗣️";
         earned := includes earnedAchievements "conversationalist" |};
      {| status_id := "chat_master"; status_name := "Chat Master";
         status_description := "Create 10 chat sessions"; status_icon := "👑";
         earned := includes earnedAchievements "chat_master" |};
      {| status_id := "prompt_creator"; status_name := "Prompt Creator";
         status_description := "Create your first quick prompt"; status_icon := "⚡";
         earned := includes earnedAchievements "prompt_creator" |};
      {| status_id := "efficiency_expert"; status_name := "Efficiency Expert";
         status_description := "Create 5 quick prompts"; status_icon := "🎯";
         earned := includes earnedAchievements "efficiency_expert" |};
      {| status_id := "marathon_chatter"; status_name := "Marathon Chatter";
         status_description := "Send 200 messages"; status_icon := "🏃‍♂️";
         earned := includes earnedAchievements "marathon_chatter" |};
      {| status_id := "week_warrior"; status_name := "Week Warrior";
         status_description := "Use the app for 7 consecutive days"; status_icon := "🔥";
         earned := includes earnedAchievements "week_warrior" |};
      {| status_id := "power_user"; status_name := "Power User";
         status_description := "Spend 60 minutes chatting"; status_icon := "⚡";
         earned := includes earnedAchievements "power_user" |};
      {| status_id := "explorer"; status_name := "Explorer";
         status_description := "Create 25 chat sessions"; status_icon := "🧭";
         earned := includes earnedAchievements "explorer" |} ].

End StatsService.

(** ** The statistics record in the store *)

Section StatsLaws.
Import IndexedDBService StatsService.
Implicit Types (w : World UserStats) (stats : UserStats).

(** The database, once opened, has every store of [STORES]: so it is for
    the pristine origin, and every request keeps it so. *)
Definition installed w : Prop := complete (opened w).

(** The record kept under ['main'] in the [userStats] store. *)
Definition storedStats w : option UserStats :=
  opened w !! STORES USER_STATS ≫= fun store => store !! "main".

(** The record [saveUserStats] hands to the store. *)
Definition asStored stats : UserStats :=
  spread {| id := Some "main"; numbers := ∅;
            achievements := None; favoriteFeatures := None |} stats.

(** The world once [item] is in the [userStats] store under key [k]. *)
Definition withStats w (k : string) (item : UserStats) : World UserStats :=
  withDatabase w
    (<[STORES USER_STATS :=
         <[k := item]> (default ∅ (opened w !! STORES USER_STATS))]> (opened w)).

Lemma installed_withStats w k item : installed w -> installed (withStats w k item).
Proof.
  intros Hw s. unfold withStats. rewrite opened_withDatabase.
  destruct (decide (STORES USER_STATS = STORES s)) as [<-|?].
  - rewrite lookup_insert_eq. by eexists.
  - rewrite lookup_insert_ne by done. apply Hw.
Qed.

Lemma withStats_opened w k item :
  withStats (withDatabase w (opened w)) k item = withStats w k item.
Proof. done. Qed.

Lemma storedStats_opened w : storedStats (withDatabase w (opened w)) = storedStats w.
Proof. done. Qed.

Lemma storedStats_withStats w k item :
  storedStats (withStats w k item) = if decide (k = "main") then Some item else storedStats w.
Proof.
  unfold storedStats, withStats. rewrite opened_withDatabase, lookup_insert_eq. simpl.
  destruct (decide (k = "main")) as [->|Hne].
  - by rewrite lookup_insert_eq.
  - rewrite lookup_insert_ne by done.
    destruct (opened w !! "userStats"); simpl; [done|apply lookup_empty].
Qed.

Lemma getUserStats_read w :
  installed w ->
  getUserStats w = (Resolved (storedStats w), withDatabase w (opened w)).
Proof.
  intros Hw. destruct (Hw USER_STATS) as [store Hs].
  unfold getUserStats. rewrite (getFromStore_read w _ store) by done.
  unfold storedStats. by rewrite Hs.
Qed.

Lemma saveUserStats_stored w stats :
  installed w ->
  saveUserStats stats w
  = (Resolved tt, withStats w (default "main" (id stats)) (asStored stats)).
Proof.
  intros Hw. destruct (Hw USER_STATS) as [store Hs].
  unfold saveUserStats.
  rewrite (putInStore_stored w _ store _ (default "main" (id stats))); [|done| |].
  - unfold withStats. by rewrite Hs.
  - unfold keyOf, UserStats_keyPath. simpl. by destruct (id stats).
  - by apply (clash_other_stores USER_STATS).
Qed.

(** The statistics a call starts from: the stored record, or the literal
    of [initializeUserStats] when nothing is stored yet. *)
Definition startingStats w : UserStats :=
  default (newUserStats (clock w) (clock w)) (storedStats w).

(** The world once the starting statistics have been obtained. *)
Definition started w : World UserStats :=
  match storedStats w with
  | Some _ => withDatabase w (opened w)
  | None => withStats w "main" (asStored (newUserStats (clock w) (clock w)))
  end.

Lemma initializeUserStats_run w :
  installed w ->
  initializeUserStats w = (Resolved (startingStats w), started w).
Proof.
  intros Hw. unfold initializeUserStats, mbind, Async_bind, await.
  rewrite getUserStats_read by done.
  unfold startingStats, started. destruct (storedStats w) as [stats|] eqn:Hst; [done|].
  unfold Date_now. simpl.
  rewrite saveUserStats_stored by done. done.
Qed.

Lemma currentUserStats_run w :
  installed w ->
  currentUserStats w = (Resolved (startingStats w), started w).
Proof.
  intros Hw. unfold currentUserStats, mbind, Async_bind, await.
  rewrite getUserStats_read by done.
  destruct (storedStats w) as [stats|] eqn:Hst.
  - unfold startingStats, started. by rewrite Hst.
  - rewrite initializeUserStats_run by done.
    unfold startingStats, started. rewrite storedStats_opened, Hst. simpl.
    by rewrite withStats_opened.
Qed.

Lemma installed_started w : installed w -> installed (started w).
Proof.
  intros Hw. unfold started. destruct (storedStats w); [done|].
  by apply installed_withStats.
Qed.

Lemma clock_started w : clock (started w) = clock w.
Proof. unfold started. by destruct (storedStats w). Qed.

(** After the start a record is stored: the starting statistics, carrying
    the key ['main'] when they were just created. *)
Lemma storedStats_started w :
  storedStats (started w) = Some (default (asStored (startingStats w)) (storedStats w)).
Proof.
  unfold started, startingStats. destruct (storedStats w) as [stats|] eqn:Hst.
  - by rewrite storedStats_opened, Hst.
  - by rewrite storedStats_withStats.
Qed.

Lemma updateUserStats_run w updates :
  installed w ->
  let updatedStats := spread (startingStats w) updates in
  updateUserStats updates w
  = (Resolved updatedStats,
     withStats (started w) (default "main" (id updatedStats)) (asStored updatedStats)).
Proof.
  intros Hw. unfold updateUserStats, mbind, Async_bind, await.
  rewrite currentUserStats_run by done.
  rewrite saveUserStats_stored by (by apply installed_started). done.
Qed.

Lemma incrementStat_run w statName amount :
  installed w ->
  let currentStats :=
    setNumber statName (Js.plus (numberOr0 (startingStats w) statName) amount)
      (startingStats w) in
  incrementStat statName amount w
  = (Resolved currentStats,
     withStats (started w) (default "main" (id currentStats)) (asStored currentStats)).
Proof.
  intros Hw. unfold incrementStat, mbind, Async_bind, await.
  rewrite currentUserStats_run by done.
  rewrite saveUserStats_stored by (by apply installed_started). done.
Qed.

End StatsLaws.

Section StatsClaims.
Import IndexedDBService StatsService.
Implicit Types (w : World UserStats) (stats before after : UserStats).

Lemma numbers_asStored stats : numbers (asStored stats) = numbers stats.
Proof. unfold asStored, spread. simpl. apply (right_id_L ∅ (∪)). Qed.

Lemma achievements_asStored stats : achievements (asStored stats) = achievements stats.
Proof. unfold asStored, spread, orElse. simpl. by destruct (achievements stats). Qed.

Lemma favoriteFeatures_asStored stats :
  favoriteFeatures (asStored stats) = favoriteFeatures stats.
Proof. unfold asStored, spread, orElse. simpl. by destruct (favoriteFeatures stats). Qed.

Lemma id_asStored stats : id (asStored stats) = Some (default "main" (id stats)).
Proof. unfold asStored, spread, orElse. simpl. by destruct (id stats). Qed.

Lemma id_spread a b : id (spread a b) = orElse (id b) (id a).
Proof. done. Qed.

Lemma asStored_keyed stats : id stats = Some "main" -> asStored stats = stats.
Proof.
  intros Hid. destruct stats as [i n a f]. simpl in Hid. subst i.
  unfold asStored, spread, orElse. simpl. f_equal.
  - apply (right_id_L ∅ (∪)).
  - by destruct a.
  - by destruct f.
Qed.

Lemma stored_keyed w stats :
  sound w -> storedStats w = Some stats -> id stats = Some "main".
Proof.
  intros [_ Hk] Hst. unfold storedStats in Hst.
  destruct (opened w !! STORES USER_STATS) as [store|] eqn:Hs; [|done].
  simpl in Hst. apply (Hk _ _ _ _ Hs Hst).
Qed.

(** The key under which the starting statistics are written back. *)
Lemma startingStats_key w : sound w -> default "main" (id (startingStats w)) = "main".
Proof.
  intros Hw. unfold startingStats.
  destruct (storedStats w) as [stats|] eqn:Hst; [|done].
  simpl. by rewrite (stored_keyed w stats).
Qed.

(** Once a call has obtained its statistics, they are what the store holds. *)
Lemma storedStats_started_sound w :
  sound w -> storedStats (started w) = Some (asStored (startingStats w)).
Proof.
  intros Hw. rewrite storedStats_started. unfold startingStats.
  destruct (storedStats w) as [stats|] eqn:Hst; [|done].
  simpl. by rewrite asStored_keyed by (by eapply stored_keyed).
Qed.

(** [after] is [before] with the number [name] set to [value], and nothing
    else touched. *)
Definition changedOnly (name : string) (value : Z) before after : Prop :=
  numbers after !! name = Some value
  /\ (forall other, other <> name -> numbers after !! other = numbers before !! other)
  /\ achievements after = achievements before
  /\ favoriteFeatures after = favoriteFeatures before
  /\ id after = id before.

Lemma changedOnly_setNumber name value stats :
  changedOnly name value stats (setNumber name value stats).
Proof.
  unfold changedOnly. simpl.
  split; [apply lookup_insert_eq|].
  split; [intros other Hne; by apply lookup_insert_ne|done].
Qed.

Lemma changedOnly_asStored name value before after :
  changedOnly name value before after ->
  changedOnly name value (asStored before) (asStored after).
Proof.
  unfold changedOnly.
  rewrite !numbers_asStored, !achievements_asStored,
    !favoriteFeatures_asStored, !id_asStored.
  intros (? & ? & ? & ? & ->). done.
Qed.

(** Within 2^53 on either side of 0 the sum of two integers is kept as
    it is. *)
Lemma roundDouble_safe z : Z.abs z <= 2 ^ 53 -> Js.roundDouble z = z.
Proof.
  intros Hz. unfold Js.roundDouble. cbv zeta.
  case_bool_decide as Hbits; [done|].
  assert (Hpow : Z.abs z = 2 ^ 53).
  { assert (0 < Z.abs z) by (destruct (decide (Z.abs z = 0)) as [Hz0|?];
      [rewrite Hz0 in Hbits; simpl in Hbits; lia|lia]).
    assert (2 ^ 53 <= Z.abs z) by (apply Z.log2_le_pow2; lia).
    lia. }
  destruct (Z.abs_eq_or_opp z) as [Habs|Habs]; rewrite Habs in Hpow.
  - rewrite Hpow. vm_compute. reflexivity.
  - assert (Hneg : z = - 2 ^ 53) by lia. rewrite Hneg. vm_compute. reflexivity.
Qed.

Lemma plus_safe a b : Z.abs (a + b) <= 2 ^ 53 -> Js.plus a b = a + b.
Proof. apply roundDouble_safe. Qed.

(** Under a name of a number that objects do not inherit, line 442 of the
    service computes a number. *)
Lemma incremented_number stats (statName : string) (amount : Z) :
  statName ∉ otherProperties ->
  statName ∉ objectPrototype ->
  incremented stats statName amount = Number (Js.plus (numberOr0 stats statName) amount).
Proof.
  intros Hother Hproto. unfold incremented, getProperty, numberOr0.
  assert (Hne : forall name, name ∈ otherProperties -> statName <> name)
    by (by intros name Hin ->).
  rewrite (bool_decide_eq_false_2 (statName = "id"))
    by (apply Hne; unfold otherProperties; set_solver).
  rewrite (bool_decide_eq_false_2 (statName = "achievements"))
    by (apply Hne; unfold otherProperties; set_solver).
  rewrite (bool_decide_eq_false_2 (statName = "favoriteFeatures"))
    by (apply Hne; unfold otherProperties; set_solver).
  destruct (numbers stats !! statName) as [n|]; [done|].
  rewrite (bool_decide_eq_false_2 (statName = "__proto__"))
    by (intros ->; apply Hproto; unfold objectPrototype; set_solver).
  by rewrite bool_decide_eq_false_2.
Qed.

(** C7, as amended.  For every world, every amount and every stat name
    that is not [id], [achievements] or [favoriteFeatures] and not a name
    that objects inherit: line 442 computes a number, the sum, as doubles,
    of the property's previous value (0 when it was missing) and the
    amount, which is their exact sum while that stays within 2^53 of 0;
    [incrementStat] resolves; in the stored record, and in the object it
    returns, the named property is that number, and every other property
    (the other counters, [joinDate], [streakDays], [lastActiveDate], the
    achievements list, ...) is what it was. *)
Theorem incrementStat_frame w (statName : string) (amount : Z) :
  sound w ->
  statName ∉ otherProperties ->
  statName ∉ objectPrototype ->
  exists before after returned w' sum,
    storedStats (started w) = Some before
    /\ incremented (startingStats w) statName amount = Number sum
    /\ sum = Js.plus (default 0 (numbers before !! statName)) amount
    /\ (Z.abs (default 0 (numbers before !! statName) + amount) <= 2 ^ 53 ->
        sum = default 0 (numbers before !! statName) + amount)
    /\ incrementStat statName amount w = (Resolved returned, w')
    /\ storedStats w' = Some after
    /\ changedOnly statName sum before after
    /\ changedOnly statName sum (startingStats w) returned.
Proof.
  intros Hw Hother Hproto.
  pose proof (incrementStat_run w statName amount (proj1 Hw)) as Hrun.
  cbv zeta in Hrun.
  change (id (setNumber _ _ (startingStats w))) with (id (startingStats w)) in Hrun.
  rewrite startingStats_key in Hrun by done.
  exists (asStored (startingStats w)). do 3 eexists.
  exists (Js.plus (numberOr0 (startingStats w) statName) amount).
  split; [by apply storedStats_started_sound|].
  split; [by apply incremented_number|].
  rewrite numbers_asStored. fold (numberOr0 (startingStats w) statName).
  split; [done|].
  split; [apply plus_safe|].
  split; [exact Hrun|].
  split; [by rewrite storedStats_withStats|].
  split; [apply changedOnly_asStored|]; apply changedOnly_setNumber.
Qed.

Lemma incrementStat_frame_witness :
  sound (pristine 0 : World UserStats)
  /\ ("totalChats" ∉ otherProperties)
  /\ ("totalChats" ∉ objectPrototype)
  /\ exists before after returned w',
       storedStats (started (pristine 0)) = Some before
       /\ incremented (startingStats (pristine 0)) "totalChats" 1 = Number 1
       /\ incrementStat "totalChats" 1 (pristine 0) = (Resolved returned, w')
       /\ storedStats w' = Some after
       /\ changedOnly "totalChats" 1 before after
       /\ changedOnly "totalChats" 1 (startingStats (pristine 0)) returned.
Proof.
  split; [apply pristine_sound|].
  assert (Hname : "totalChats" ∉ otherProperties).
  { unfold otherProperties. intros H.
    repeat (apply elem_of_cons in H as [H|H]; [discriminate H|]).
    by apply elem_of_nil in H. }
  assert (Hproto : "totalChats" ∉ objectPrototype).
  { unfold objectPrototype. intros H.
    repeat (apply elem_of_cons in H as [H|H]; [discriminate H|]).
    by apply elem_of_nil in H. }
  split; [exact Hname|]. split; [exact Hproto|].
  destruct (incrementStat_frame (pristine 0) "totalChats" 1 (pristine_sound 0) Hname Hproto)
    as (before & after & returned & w' & sum & Hbefore & Hsum & Hplus & _ & Hrun & Hst
        & Hstored & Hreturned).
  assert (Hone : sum = 1).
  { rewrite Hplus.
    assert (Hb : before = asStored (startingStats (pristine 0))).
    { pose proof (storedStats_started_sound (pristine 0) (pristine_sound 0)) as Hs.
      rewrite Hbefore in Hs. by injection Hs. }
    rewrite Hb. vm_compute. reflexivity. }
  rewrite Hone in Hsum, Hstored, Hreturned.
  by exists before, after, returned, w'.
Defined.

(** Under ['toString'] a new user's statistics hold nothing, yet
    [incrementStat('toString', 1)] does not set the property to 0 + 1: the
    object inherits a function of that name, and line 442 makes a string of
    it.  And a counter that holds 2^53 stays where it is when 1 is added:
    the sum is not a double. *)
Lemma incrementStat_inherited_name :
  let stats := newUserStats 0 0 in
  getProperty stats "toString" = Builtin "toString"
  /\ numbers stats !! "toString" = None
  /\ incremented stats "toString" 1 = Joined (Builtin "toString") 1
  /\ incremented stats "toString" 1 <> Number (0 + 1)
  /\ Js.plus 9007199254740992 1 = 9007199254740992.
Proof.
  intros stats.
  assert (Hget : getProperty stats "toString" = Builtin "toString")
    by (vm_compute; reflexivity).
  split; [exact Hget|]. split; [vm_compute; reflexivity|].
  assert (Hinc : incremented stats "toString" 1 = Joined (Builtin "toString") 1)
    by (unfold incremented; by rewrite Hget).
  split; [exact Hinc|]. split; [by rewrite Hinc|].
  vm_compute. reflexivity.
Qed.

Section Streak.
Variable zoneOffset : Z -> Z.

(** The local calendar day an instant falls on. *)
Definition dayOf (t : Z) : Z := (t + zoneOffset t) / msPerDay.

(** Where the clocks were not changed in the 24 hours before [now], the
    instant 24 hours before falls on the previous day. *)
Lemma dayOf_yesterday now :
  zoneOffset (now - 24 * 60 * 60 * 1000) = zoneOffset now ->
  dayOf (now - 24 * 60 * 60 * 1000) = dayOf now - 1.
Proof.
  intros Hsame. unfold dayOf, msPerDay. rewrite Hsame.
  replace (now - 24 * 60 * 60 * 1000 + zoneOffset now)
    with ((now + zoneOffset now) + (-1) * (24 * 60 * 60 * 1000)) by lia.
  rewrite Z.div_add by lia. lia.
Qed.

(** The update [updateStreakDays] hands to [updateUserStats]. *)
Definition streakUpdate (newStreakDays now : Z) : UserStats :=
  {| id := None;
     numbers := list_to_map [("streakDays", newStreakDays); ("lastActiveDate", now)];
     achievements := None;
     favoriteFeatures := None |}.

Lemma sound_started w : sound w -> sound (started w).
Proof.
  intros [Hc Hk]. split; [by apply installed_started|].
  unfold started. destruct (storedStats w); [done|].
  apply (perform_keyed (Put (STORES USER_STATS)
           (asStored (newUserStats (clock w) (clock w)))) w) in Hk.
  rewrite perform_opened in Hk. destruct (Hc USER_STATS) as [store Hst].
  rewrite Hst in Hk. unfold keyOf, UserStats_keyPath in Hk.
  rewrite id_asStored in Hk. simpl in Hk.
  unfold withStats. rewrite opened_withDatabase, Hst. done.
Qed.

Lemma startingStats_started w :
  sound w -> startingStats (started w) = asStored (startingStats w).
Proof.
  intros Hw. unfold startingStats at 1. by rewrite storedStats_started_sound.
Qed.

Lemma started_started w : sound w -> started (started w) = started w.
Proof.
  intros Hw. unfold started at 1. rewrite storedStats_started_sound by done.
  unfold started. by destruct (storedStats w).
Qed.

(** [updateUserStats] with a streak update, run after the statistics have
    been obtained. *)
Lemma streakUpdate_run w newStreakDays now :
  sound w ->
  let after := spread (asStored (startingStats w)) (streakUpdate newStreakDays now) in
  updateUserStats (streakUpdate newStreakDays now) (started w)
  = (Resolved after, withStats (started w) "main" after)
    /\ asStored after = after.
Proof.
  intros Hw after.
  assert (Hid : id after = Some "main").
  { unfold after. rewrite id_spread, id_asStored.
    by rewrite startingStats_key. }
  split; [|by apply asStored_keyed].
  rewrite updateUserStats_run by (by apply sound_started).
  rewrite startingStats_started, started_started by done.
  fold after. rewrite Hid. simpl. by rewrite asStored_keyed.
Qed.

(** The three ways of [updateStreakDays], by the day of the stored date. *)
Lemma updateStreakDays_run w :
  sound w ->
  let stats := startingStats w in
  let last := dayOf <$> numbers stats !! "lastActiveDate" in
  updateStreakDays zoneOffset w
  = if bool_decide (last = Some (dayOf (clock w)))
    then (Resolved stats, started w)
    else if bool_decide (last = Some (dayOf (clock w - 24 * 60 * 60 * 1000)))
    then updateUserStats
           (streakUpdate (Js.plus (numberOr0 stats "streakDays") 1) (clock w)) (started w)
    else updateUserStats (streakUpdate 1 (clock w)) (started w).
Proof.
  intros Hw stats last.
  unfold updateStreakDays, mbind, Async_bind, await.
  rewrite currentUserStats_run by apply Hw.
  unfold Date_now. cbv beta iota zeta. rewrite clock_started.
  unfold toDateString. cbn [fmap option_fmap option_map].
  change ((clock w - 24 * 60 * 60 * 1000
           + zoneOffset (clock w - 24 * 60 * 60 * 1000)) / msPerDay)
    with (dayOf (clock w - 24 * 60 * 60 * 1000)).
  fold (dayOf (clock w)).
  change (fun t => (t + zoneOffset t) / msPerDay) with dayOf.
  fold (streakUpdate (Js.plus (numberOr0 (startingStats w) "streakDays") 1) (clock w)).
  fold (streakUpdate 1 (clock w)).
  unfold last, stats.
  destruct (bool_decide _); [reflexivity|]. destruct (bool_decide _); reflexivity.
Qed.

(** What a streak update leaves: the new streak and date, nothing else
    changed. *)
Definition streakBecomes w (newStreak : Z) : Prop :=
  let before := asStored (startingStats w) in
  exists after w',
    updateStreakDays zoneOffset w = (Resolved after, w')
    /\ storedStats w' = Some after
    /\ numbers after !! "streakDays" = Some newStreak
    /\ numbers after !! "lastActiveDate" = Some (clock w)
    /\ (forall other, other <> "streakDays" -> other <> "lastActiveDate" ->
          numbers after !! other = numbers before !! other)
    /\ achievements after = achievements before
    /\ favoriteFeatures after = favoriteFeatures before
    /\ id after = id before.

Lemma streakBecomes_update w newStreak :
  sound w ->
  updateStreakDays zoneOffset w
  = updateUserStats (streakUpdate newStreak (clock w)) (started w) ->
  streakBecomes w newStreak.
Proof.
  intros Hw Hrun. unfold streakBecomes.
  destruct (streakUpdate_run w newStreak (clock w) Hw) as [Hupd Hkey].
  do 2 eexists. split; [by rewrite Hrun, Hupd|].
  split; [by rewrite storedStats_withStats|].
  unfold spread, streakUpdate. simpl.
  split; [by rewrite lookup_union_l' by (by eexists)|].
  split; [by rewrite lookup_union_l' by (by eexists)|].
  split.
  - intros other Hs Hl. apply lookup_union_r.
    rewrite lookup_insert_ne, lookup_insert_ne by done. apply lookup_empty.
  - unfold orElse. done.
Qed.

(** X28. [updateStreakDays] goes by local calendar days.  With [before]
    the stored statistics, [last] the day of their [lastActiveDate], [now]
    the reading of the clock and [streak] their [streakDays] (0 when
    missing): when [last] is the day of [now], the call resolves to the
    statistics as they are and writes nothing; when [last] is not that day
    but the day of the instant 24 hours before [now], the streak becomes
    the sum of [streak] and 1 as doubles, which is [streak + 1] within
    2^53 of 0, and [lastActiveDate] becomes [now]; in every other case
    (another day, or no date at all) the streak becomes 1 and
    [lastActiveDate] becomes [now].  In the two writing cases nothing else
    changes.  Where the zone offset 24 hours before [now] is the offset at
    [now], the day of that instant is the day before the day of [now]. *)
Theorem updateStreakDays_cases w :
  sound w ->
  let before := asStored (startingStats w) in
  let now := clock w in
  let last := dayOf <$> numbers before !! "lastActiveDate" in
  let yesterday := dayOf (now - 24 * 60 * 60 * 1000) in
  let streak := default 0 (numbers before !! "streakDays") in
  storedStats (started w) = Some before
  /\ (last = Some (dayOf now) ->
        updateStreakDays zoneOffset w = (Resolved (startingStats w), started w))
  /\ (last <> Some (dayOf now) -> last = Some yesterday ->
      streakBecomes w (Js.plus streak 1)
      /\ (Z.abs (streak + 1) <= 2 ^ 53 -> Js.plus streak 1 = streak + 1))
  /\ (last <> Some (dayOf now) -> last <> Some yesterday -> streakBecomes w 1)
  /\ (zoneOffset (now - 24 * 60 * 60 * 1000) = zoneOffset now ->
      yesterday = dayOf now - 1).
Proof.
  intros Hw before now last yesterday streak.
  pose proof (updateStreakDays_run w Hw) as Hstart. cbv zeta in Hstart.
  assert (Hlast : dayOf <$> numbers (startingStats w) !! "lastActiveDate" = last).
  { unfold last, before. by rewrite numbers_asStored. }
  assert (Hstreak : numberOr0 (startingStats w) "streakDays" = streak).
  { unfold streak, before. by rewrite numbers_asStored. }
  rewrite Hlast, Hstreak in Hstart. fold now in Hstart. fold yesterday in Hstart.
  split; [by apply storedStats_started_sound|].
  split; [|split; [|split]].
  - intros Htoday. by rewrite Hstart, bool_decide_eq_true_2.
  - intros Hnot Hyesterday. split; [|apply plus_safe].
    apply streakBecomes_update; [done|]. rewrite Hstart.
    by rewrite bool_decide_eq_false_2, bool_decide_eq_true_2.
  - intros Hnot1 Hnot2. apply streakBecomes_update; [done|].
    by rewrite Hstart, !bool_decide_eq_false_2.
  - apply dayOf_yesterday.
Qed.

End Streak.

(** A world where the user was last active the day before, in a zone
    without clock changes: the streak of 3 days goes to 4. *)
Lemma updateStreakDays_cases_witness :
  let active :=
    {| id := Some "main";
       numbers := <["lastActiveDate" := 0]> (<["streakDays" := 3]> ∅);
       achievements := Some [];
       favoriteFeatures := None |} in
  let w := after [Put "userStats" active] (pristine msPerDay) in
  sound w
  /\ exists after w',
      updateStreakDays (fun _ => 0) w = (Resolved after, w')
      /\ numbers after !! "streakDays" = Some 4
      /\ numbers after !! "lastActiveDate" = Some msPerDay.
Proof.
  intros active w.
  split; [apply after_sound|].
  destruct (updateStreakDays_cases (fun _ => 0) w (after_sound _ _))
    as (_ & _ & Hyesterday & _).
  destruct Hyesterday as [(after & w' & Hrun & _ & Hstreak & Hlast & _) _];
    [vm_compute; discriminate|vm_compute; reflexivity|].
  exists after, w'.
  split; [exact Hrun|]. split; [|exact Hlast].
  etrans; [exact Hstreak|]. vm_compute. reflexivity.
Defined.

(** Local time in New York in 2024: daylight saving time, four hours
    behind UTC, from 10 March 07:00 UTC to 3 November 06:00 UTC, and
    standard time, five hours behind, before and after. *)
Definition newYork (t : Z) : Z :=
  if bool_decide (1710054000000 <= t /\ t < 1730613600000)
  then -4 * 60 * 60 * 1000 else -5 * 60 * 60 * 1000.

(** C8.  The user was last active on Sunday 10 March 2024 at 12:00 in New
    York, with a streak of 3 days, and is back on Monday 11 March at 00:15:
    the last activity falls on the previous day, yet [updateStreakDays]
    sets the streak to 1 and not to 4.  The clocks went forward on the
    Sunday, so the instant 24 hours before now falls on the Saturday. *)
Lemma updateStreakDays_resets_after_clock_change :
  let last := 1710086400000 in
  let now := 1710130500000 in
  let active :=
    {| id := Some "main";
       numbers := <["lastActiveDate" := last]> (<["streakDays" := 3]> ∅);
       achievements := Some [];
       favoriteFeatures := None |} in
  let w := after [Put "userStats" active] (pristine now) in
  dayOf newYork last = dayOf newYork now - 1
  /\ dayOf newYork (now - 24 * 60 * 60 * 1000) = dayOf newYork now - 2
  /\ exists after w',
       updateStreakDays newYork w = (Resolved after, w')
       /\ storedStats w' = Some after
       /\ numbers after !! "streakDays" = Some 1.
Proof.
  intros last now active w.
  split; [vm_compute; reflexivity|]. split; [vm_compute; reflexivity|].
  assert (Hw : sound w) by apply after_sound.
  destruct (streakBecomes_update newYork w 1 Hw) as (after & w' & Hrun & Hst & Hstreak & _).
  { rewrite updateStreakDays_run by done. cbv zeta.
    rewrite bool_decide_eq_false_2 by (vm_compute; discriminate).
    by rewrite bool_decide_eq_false_2 by (vm_compute; discriminate). }
  by exists after, w'.
Qed.

End StatsClaims.

(** ** App.jsx: how the handlers use the statistics service *)

Module App.
Import IndexedDBService StatsService.

(** The statistics part of [handleCreateNewChat] (with ['totalChats']),
    [handleUpdateChatSession] (['totalMessages']) and
    [handleSaveQuickPrompt] (['totalQuickPrompts']):
    [await incrementStat(statName); const stats = await getUsageInsights();
     const newAchievements = await checkAchievements(stats);] *)
Definition recordAndCheck (statName : string) : Async (list Achievement) :=
  _ ← incrementStat statName 1;
  stats ← getUsageInsights;
  checked ← checkAchievements stats;
  mret (newAchievements checked).

End App.

Section AchievementClaims.
Import IndexedDBService StatsService.

Implicit Types (w : World UserStats) (stats : UserStats) (a : Achievement).

(** The rules [checkAchievements] awards on [stats]: those whose id is not
    in [stats.achievements] and whose condition holds. *)
Definition due stats a : Prop :=
  (a_id a ∉ default [] (achievements stats)) /\ condition a stats = true.

#[local] Instance due_dec stats a : Decision (due stats a).
Proof. unfold due. apply _. Defined.

Lemma table_size : length achievementTable = 10%nat.
Proof. reflexivity. Qed.

Lemma table_ids_distinct : NoDup (a_id <$> achievementTable).
Proof.
  apply (bool_decide_unpack (NoDup (a_id <$> achievementTable))).
  vm_compute. exact I.
Qed.

(** Every rule is a threshold on one of the five usage counters. *)
Lemma table_thresholds :
  Forall (fun a => exists counter threshold,
            counter ∈ ["totalMessages"; "totalChats"; "totalQuickPrompts";
                       "streakDays"; "timeSpentChatting"]
            /\ condition a = atLeast counter threshold)
         achievementTable.
Proof.
  unfold achievementTable.
  repeat (apply Forall_cons; split;
          [refine (ex_intro _ _ (ex_intro _ _ (conj _ eq_refl)));
           repeat constructor|]).
  constructor.
Qed.

(** The conditions read counters only: pushing to the achievements array
    does not change what they see. *)
Lemma condition_seenBy stats current a :
  a ∈ achievementTable -> condition a (seenBy stats current) = condition a stats.
Proof.
  intros Hin. pose proof table_thresholds as Ht.
  rewrite Forall_forall in Ht. destruct (Ht a Hin) as (c & t & _ & ->).
  unfold atLeast, seenBy. by destruct (achievements stats).
Qed.

Lemma foldl_checkOne stats (table : list Achievement) :
  forall newAchievements currentAchievements,
    (forall a, a ∈ table -> a ∈ achievementTable) ->
    NoDup (a_id <$> table) ->
    (forall a, a ∈ table ->
       a_id a ∈ currentAchievements <-> a_id a ∈ default [] (achievements stats)) ->
    foldl (checkOne stats) (newAchievements, currentAchievements) table
    = (newAchievements ++ filter (due stats) table,
       currentAchievements ++ (a_id <$> filter (due stats) table)).
Proof.
  induction table as [|a table IH]; intros new current Hsub Hnd Hcur.
  - simpl. by rewrite !app_nil_r.
  - simpl. apply NoDup_cons in Hnd as [Hfresh Hnd].
    assert (Hrest : forall b, b ∈ table -> b ∈ achievementTable)
      by (intros b Hb; apply Hsub; by right).
    rewrite condition_seenBy by (apply Hsub; by left).
    rewrite filter_cons. unfold includes.
    destruct (decide (due stats a)) as [[Hnot Hcond]|Hnotdue].
    + rewrite bool_decide_eq_false_2 by (rewrite Hcur by (by left); done).
      rewrite Hcond. simpl.
      rewrite IH; [by rewrite <- !app_assoc|done|done|].
      intros b Hb. rewrite elem_of_app, list_elem_of_singleton, Hcur by (by right).
      split; [|by left]. intros [?|Heq]; [done|].
      exfalso. apply Hfresh. rewrite <- Heq. by apply list_elem_of_fmap_2.
    + assert (negb (bool_decide (a_id a ∈ current)) && condition a stats = false)
        as ->.
      { destruct (condition a stats) eqn:Hcond; [|by rewrite andb_false_r].
        rewrite andb_true_r. apply negb_false_iff, bool_decide_eq_true_2.
        rewrite Hcur by (by left).
        destruct (decide (a_id a ∈ default [] (achievements stats))); [done|].
        exfalso. apply Hnotdue. by split. }
      apply IH; [done|done|]. intros b Hb. apply Hcur. by right.
Qed.

(** What [checkAchievements] does, in every world. *)
Lemma checkAchievements_run stats w :
  sound w ->
  let awarded := filter (due stats) achievementTable in
  let currentAchievements := default [] (achievements stats) ++ (a_id <$> awarded) in
  exists w',
    checkAchievements stats w
    = (Resolved {| newAchievements := awarded;
                   statsAfter := seenBy stats currentAchievements |}, w')
    /\ (awarded = [] -> w' = w)
    /\ (awarded <> [] ->
        exists stored, storedStats w' = Some stored
                       /\ achievements stored = Some currentAchievements).
Proof.
  intros Hw awarded current. unfold checkAchievements.
  rewrite foldl_checkOne; [|done|apply table_ids_distinct|done].
  fold awarded. simpl. fold current.
  destruct awarded as [|a awarded'] eqn:Haw.
  - rewrite bool_decide_eq_false_2 by (unfold Js.len; simpl; lia).
    exists w. done.
  - rewrite bool_decide_eq_true_2 by (unfold Js.len; simpl; lia).
    unfold mbind, Async_bind, await.
    rewrite updateUserStats_run by apply Hw.
    eexists. split; [done|]. split; [done|]. intros _.
    eexists. rewrite storedStats_withStats.
    rewrite id_spread. simpl. rewrite startingStats_key by done.
    rewrite decide_True by done. split; [done|].
    by rewrite achievements_asStored.
Qed.

(** The table has exactly 10 rules, each a threshold on a usage counter.
    In every world [checkAchievements] resolves to exactly the rules whose
    condition holds on [stats] and whose id is not in [stats.achievements],
    in table order; it appends their ids to the achievements array (the
    caller's, when [stats] has one) and, when there are any, writes the
    array to the stored record; and a later call whose [stats] carry at
    least the ids of that array returns none of them again. *)
Theorem checkAchievements_awards stats w :
  sound w ->
  length achievementTable = 10%nat
  /\ Forall (fun a => exists counter threshold,
               counter ∈ ["totalMessages"; "totalChats"; "totalQuickPrompts";
                          "streakDays"; "timeSpentChatting"]
               /\ condition a = atLeast counter threshold) achievementTable
  /\ exists checked w',
      checkAchievements stats w = (Resolved checked, w')
      /\ newAchievements checked = filter (due stats) achievementTable
      /\ (forall l, achievements stats = Some l ->
            achievements (statsAfter checked)
            = Some (l ++ (a_id <$> newAchievements checked)))
      /\ (newAchievements checked <> [] ->
          exists stored,
            storedStats w' = Some stored
            /\ achievements stored
               = Some (default [] (achievements stats)
                       ++ (a_id <$> newAchievements checked)))
      /\ (forall later w2,
            sound w2 ->
            (forall i, i ∈ default [] (achievements stats)
                           ++ (a_id <$> newAchievements checked) ->
                       i ∈ default [] (achievements later)) ->
            exists checked2 w2',
              checkAchievements later w2 = (Resolved checked2, w2')
              /\ forall a, a ∈ newAchievements checked ->
                           a ∉ newAchievements checked2).
Proof.
  intros Hw. split; [apply table_size|]. split; [apply table_thresholds|].
  destruct (checkAchievements_run stats w Hw) as (w' & Hrun & _ & Hstored).
  do 2 eexists. split; [exact Hrun|]. simpl.
  split; [done|]. split; [|split; [exact Hstored|]].
  - intros l Hl. unfold seenBy. rewrite Hl. done.
  - intros later w2 Hw2 Hcarry.
    destruct (checkAchievements_run later w2 Hw2) as (w2' & Hrun2 & _).
    do 2 eexists. split; [exact Hrun2|]. simpl.
    intros a Ha Ha2. apply list_elem_of_filter in Ha2 as [[Hnot _] _].
    apply Hnot, Hcarry, elem_of_app. right. by apply list_elem_of_fmap_2.
Qed.

Lemma checkAchievements_awards_witness :
  sound (pristine 0 : World UserStats)
  /\ exists checked w',
      checkAchievements (newUserStats 0 0) (pristine 0) = (Resolved checked, w')
      /\ newAchievements checked = filter (due (newUserStats 0 0)) achievementTable.
Proof.
  split; [apply pristine_sound|].
  destruct (checkAchievements_awards (newUserStats 0 0) (pristine 0) (pristine_sound 0))
    as (_ & _ & checked & w' & Hrun & Hnew & _).
  exists checked, w'. split; [exact Hrun|exact Hnew].
Defined.

(** On an object without [achievements] property the call awards every
    rule whose condition holds, whatever was awarded before, and leaves
    the object as it is. *)
Lemma checkAchievements_without_list stats w :
  sound w ->
  achievements stats = None ->
  exists checked w',
    checkAchievements stats w = (Resolved checked, w')
    /\ newAchievements checked
       = filter (fun a => condition a stats = true) achievementTable
    /\ statsAfter checked = stats.
Proof.
  intros Hw Hnone.
  destruct (checkAchievements_run stats w Hw) as (w' & Hrun & _).
  do 2 eexists. split; [exact Hrun|]. simpl. split.
  - apply list_filter_iff. intros a. unfold due. rewrite Hnone. simpl.
    split; [by intros [_ ?]|]. intros ?. split; [|done].
    apply not_elem_of_nil.
  - unfold seenBy. by rewrite Hnone.
Qed.

(** C3, at the input the handlers pass.  [getUsageInsights] builds an
    object without [achievements] property, so [checkAchievements] starts
    from an empty array at each call: creating two chats in a row in a
    pristine origin awards [chat_starter] both times. *)
Theorem checkAchievements_awards_again :
  exists first w1 second w2,
    App.recordAndCheck "totalChats" (pristine 0) = (Resolved first, w1)
    /\ App.recordAndCheck "totalChats" w1 = (Resolved second, w2)
    /\ a_id <$> first = ["chat_starter"]
    /\ a_id <$> second = ["chat_starter"].
Proof.
  do 4 eexists. split; [vm_compute; reflexivity|].
  split; [vm_compute; reflexivity|].
  split; reflexivity.
Qed.

End AchievementClaims.

(** ** embeddingService.js *)

Module EmbeddingService.
Import IndexedDBService.

#[global] Instance Rle_decision (x y : R) : Decision (x <= y)%R := Rle_dec x y.
#[global] Instance Rlt_decision (x y : R) : Decision (x < y)%R := Rlt_dec x y.
#[global] Instance Rgt_decision (x y : R) : Decision (x > y)%R := Rgt_dec x y.
#[global] Instance Req_decision : EqDecision R := Req_dec_T.

(** The records of the [embeddings] store. *)
Record EmbeddingRecord := {
  id : string;
  chatId : string;
  messageId : string;
  text : string;
  embedding : list R;
  timestamp : Z;
}.

#[global] Instance EmbeddingRecord_keyPath : KeyPath EmbeddingRecord :=
  fun record => Some (id record).

#[global] Instance EmbeddingRecord_messageIdPath : MessageIdPath EmbeddingRecord :=
  fun record => Some (StringKey (messageId record)).

Abbreviation Async := (IndexedDBService.Async EmbeddingRecord).

(** [getEmbeddingsByChat] (indexedDBService.js): the records the [chatId]
    index holds for [chatId], which come in the order of their keys. *)
Definition getEmbeddingsByChat (chatId : string) : Async (list EmbeddingRecord) :=
  await initDB (fun _ =>
    transaction (STORES EMBEDDINGS) (fun store =>
      (Resolved
         (List.filter (fun record => Js.str_eq (EmbeddingService.chatId record) chatId)
            (snd <$> Js.sort (fun a b => String.leb a.1 b.1) (map_to_list store))),
       store))).

(** The fields of [SimpleEmbeddingService]. *)
Record SimpleEmbeddingService := {
  vocabulary : list (string * Z);
  idfScores : list (string * R);
  documentCount : Z;
}.

Definition constructor : SimpleEmbeddingService :=
  {| vocabulary := []; idfScores := []; documentCount := 0 |}.

(** [.replace(/[^\w\s]/g, ' ')] *)
Definition blankPunctuation (l : list ascii) : list ascii :=
  (fun c => if Js.isWordChar c || Js.isWhiteSpace c then c else " "%char) <$> l.

Definition tokenize (text : string) : list string :=
  List.filter (fun token => bool_decide (Js.len (Js.chars token) > 2))
    (Js.str <$> Js.splitWhiteSpace
                  (blankPunctuation (Js.toLowerCase (Js.chars text)))).

Definition calculateTF (tokens : list string) : list (string * R) :=
  let totalTokens := Js.len tokens in
  let tf :=
    foldl (fun tf token => Js.mapSet tf token (default 0 (Js.mapGet tf token) + 1))
          [] tokens in
  (fun entry : string * Z => (entry.1, (IZR entry.2 / IZR totalTokens)%R)) <$> tf.

(** [new Set(tokens)], in the order of first occurrence. *)
Definition uniqueTokens (tokens : list string) : list string :=
  foldl (fun seen token => if bool_decide (token ∈ seen) then seen else seen ++ [token])
        [] tokens.

Definition updateIDF (tokens : list string) (this : SimpleEmbeddingService)
    : SimpleEmbeddingService :=
  let vocabulary :=
    foldl (fun vocabulary token =>
             let vocabulary :=
               if negb (Js.mapHas vocabulary token) then Js.mapSet vocabulary token 0
               else vocabulary in
             Js.mapSet vocabulary token (default 0 (Js.mapGet vocabulary token) + 1))
          (vocabulary this) (uniqueTokens tokens) in
  let documentCount := documentCount this + 1 in
  let idfScores :=
    foldl (fun idfScores entry =>
             Js.mapSet idfScores entry.1 (ln (IZR documentCount / IZR entry.2)))
          (idfScores this) vocabulary in
  {| vocabulary := vocabulary; idfScores := idfScores; documentCount := documentCount |}.

Definition generateEmbedding (this : SimpleEmbeddingService) (text : string) : list R :=
  let tokens := tokenize text in
  let tf := calculateTF tokens in
  let topTokens := take 100 (fst <$> vocabulary this) in
  let embedding :=
    (fun token =>
       let tfScore := default 0%R (Js.mapGet tf token) in
       let idfScore := default 0%R (Js.mapGet (idfScores this) token) in
       (tfScore * idfScore)%R) <$> topTokens in
  let embedding := embedding ++ replicate (100 - length embedding) 0%R in
  take 100 embedding.

(** The sums of the loop of [cosineSimilarity]. *)
Record Sums := { dotProduct : R; norm1 : R; norm2 : R }.

Definition accumulate (sums : Sums) (pair : R * R) : Sums :=
  let '(x, y) := pair in
  {| dotProduct := dotProduct sums + x * y;
     norm1 := norm1 sums + x * x;
     norm2 := norm2 sums + y * y |}%R.

(** Where [cosineSimilarity] returns from: one of the two early [return 0],
    or the final division, with its two operands. *)
Inductive Exit :=
  | LengthsDiffer
  | ZeroNorm
  | Division (numerator denominator : R).

Definition cosineExit (vec1 vec2 : list R) : Exit :=
  if bool_decide (length vec1 <> length vec2) then LengthsDiffer
  else
    let sums := foldl accumulate {| dotProduct := 0; norm1 := 0; norm2 := 0 |}
                  (zip vec1 vec2) in
    if bool_decide (norm1 sums = 0%R \/ norm2 sums = 0%R) then ZeroNorm
    else Division (dotProduct sums) (sqrt (norm1 sums) * sqrt (norm2 sums))%R.

Definition cosineSimilarity (vec1 vec2 : list R) : R :=
  match cosineExit vec1 vec2 with
  | LengthsDiffer => 0
  | ZeroNorm => 0
  | Division numerator denominator => numerator / denominator
  end%R.

(** A stored record with its score: [{ ...embedding, similarity }]. *)
Record SearchResult := {
  record : EmbeddingRecord;
  similarity : R;
}.

Definition semanticSearch (service : SimpleEmbeddingService)
    (query : option string) (chatId : option string) (limit : Z)
    : Async (list SearchResult) :=
  tryCatch
    (match query with
     | None => resolve []
     | Some query =>
         if bool_decide (Js.len (Js.chars query) < 3) then resolve []
         else
           let queryEmbedding := generateEmbedding service query in
           await
             (match chatId with
              | Some chatId =>
                  if bool_decide (chatId = "") then resolve []
                  else getEmbeddingsByChat chatId
              | None => resolve []
              end)
             (fun embeddings =>
                let results :=
                  (fun embedding =>
                     {| record := embedding;
                        similarity :=
                          cosineSimilarity queryEmbedding
                            (EmbeddingService.embedding embedding) |})
                  <$> embeddings in
                resolve
                  (Js.slice0
                     (Js.sort (fun a b => bool_decide (similarity b - similarity a <= 0)%R)
                        (List.filter (fun result => bool_decide (similarity result > 0.1)%R)
                           results))
                     limit))
     end)
    (fun error => resolve []).

(** [getRelatedMessages]: the stored messages of the chat most similar to
    the given one, the message itself left out. *)
Definition getRelatedMessages (service : SimpleEmbeddingService)
    (messageText : string) (chatId : string) (limit : Z)
    : Async (list SearchResult) :=
  tryCatch
    (let messageEmbedding := generateEmbedding service messageText in
     await (getEmbeddingsByChat chatId) (fun chatEmbeddings =>
       let results :=
         Js.slice0
           (Js.sort (fun a b => bool_decide (similarity b - similarity a <= 0)%R)
              (List.filter
                 (fun result =>
                    bool_decide (similarity result > 0.2)%R
                    && negb (Js.str_eq (text (record result)) messageText))
                 ((fun embedding =>
                     {| record := embedding;
                        similarity :=
                          cosineSimilarity messageEmbedding
                            (EmbeddingService.embedding embedding) |})
                  <$> chatEmbeddings)))
           limit in
       resolve results))
    (fun error => resolve []).

(** The result of [analyzeSentiment]. *)
Record Sentiment := {
  sentiment : string;
  confidence : R;
  positiveScore : Z;
  negativeScore : Z;
  totalScore : Z;
}.

Definition positiveWords : list string :=
  [ "good"; "great"; "excellent"; "amazing"; "wonderful"; "fantastic"; "awesome";
    "love"; "like"; "enjoy"; "happy"; "pleased"; "satisfied"; "perfect";
    "brilliant"; "outstanding"; "superb"; "marvelous"; "terrific" ].

Definition negativeWords : list string :=
  [ "bad"; "terrible"; "awful"; "horrible"; "hate"; "dislike"; "angry";
    "frustrated"; "disappointed"; "sad"; "upset"; "annoyed"; "irritated";
    "disgusted"; "furious"; "miserable"; "depressed"; "worried"; "concerned" ].

(** One turn of [for (const word of words)], on the pair
    [(positiveScore, negativeScore)]. *)
Definition scoreWord (scores : Z * Z) (word : string) : Z * Z :=
  let '(positiveScore, negativeScore) := scores in
  if bool_decide (word ∈ positiveWords) then (positiveScore + 1, negativeScore)
  else if bool_decide (word ∈ negativeWords) then (positiveScore, negativeScore + 1)
  else scores.

Definition analyzeSentiment (text : string) : Sentiment :=
  let words := Js.str <$> Js.splitWhiteSpace (Js.toLowerCase (Js.chars text)) in
  let '(positiveScore, negativeScore) := foldl scoreWord (0, 0) words in
  let totalScore := positiveScore - negativeScore in
  let result (sentiment : string) (confidence : R) :=
    {| sentiment := sentiment; confidence := confidence;
       positiveScore := positiveScore; negativeScore := negativeScore;
       totalScore := totalScore |} in
  if bool_decide (totalScore > 0) then
    result "positive" (Rmin 0.9 (0.5 + IZR totalScore * 0.1))
  else if bool_decide (totalScore < 0) then
    result "negative" (Rmin 0.9 (0.5 + IZR (Z.abs totalScore) * 0.1))
  else result "neutral" 0.5%R.

(** An entry of the result of [extractTopics]. *)
Record Topic := {
  topic : string;
  score : R;
  frequency : Z;
}.

Definition stopWords : list string :=
  [ "the"; "a"; "an"; "and"; "or"; "but"; "in"; "on"; "at"; "to"; "for";
    "of"; "with"; "by"; "is"; "are"; "was"; "were"; "be"; "been"; "have";
    "has"; "had"; "do"; "does"; "did"; "will"; "would"; "could"; "should";
    "may"; "might"; "must"; "can"; "this"; "that"; "these"; "those"; "i";
    "you"; "he"; "she"; "it"; "we"; "they"; "me"; "him"; "her"; "us"; "them" ].

Definition extractTopics (text : string) : list Topic :=
  let tokens := tokenize text in
  let frequency :=
    foldl (fun frequency token =>
             if negb (bool_decide (token ∈ stopWords))
                && bool_decide (Js.len (Js.chars token) > 3)
             then Js.mapSet frequency token (default 0 (Js.mapGet frequency token) + 1)
             else frequency)
          [] tokens in
  (fun entry : string * Z =>
     {| topic := entry.1;
        score := (IZR entry.2 / IZR (Js.len tokens))%R;
        frequency := entry.2 |})
  <$> Js.slice0 (Js.sort (fun a b => bool_decide (b.2 - a.2 <= 0)) frequency) 5.

End EmbeddingService.

(** ** Cosine similarity *)

Section Cosine.
Import EmbeddingService.
Local Open Scope R_scope.
Implicit Types (vec : list R).

(** The squared Euclidean norm, and the dot product over the common
    prefix. *)
Fixpoint squaredNorm vec : R :=
  match vec with
  | [] => 0
  | x :: vec' => x * x + squaredNorm vec'
  end.

Fixpoint dot (vec1 vec2 : list R) : R :=
  match vec1, vec2 with
  | x :: vec1', y :: vec2' => x * y + dot vec1' vec2'
  | _, _ => 0
  end.

Lemma squaredNorm_nonneg vec : 0 <= squaredNorm vec.
Proof. induction vec as [|x vec IH]; simpl; [lra|nra]. Qed.

(** The loop adds the three sums to what it starts from. *)
Lemma loop_sums (vec1 vec2 : list R) sums :
  length vec1 = length vec2 ->
  foldl accumulate sums (zip vec1 vec2)
  = {| dotProduct := dotProduct sums + dot vec1 vec2;
       norm1 := norm1 sums + squaredNorm vec1;
       norm2 := norm2 sums + squaredNorm vec2 |}.
Proof.
  revert vec2 sums. induction vec1 as [|x vec1 IH]; intros [|y vec2] sums Hlen;
    try discriminate Hlen.
  - destruct sums. simpl. f_equal; lra.
  - simpl. rewrite IH by (by injection Hlen). simpl. f_equal; lra.
Qed.

Lemma cosineExit_equal_lengths (vec1 vec2 : list R) :
  length vec1 = length vec2 ->
  cosineExit vec1 vec2
  = if bool_decide (squaredNorm vec1 = 0 \/ squaredNorm vec2 = 0) then ZeroNorm
    else Division (dot vec1 vec2) (sqrt (squaredNorm vec1) * sqrt (squaredNorm vec2)).
Proof.
  intros Hlen. unfold cosineExit.
  rewrite bool_decide_eq_false_2 by (intros Hne; by apply Hne).
  rewrite loop_sums by done. simpl. rewrite !Rplus_0_l. done.
Qed.

End Cosine.
(** ** The vocabulary under the embeddings *)

Section Vocabulary.
Import EmbeddingService.

(** The service once it has processed the one message ["hello world"], as
    [processChatEmbeddings] does before it embeds and stores it. *)
Definition oneMessage : SimpleEmbeddingService :=
  updateIDF (tokenize "hello world") constructor.

Lemma embedding_before :
  generateEmbedding oneMessage "hello world"
  = [1 / 2 * ln (1 / 1); 1 / 2 * ln (1 / 1)]%R ++ replicate 98 0%R.
Proof. cbv -[ln IZR Rdiv Rmult Rplus]. reflexivity. Qed.

Lemma embedding_after :
  generateEmbedding (updateIDF (tokenize "goodbye moon") oneMessage) "hello world"
  = [1 / 2 * ln (2 / 1); 1 / 2 * ln (2 / 1); 0 * ln (2 / 1); 0 * ln (2 / 1)]%R
    ++ replicate 96 0%R.
Proof. cbv -[ln IZR Rdiv Rmult Rplus]. reflexivity. Qed.

(** C6. The vector of a text depends on the vocabulary: there are a text
    and a state of the service such that, once [updateIDF] has processed
    another document, [generateEmbedding] gives the same text a different
    vector. *)
Theorem generateEmbedding_not_of_text_alone :
  exists (text other : string) (before : SimpleEmbeddingService),
    let after := updateIDF (tokenize other) before in
    other <> text
    /\ generateEmbedding before text <> generateEmbedding after text.
Proof.
  exists "hello world", "goodbye moon", oneMessage. simpl.
  split; [discriminate|].
  rewrite embedding_before, embedding_after.
  intros Heq. injection Heq as Hfirst _.
  replace (1 / 1)%R with 1%R in Hfirst by lra.
  replace (2 / 1)%R with 2%R in Hfirst by lra.
  rewrite ln_1 in Hfirst.
  pose proof ln_lt_2. lra.
Qed.

End Vocabulary.
(** ** Sorting and slicing *)

Section SortFacts.
Context {A : Type} (notAfter : A -> A -> bool).
Implicit Types (l : list A) (P : A -> Prop).

Lemma sortInsert_Forall P x l :
  P x -> Forall P l -> Forall P (Js.sortInsert notAfter x l).
Proof.
  intros Hx Hl. induction Hl as [|y l Hy Hl IH]; simpl; [by repeat constructor|].
  destruct (notAfter x y); by repeat constructor.
Qed.

Lemma sort_Forall P l : Forall P l -> Forall P (Js.sort notAfter l).
Proof.
  induction 1 as [|x l Hx Hl IH]; simpl; [constructor|].
  by apply sortInsert_Forall.
Qed.

Lemma sortInsert_length x l : length (Js.sortInsert notAfter x l) = S (length l).
Proof.
  induction l as [|y l IH]; simpl; [done|].
  destruct (notAfter x y); simpl; by rewrite ?IH.
Qed.

Lemma sort_length l : length (Js.sort notAfter l) = length l.
Proof.
  induction l as [|x l IH]; simpl; [done|]. by rewrite sortInsert_length, IH.
Qed.

(** For a comparison that is total and transitive the result is in order:
    no element comes after one it has to precede. *)
Hypothesis total : forall x y, notAfter x y = false -> notAfter y x = true.
Hypothesis transitive : forall x y z,
  notAfter x y = true -> notAfter y z = true -> notAfter x z = true.

Lemma sortInsert_sorted x l :
  StronglySorted (fun a b => notAfter a b = true) l ->
  StronglySorted (fun a b => notAfter a b = true) (Js.sortInsert notAfter x l).
Proof.
  induction 1 as [|y l Hl IH Hy]; simpl; [by repeat constructor|].
  destruct (notAfter x y) eqn:Hxy.
  - constructor; [by constructor|]. constructor; [done|].
    eapply Forall_impl; [exact Hy|]. intros z Hz. by eapply transitive.
  - constructor; [done|]. apply sortInsert_Forall; [by apply total|done].
Qed.

Lemma sort_sorted l : StronglySorted (fun a b => notAfter a b = true) (Js.sort notAfter l).
Proof.
  induction l as [|x l IH]; simpl; [constructor|]. by apply sortInsert_sorted.
Qed.

End SortFacts.

Section SliceFacts.
Context {A : Type}.
Implicit Types (l : list A).

(** [slice(0, end)] keeps a prefix. *)
Lemma slice0_prefix l stop : exists n : nat, Js.slice0 l stop = take n l.
Proof. unfold Js.slice0. case_bool_decide; by eexists. Qed.

Lemma slice0_length l stop : 0 <= stop -> Js.len (Js.slice0 l stop) <= stop.
Proof.
  intros Hstop. unfold Js.slice0, Js.len.
  rewrite bool_decide_eq_false_2 by lia. rewrite length_take. lia.
Qed.

Lemma take_StronglySorted (R : A -> A -> Prop) n l :
  StronglySorted R l -> StronglySorted R (take n l).
Proof.
  intros Hl. revert n. induction Hl as [|x l Hl IH Hx]; intros [|n]; simpl;
    try constructor; [apply IH|].
  apply Forall_take. done.
Qed.

End SliceFacts.
(** ** Semantic search *)

Section Search.
Import IndexedDBService EmbeddingService.
Implicit Types (w : World EmbeddingRecord) (service : SimpleEmbeddingService).

(** The comparison [(a, b) => b.similarity - a.similarity]. *)
Definition bySimilarity (a b : SearchResult) : bool :=
  bool_decide (similarity b - similarity a <= 0)%R.

Lemma bySimilarity_true a b :
  bySimilarity a b = true <-> (similarity a >= similarity b)%R.
Proof.
  unfold bySimilarity. rewrite bool_decide_eq_true. lra.
Qed.

Lemma bySimilarity_total a b : bySimilarity a b = false -> bySimilarity b a = true.
Proof.
  unfold bySimilarity. rewrite bool_decide_eq_false, bool_decide_eq_true. lra.
Qed.

Lemma bySimilarity_transitive a b c :
  bySimilarity a b = true -> bySimilarity b c = true -> bySimilarity a c = true.
Proof. rewrite !bySimilarity_true. lra. Qed.

(** What [semanticSearch] resolves to once the stored embeddings are read. *)
Definition ranked (queryEmbedding : list R) (embeddings : list EmbeddingRecord)
    (limit : Z) : list SearchResult :=
  Js.slice0
    (Js.sort bySimilarity
       (List.filter (fun result => bool_decide (similarity result > 0.1)%R)
          ((fun embedding =>
              {| record := embedding;
                 similarity := cosineSimilarity queryEmbedding (EmbeddingService.embedding embedding) |})
           <$> embeddings)))
    limit.

Lemma ranked_scored queryEmbedding embeddings limit :
  Forall (fun result =>
            (similarity result > 0.1)%R
            /\ similarity result
               = cosineSimilarity queryEmbedding (embedding (record result)))
         (ranked queryEmbedding embeddings limit).
Proof.
  unfold ranked.
  match goal with |- context [Js.slice0 ?l limit] =>
    destruct (slice0_prefix l limit) as [n ->] end.
  apply Forall_take, sort_Forall.
  induction embeddings as [|e embeddings IH]; simpl; [constructor|].
  case_bool_decide; [|done]. constructor; [|done]. done.
Qed.

Lemma ranked_sorted queryEmbedding embeddings limit :
  StronglySorted (fun a b => similarity a >= similarity b)%R
    (ranked queryEmbedding embeddings limit).
Proof.
  unfold ranked.
  match goal with |- context [Js.slice0 ?l limit] =>
    destruct (slice0_prefix l limit) as [n ->] end.
  apply take_StronglySorted.
  match goal with |- context [Js.sort bySimilarity ?l] =>
    pose proof (sort_sorted bySimilarity bySimilarity_total
                  bySimilarity_transitive l) as Hsorted;
    generalize dependent (Js.sort bySimilarity l) end.
  intros sorted Hsorted.
  induction Hsorted as [|a sorted _ IH Ha]; constructor; [done|].
  eapply Forall_impl; [exact Ha|]. intros b. apply bySimilarity_true.
Qed.

(** The read of the stored embeddings, as [semanticSearch] awaits it. *)
Definition readEmbeddings (chatId : option string) : Async (list EmbeddingRecord) :=
  match chatId with
  | Some chatId =>
      if bool_decide (chatId = "") then resolve [] else getEmbeddingsByChat chatId
  | None => resolve []
  end.

Lemma semanticSearch_run service query chatId limit w :
  semanticSearch service query chatId limit w
  = match query with
    | None => (Resolved [], w)
    | Some q =>
        if bool_decide (Js.len (Js.chars q) < 3) then (Resolved [], w)
        else match readEmbeddings chatId w with
             | (Resolved embeddings, w') =>
                 (Resolved (ranked (generateEmbedding service q) embeddings limit), w')
             | (Rejected e, w') => (Resolved [], w')
             end
    end.
Proof.
  unfold semanticSearch, tryCatch. destruct query as [q|]; [|done].
  case_bool_decide; [done|].
  unfold await. fold (readEmbeddings chatId).
  by destruct (readEmbeddings chatId w) as [[embeddings|e] w'].
Qed.

(** C5. [semanticSearch] always resolves (it never rejects); it resolves
    to the empty list when the query is [null] or shorter than 3 code
    units, and when the read of the stored embeddings rejects; every
    result has a similarity to the query embedding above 0.1, the results
    come in descending order of similarity, and there are at most [limit]
    of them, [limit] being a count (no list has a negative number of
    elements). *)
Theorem semanticSearch_results service query chatId limit w :
  exists results w',
    semanticSearch service query chatId limit w = (Resolved results, w')
    /\ ((query = None \/ exists q, query = Some q /\ Js.len (Js.chars q) < 3) ->
        results = [])
    /\ (forall e w1, readEmbeddings chatId w = (Rejected e, w1) -> results = [])
    /\ Forall (fun result =>
                 (similarity result > 0.1)%R
                 /\ exists q, query = Some q
                      /\ similarity result
                         = cosineSimilarity (generateEmbedding service q)
                             (embedding (record result)))
              results
    /\ StronglySorted (fun a b => similarity a >= similarity b)%R results
    /\ (0 <= limit -> Js.len results <= limit).
Proof.
  rewrite semanticSearch_run.
  assert (Hnil : forall w' : World EmbeddingRecord, exists results w'',
    (Resolved ([] : list SearchResult), w') = (Resolved results, w'')
    /\ ((query = None \/ exists q, query = Some q /\ Js.len (Js.chars q) < 3) ->
        results = [])
    /\ (forall e w1, readEmbeddings chatId w = (Rejected e, w1) -> results = [])
    /\ Forall (fun result =>
                 (similarity result > 0.1)%R
                 /\ exists q, query = Some q
                      /\ similarity result
                         = cosineSimilarity (generateEmbedding service q)
                             (embedding (record result)))
              results
    /\ StronglySorted (fun a b => similarity a >= similarity b)%R results
    /\ (0 <= limit -> Js.len results <= limit)).
  { intros w'. exists [], w'. repeat split; try done; try constructor. }
  destruct query as [q|]; [|apply Hnil].
  case_bool_decide as Hshort; [apply Hnil|].
  destruct (readEmbeddings chatId w) as [[embeddings|e] w'] eqn:Hread; [|apply Hnil].
  do 2 eexists. split; [done|].
  split; [intros [?|(q' & [= <-] & ?)]; done|].
  split; [intros e w1 [=]|].
  split.
  - eapply Forall_impl; [apply ranked_scored|].
    intros result [? ?]. split; [done|]. by exists q.
  - split; [apply ranked_sorted|]. apply slice0_length.
Qed.

End Search.
Section SearchExamples.
Import IndexedDBService EmbeddingService.

(** A vector with a non-zero entry is at similarity 1 from itself. *)
Lemma dot_self vec : dot vec vec = squaredNorm vec.
Proof. induction vec as [|x vec IH]; simpl; [done|]. by rewrite IH. Qed.

Lemma cosineSimilarity_self vec :
  squaredNorm vec <> 0%R -> cosineSimilarity vec vec = 1%R.
Proof.
  intros Hnz. unfold cosineSimilarity.
  rewrite cosineExit_equal_lengths by done.
  rewrite bool_decide_eq_false_2 by tauto.
  rewrite dot_self, sqrt_sqrt by apply squaredNorm_nonneg.
  by apply Rdiv_diag.
Qed.

(** The service after the two messages ["hello world"] and ["goodbye
    moon"], and two stored embeddings of the first message in chat ["c"]. *)
Definition twoMessages : SimpleEmbeddingService :=
  updateIDF (tokenize "goodbye moon") oneMessage.

Definition stored (key : string) (vector : list R) : EmbeddingRecord :=
  {| id := key; chatId := "c"; messageId := key; text := "hello world";
     embedding := vector; timestamp := 0 |}.

Definition twoStored (vector : list R) : World EmbeddingRecord :=
  after [Put "embeddings" (stored "c-1" vector); Put "embeddings" (stored "c-2" vector)]
        (pristine 0).

Lemma twoStored_read vector :
  exists w',
    getEmbeddingsByChat "c" (twoStored vector)
    = (Resolved [stored "c-1" vector; stored "c-2" vector], w').
Proof. eexists. vm_compute. reflexivity. Qed.

Lemma squaredNorm_head x vec : x <> 0%R -> squaredNorm (x :: vec) <> 0%R.
Proof.
  intros Hx. simpl. pose proof (squaredNorm_nonneg vec).
  assert (0 < x * x)%R by nra. lra.
Qed.

Lemma helloWorld_norm :
  squaredNorm (generateEmbedding twoMessages "hello world") <> 0%R.
Proof.
  unfold twoMessages. rewrite embedding_after.
  apply squaredNorm_head.
  replace (2 / 1)%R with 2%R by lra. pose proof ln_lt_2. lra.
Qed.

(** A limit that is not a count: [slice(0, -1)] drops the last result, so
    with two matching embeddings stored a limit of [-1] yields one result. *)
Example semanticSearch_negative_limit :
  exists results w',
    semanticSearch twoMessages (Some "hello world") (Some "c") (-1)
      (twoStored (generateEmbedding twoMessages "hello world"))
    = (Resolved results, w')
    /\ ~ (Js.len results <= -1).
Proof.
  set (vector := generateEmbedding twoMessages "hello world").
  destruct (twoStored_read vector) as [w' Hread].
  exists [ {| record := stored "c-1" vector; similarity := 1 |} ], w'.
  split; [|unfold Js.len; simpl; lia].
  rewrite semanticSearch_run.
  rewrite bool_decide_eq_false_2 by (vm_compute; discriminate).
  unfold readEmbeddings. rewrite bool_decide_eq_false_2 by discriminate.
  rewrite Hread. fold vector. f_equal.
  unfold ranked. simpl fmap. cbn [embedding stored].
  rewrite cosineSimilarity_self by apply helloWorld_norm.
  simpl List.filter. rewrite bool_decide_eq_true_2 by lra.
  simpl. unfold bySimilarity. simpl.
  rewrite bool_decide_eq_true_2 by lra.
  reflexivity.
Qed.

(** A read that rejects: the database has no [embeddings] store.  The
    search resolves to the empty list. *)
Example semanticSearch_read_rejected :
  let w : World EmbeddingRecord := {| database := Some ∅; clock := 0 |} in
  getEmbeddingsByChat "c" w = (Rejected NotFoundError, w)
  /\ semanticSearch twoMessages (Some "hello world") (Some "c") 10 w = (Resolved [], w).
Proof.
  intros w.
  assert (Hread : getEmbeddingsByChat "c" w = (Rejected NotFoundError, w))
    by (vm_compute; reflexivity).
  split; [exact Hread|].
  rewrite semanticSearch_run.
  rewrite bool_decide_eq_false_2 by (vm_compute; discriminate).
  unfold readEmbeddings. rewrite bool_decide_eq_false_2 by discriminate.
  by rewrite Hread.
Qed.

End SearchExamples.
(** ** The unique index of the embeddings store *)

Section UniqueIndex.
Import IndexedDBService EmbeddingService.




End UniqueIndex.

(** ** CodeEditor.jsx: extractCodeBlocks *)

Module CodeEditor.

Record CodeBlock := {
  language : string;
  code : string;
  fullMatch : string;
}.

(** The fence [```]. *)
Definition fence : list ascii := ["`"; "`"; "`"]%char.

Definition isNewline (c : ascii) : bool := bool_decide (Js.code c = 10%N).

(** Whether the text starts with the fence, and what follows it. *)
Definition afterFence (l : list ascii) : option (list ascii) :=
  if bool_decide (take 3 l = fence) then Some (drop 3 l) else None.

(** The leftmost fence: the text before it and the text after it. *)
Fixpoint findFence (l : list ascii) : option (list ascii * list ascii) :=
  match afterFence l with
  | Some rest => Some ([], rest)
  | None =>
      match l with
      | [] => None
      | c :: l' => (fun found => (c :: found.1, found.2)) <$> findFence l'
      end
  end.

(** [(\w+)?]: the longest run of word characters, and what follows it. *)
Fixpoint wordRun (l : list ascii) : list ascii * list ascii :=
  match l with
  | c :: l' =>
      if Js.isWordChar c then let '(run, rest) := wordRun l' in (c :: run, rest)
      else ([], l)
  | [] => ([], [])
  end.

(** [\n?]: one line feed when there is one. *)
Definition lineFeed (l : list ascii) : list ascii * list ascii :=
  match l with
  | c :: l' => if isNewline c then ([c], l') else ([], l)
  | [] => ([], [])
  end.

(** A match of [/```(\w+)?\n?([\s\S]*?)```/]: the groups [match[1]]
    ([None] when the group took no part) and [match[2]], and [match[0]]. *)
Record Match := {
  group1 : option (list ascii);
  group2 : list ascii;
  group0 : list ascii;
}.

(** [codeBlockRegex.exec(text)] on the text from [lastIndex] on: the
    leftmost match and the text after it, or [null].  The opening fence is
    the leftmost one; the tag and the line feed are taken greedily; the
    body runs up to the next fence.  Taking less of the tag or leaving the
    line feed never helps to find a closing fence, neither does starting
    further right, so when no fence follows there is no match at all. *)
Definition exec (l : list ascii) : option (Match * list ascii) :=
  '(_, opened) ← findFence l;
  let '(tag, afterTag) := wordRun opened in
  let '(newline, afterNewline) := lineFeed afterTag in
  '(body, rest) ← findFence afterNewline;
  Some ({| group1 := match tag with [] => None | _ => Some tag end;
           group2 := body;
           group0 := fence ++ tag ++ newline ++ body ++ fence |},
        rest).

(** The [while ((match = codeBlockRegex.exec(text)) !== null)] loop; every
    match takes at least the two fences, so as many turns as the text has
    code units are enough. *)
Fixpoint execLoop (turns : nat) (l : list ascii) : list CodeBlock :=
  match turns with
  | O => []
  | S turns =>
      match exec l with
      | None => []
      | Some (found, rest) =>
          {| language := match group1 found with
                         | Some tag => Js.str tag
                         | None => "text"
                         end;
             code := Js.str (Js.trim (group2 found));
             fullMatch := Js.str (group0 found) |}
          :: execLoop turns rest
      end
  end.

Definition extractCodeBlocks (text : string) : list CodeBlock :=
  execLoop (length (Js.chars text)) (Js.chars text).

End CodeEditor.

(** ** Fenced code blocks *)

Section Fences.
Import CodeEditor.
Implicit Types (l text before tag newline content rest : list ascii).

(** A fence starts at position [n] of the text. *)
Definition fenceAt text (n : nat) : Prop := take 3 (drop n text) = fence.

(** No fence starts in the text before position [n]. *)
Definition noFenceBefore text (n : nat) : Prop :=
  forall m : nat, (m < n)%nat -> ~ fenceAt text m.

(** The text holds a fenced block: an opening fence and, after it, a
    closing one. *)
Definition hasBlock text : Prop :=
  exists n m : nat, fenceAt text n /\ fenceAt text m /\ (n + 3 <= m)%nat.

(** [text] does not start with a character of the class [p]. *)
Definition notStarting (p : ascii -> bool) text : Prop :=
  match text with
  | c :: _ => p c = false
  | [] => True
  end.

(** The first block of a text as the amended claim has it: the opening
    fence is the first fence of the text; the language is the whole run of
    word characters that follows it, which may be empty and may stop short
    of the end of the line; one line feed right after that run is passed
    over; the content is everything from there up to the next fence. *)
Record FirstBlock text before tag newline content rest : Prop := {
  block_text : text = before ++ fence ++ tag ++ newline ++ content ++ fence ++ rest;
  block_opening : noFenceBefore text (length before);
  block_tag : Forall (fun c => Js.isWordChar c = true) tag;
  block_tag_whole : notStarting Js.isWordChar (newline ++ content ++ fence ++ rest);
  block_newline :
    (exists c, newline = [c] /\ isNewline c = true)
    \/ (newline = [] /\ notStarting isNewline (content ++ fence ++ rest));
  block_closing : noFenceBefore (content ++ fence ++ rest) (length content);
}.

(** The entry for a block. *)
Definition entry tag newline content : CodeBlock :=
  {| language := match tag with [] => "text" | _ => Js.str tag end;
     code := Js.str (Js.trim content);
     fullMatch := Js.str (fence ++ tag ++ newline ++ content ++ fence) |}.

(** The first fenced block of a text, read from the words of the claim:
    the opening fence is the first fence of the text; the fence's language
    tag is the rest of the fence's line; the fenced content is what lies
    between that line and the closing fence, the next fence of the
    text. *)
Record Fenced text before tag content rest : Prop := {
  fenced_text :
    text = before ++ fence ++ tag ++ ["010"%char] ++ content ++ fence ++ rest;
  fenced_opening : noFenceBefore text (length before);
  fenced_tag : Forall (fun c => isNewline c = false) tag;
  fenced_closing :
    noFenceBefore (tag ++ ["010"%char] ++ content ++ fence ++ rest)
                  (length (tag ++ ["010"%char] ++ content));
}.

(** The entry the claim gives the block. *)
Definition claimed tag content : CodeBlock :=
  {| language := match tag with [] => "text" | _ => Js.str tag end;
     code := Js.str (Js.trim content);
     fullMatch := Js.str (fence ++ tag ++ ["010"%char] ++ content ++ fence) |}.

(** The entries for the blocks of a text, in order of occurrence, each
    block being looked for after the closing fence of the one before. *)
Inductive FencedBlocks : list ascii -> list CodeBlock -> Prop :=
  | FencedBlocks_none text :
      ~ hasBlock text -> FencedBlocks text []
  | FencedBlocks_block text before tag newline content rest blocks :
      FirstBlock text before tag newline content rest ->
      FencedBlocks rest blocks ->
      FencedBlocks text (entry tag newline content :: blocks).

Lemma afterFence_Some l rest : afterFence l = Some rest <-> l = fence ++ rest.
Proof.
  unfold afterFence. case_bool_decide as Hf; split.
  - intros [= <-]. rewrite <- Hf. by rewrite take_drop.
  - intros ->. done.
  - done.
  - intros ->. by destruct Hf.
Qed.

Lemma afterFence_None l : afterFence l = None <-> ~ fenceAt l 0.
Proof.
  unfold afterFence, fenceAt. rewrite drop_0. case_bool_decide; split; done.
Qed.

Lemma fenceAt_cons c l (n : nat) : fenceAt (c :: l) (S n) <-> fenceAt l n.
Proof. done. Qed.

Lemma fenceAt_app_fence before rest : fenceAt (before ++ fence ++ rest) (length before).
Proof. unfold fenceAt. by rewrite drop_app_length. Qed.

(** A fence found past a prefix is a fence of what follows the prefix. *)
Lemma fenceAt_app prefix l (n : nat) :
  fenceAt (prefix ++ l) (length prefix + n) <-> fenceAt l n.
Proof. unfold fenceAt. by rewrite drop_app_add. Qed.

Lemma findFence_Some l before rest :
  findFence l = Some (before, rest)
  <-> l = before ++ fence ++ rest /\ noFenceBefore l (length before).
Proof.
  revert before. induction l as [|c l IH]; intros before.
  - simpl. unfold afterFence. simpl. split; [done|].
    intros [H _]. by destruct before.
  - simpl. destruct (afterFence (c :: l)) as [rest'|] eqn:Hhead.
    + apply afterFence_Some in Hhead. split.
      * intros [= <- <-]. split; [done|]. intros m Hm. simpl in Hm. lia.
      * intros [Heq Hfirst]. destruct before as [|c' before].
        { simpl in Heq. rewrite Hhead in Heq. by simplify_list_eq. }
        exfalso. apply (Hfirst 0%nat); [simpl; lia|].
        unfold fenceAt. rewrite drop_0, Hhead. done.
    + apply afterFence_None in Hhead. split.
      * destruct (findFence l) as [[before' rest']|] eqn:Hfind; [|done].
        simpl. intros [= <- <-].
        destruct (proj1 (IH before') eq_refl) as [-> Hfirst].
        split; [done|]. intros [|m] Hm; [done|].
        rewrite fenceAt_cons. apply Hfirst. simpl in Hm. lia.
      * intros [Heq Hfirst]. destruct before as [|c' before].
        { exfalso. apply Hhead. rewrite Heq. apply (fenceAt_app_fence []). }
        simpl in Heq. injection Heq as <- ->.
        rewrite (proj2 (IH before)); [done|]. split; [done|].
        intros m Hm. rewrite <- fenceAt_cons. apply Hfirst. simpl. lia.
Qed.

Lemma findFence_None l : findFence l = None <-> forall n : nat, ~ fenceAt l n.
Proof.
  induction l as [|c l IH].
  - simpl. unfold afterFence. simpl. split; [|done].
    intros _ n. unfold fenceAt. by rewrite drop_nil.
  - simpl. destruct (afterFence (c :: l)) as [rest'|] eqn:Hhead.
    + apply afterFence_Some in Hhead. split; [done|].
      intros Hno. exfalso. apply (Hno 0%nat). rewrite Hhead.
      apply (fenceAt_app_fence []).
    + apply afterFence_None in Hhead.
      destruct (findFence l) as [found|] eqn:Hfind; simpl.
      * split; [done|]. intros Hno.
        assert (Hl : forall n : nat, ~ fenceAt l n)
          by (intros n; rewrite <- fenceAt_cons; apply Hno).
        apply IH in Hl. done.
      * split; [|done]. intros _ [|n]; [done|].
        rewrite fenceAt_cons. by apply IH.
Qed.

Lemma wordRun_spec l tag rest :
  wordRun l = (tag, rest)
  <-> l = tag ++ rest
      /\ Forall (fun c => Js.isWordChar c = true) tag
      /\ notStarting Js.isWordChar rest.
Proof.
  revert tag. induction l as [|c l IH]; intros tag; simpl.
  - split.
    + intros [= <- <-]. done.
    + intros (Heq & _ & _). symmetry in Heq. by apply app_eq_nil in Heq as [-> ->].
  - destruct (Js.isWordChar c) eqn:Hc.
    + destruct (wordRun l) as [run rest'] eqn:Hrun. split.
      * intros [= <- <-]. destruct (proj1 (IH run) eq_refl) as (-> & Hall & Hnot).
        split; [done|]. split; [by constructor|done].
      * intros (Heq & Hall & Hnot). destruct tag as [|c' tag].
        { simpl in Heq. subst rest. simpl in Hnot. congruence. }
        injection Heq as <- ->. apply Forall_cons in Hall as [_ Hall].
        by pose proof (proj2 (IH tag) (conj eq_refl (conj Hall Hnot))) as [= -> ->].
    + split.
      * intros [= <- <-]. done.
      * intros (Heq & Hall & Hnot). destruct tag as [|c' tag].
        { simpl in Heq. by subst rest. }
        injection Heq as <- ->. apply Forall_cons in Hall as [Hc' _]. congruence.
Qed.

Lemma lineFeed_spec l newline rest :
  lineFeed l = (newline, rest)
  <-> l = newline ++ rest
      /\ ((exists c, newline = [c] /\ isNewline c = true)
          \/ (newline = [] /\ notStarting isNewline rest)).
Proof.
  destruct l as [|c l]; simpl.
  - split.
    + intros [= <- <-]. split; [done|]. by right.
    + intros (Heq & _). symmetry in Heq. by apply app_eq_nil in Heq as [-> ->].
  - destruct (isNewline c) eqn:Hc; split.
    + intros [= <- <-]. split; [done|]. left. by exists c.
    + intros (Heq & [(c' & -> & Hc')|[-> Hnot]]).
      * by injection Heq as <- <-.
      * simpl in Heq. subst rest. simpl in Hnot. congruence.
    + intros [= <- <-]. split; [done|]. by right.
    + intros (Heq & [(c' & -> & Hc')|[-> Hnot]]).
      * injection Heq as <- <-. congruence.
      * simpl in Heq. by subst rest.
Qed.

(** What [exec] finds is the first block of the text. *)
Lemma exec_Some l found rest :
  exec l = Some (found, rest)
  <-> exists before tag newline content,
        FirstBlock l before tag newline content rest
        /\ found = {| group1 := match tag with [] => None | _ => Some tag end;
                      group2 := content;
                      group0 := fence ++ tag ++ newline ++ content ++ fence |}.
Proof.
  unfold exec. split.
  - destruct (findFence l) as [[before opened]|] eqn:Hopen; [|done]. simpl.
    destruct (wordRun opened) as [tag afterTag] eqn:Htag.
    destruct (lineFeed afterTag) as [newline afterNewline] eqn:Hnl.
    destruct (findFence afterNewline) as [[content rest']|] eqn:Hclose; [|done].
    simpl. intros [= <- <-].
    apply findFence_Some in Hopen as [-> Hfirst].
    apply wordRun_spec in Htag as (-> & Hword & Hwhole).
    apply lineFeed_spec in Hnl as (-> & Hnewline).
    apply findFence_Some in Hclose as [-> Hclosing].
    exists before, tag, newline, content. split; [|done].
    by constructor.
  - intros (before & tag & newline & content & [Htext Hopen Hword Hwhole Hnl Hclose] & ->).
    rewrite (proj2 (findFence_Some l before
               (tag ++ newline ++ content ++ fence ++ rest))) by done.
    cbn [mbind option_bind].
    rewrite (proj2 (wordRun_spec (tag ++ newline ++ content ++ fence ++ rest)
               tag (newline ++ content ++ fence ++ rest))) by done.
    rewrite (proj2 (lineFeed_spec (newline ++ content ++ fence ++ rest)
               newline (content ++ fence ++ rest))) by done.
    rewrite (proj2 (findFence_Some (content ++ fence ++ rest) content rest)) by done.
    done.
Qed.

Lemma fenceAt_lookup l (n : nat) : fenceAt l n -> l !! n = Some "`"%char.
Proof.
  unfold fenceAt. intros Hf.
  assert (Hhead : take 3 (drop n l) !! 0%nat = Some "`"%char) by (by rewrite Hf).
  rewrite lookup_take_lt, lookup_drop in Hhead by lia.
  by rewrite Nat.add_0_r in Hhead.
Qed.

(** A fence does not start inside a tag or on the line feed after it. *)
Lemma no_fence_in_tag tag newline rest (n : nat) :
  Forall (fun c => Js.isWordChar c = true) tag ->
  (exists c, newline = [c] /\ isNewline c = true) \/ newline = [] ->
  (n < length (tag ++ newline))%nat ->
  ~ fenceAt (tag ++ newline ++ rest) n.
Proof.
  intros Hword Hnl Hn Hf. apply fenceAt_lookup in Hf.
  rewrite app_assoc, lookup_app_l in Hf by done.
  destruct (decide (n < length tag)%nat) as [Hlt|Hge].
  - rewrite lookup_app_l in Hf by done.
    rewrite Forall_lookup in Hword. by specialize (Hword _ _ Hf).
  - rewrite lookup_app_r in Hf by lia.
    destruct Hnl as [(c & -> & Hc)| ->].
    + rewrite length_app in Hn. simpl in Hn.
      replace (n - length tag)%nat with 0%nat in Hf by lia.
      injection Hf as ->. done.
    + by rewrite lookup_nil in Hf.
Qed.

Lemma FirstBlock_hasBlock l before tag newline content rest :
  FirstBlock l before tag newline content rest -> hasBlock l.
Proof.
  intros [-> _ _ _ _ _].
  exists (length before), (length (before ++ fence ++ tag ++ newline ++ content)).
  split; [apply fenceAt_app_fence|]. split.
  - replace (before ++ fence ++ tag ++ newline ++ content ++ fence ++ rest)
      with ((before ++ fence ++ tag ++ newline ++ content) ++ fence ++ rest)
      by (by rewrite <- !app_assoc).
    apply fenceAt_app_fence.
  - rewrite !length_app. simpl. lia.
Qed.

Lemma exec_None l : exec l = None <-> ~ hasBlock l.
Proof.
  split.
  - unfold exec. intros Hexec (n & m & Hn & Hm & Hnm).
    destruct (findFence l) as [[before opened]|] eqn:Hopen.
    + cbn [mbind option_bind] in Hexec.
      destruct (wordRun opened) as [tag afterTag] eqn:Htag.
      destruct (lineFeed afterTag) as [newline afterNewline] eqn:Hnl.
      apply findFence_Some in Hopen as [-> Hfirst].
      apply wordRun_spec in Htag as (-> & Hword & _).
      apply lineFeed_spec in Hnl as (-> & Hnewline).
      destruct (findFence afterNewline) as [[content rest']|] eqn:Hclose; [done|].
      rewrite findFence_None in Hclose.
      assert (length before <= n)%nat.
      { destruct (decide (length before <= n)%nat); [done|].
        exfalso. apply (Hfirst n); [lia|done]. }
      replace m with (length (before ++ fence) + (m - length before - 3))%nat in Hm
        by (rewrite length_app; simpl; lia).
      rewrite (app_assoc before), fenceAt_app in Hm.
      destruct (decide (m - length before - 3 < length (tag ++ newline))%nat)
        as [Hin|Hout].
      * eapply no_fence_in_tag; [exact Hword| |exact Hin|exact Hm].
        destruct Hnewline as [?|[? _]]; [by left|by right].
      * replace (m - length before - 3)%nat
          with (length (tag ++ newline)
                + (m - length before - 3 - length (tag ++ newline)))%nat in Hm by lia.
        rewrite (app_assoc tag), fenceAt_app in Hm. by eapply Hclose.
    + rewrite findFence_None in Hopen. by eapply Hopen.
  - intros Hno. destruct (exec l) as [[found rest]|] eqn:Hexec; [|done].
    exfalso. apply Hno.
    apply exec_Some in Hexec as (before & tag & newline & content & Hblock & _).
    by eapply FirstBlock_hasBlock.
Qed.

Lemma FirstBlock_shorter l before tag newline content rest :
  FirstBlock l before tag newline content rest -> (length rest < length l)%nat.
Proof. intros [-> _ _ _ _ _]. rewrite !length_app. simpl. lia. Qed.

(** The first block of a text is determined by the text. *)
Lemma FirstBlock_unique l before tag newline content rest
    before' tag' newline' content' rest' :
  FirstBlock l before tag newline content rest ->
  FirstBlock l before' tag' newline' content' rest' ->
  tag' = tag /\ newline' = newline /\ content' = content /\ rest' = rest.
Proof.
  intros H1 H2.
  assert (E1 : exec l = Some ({| group1 := match tag with [] => None | _ => Some tag end;
                                 group2 := content;
                                 group0 := fence ++ tag ++ newline ++ content ++ fence |},
                              rest))
    by (apply exec_Some; by exists before, tag, newline, content).
  assert (E2 : exec l = Some ({| group1 := match tag' with [] => None | _ => Some tag' end;
                                 group2 := content';
                                 group0 := fence ++ tag' ++ newline' ++ content' ++ fence |},
                              rest'))
    by (apply exec_Some; by exists before', tag', newline', content').
  rewrite E1 in E2. injection E2 as Hg1 Hg2 Hg0 Hrest.
  assert (tag' = tag) as Htag.
  { destruct tag, tag'; try done. by injection Hg1 as -> ->. }
  subst tag' content' rest'.
  apply (app_inv_head tag) in Hg0.
  rewrite !app_assoc in Hg0. apply app_inv_tail, app_inv_tail in Hg0. done.
Qed.


Lemma no_block_nil : ~ hasBlock [].
Proof. intros (n & m & Hn & _). unfold fenceAt in Hn. by rewrite drop_nil in Hn. Qed.

Lemma execLoop_step turns l rest tag newline content before :
  FirstBlock l before tag newline content rest ->
  (length l <= turns)%nat ->
  exists turns',
    turns = S turns' /\ (length rest <= turns')%nat
    /\ execLoop turns l = entry tag newline content :: execLoop turns' rest.
Proof.
  intros Hblock Hlen.
  pose proof (FirstBlock_shorter _ _ _ _ _ _ Hblock) as Hshort.
  destruct turns as [|turns']; [lia|].
  exists turns'. split; [done|]. split; [lia|].
  simpl.
  rewrite (proj2 (exec_Some l _ rest)
             (ex_intro _ before (ex_intro _ tag (ex_intro _ newline
                (ex_intro _ content (conj Hblock eq_refl)))))).
  unfold entry. simpl. by destruct tag.
Qed.

Lemma execLoop_blocks turns l blocks :
  (length l <= turns)%nat -> (FencedBlocks l blocks <-> execLoop turns l = blocks).
Proof.
  intros Hlen. split.
  - intros Hblocks. revert turns Hlen.
    induction Hblocks as [text Hno|text before tag newline content rest blocks Hfirst _ IH];
      intros turns Hlen.
    + apply exec_None in Hno. destruct turns; simpl; [done|]. by rewrite Hno.
    + destruct (execLoop_step turns text rest tag newline content before Hfirst Hlen)
        as (turns' & -> & Hrest & ->).
      by rewrite (IH turns').
  - revert l blocks Hlen. induction turns as [|turns IH]; intros l blocks Hlen.
    + simpl. intros <-. destruct l; [|simpl in Hlen; lia].
      constructor. apply no_block_nil.
    + simpl. destruct (exec l) as [[found rest]|] eqn:Hexec.
      * intros <-.
        apply exec_Some in Hexec as (before & tag & newline & content & Hfirst & ->).
        pose proof (FirstBlock_shorter _ _ _ _ _ _ Hfirst).
        replace {| language := _; code := _; fullMatch := _ |}
          with (entry tag newline content) by (unfold entry; simpl; by destruct tag).
        econstructor; [exact Hfirst|]. apply IH; [lia|done].
      * intros <-. constructor. by apply exec_None.
Qed.

(** A fenced block whose tag is made of word characters is the block the
    regular expression takes. *)
Lemma Fenced_FirstBlock text before tag content rest :
  Fenced text before tag content rest ->
  Forall (fun c => Js.isWordChar c = true) tag ->
  FirstBlock text before tag ["010"%char] content rest.
Proof.
  intros [Htext Hopening _ Hclosing] Hword.
  split; [done|done|done|done| |].
  - left. by exists "010"%char.
  - intros m Hm Hfence.
    apply (Hclosing (length (tag ++ ["010"%char]) + m)%nat).
    + rewrite !length_app in *. simpl. lia.
    + rewrite (app_assoc tag). by apply fenceAt_app.
Qed.

(** C9, as amended.  For every text, [extractCodeBlocks] returns the
    entries of its blocks, one per block and in order of occurrence, a
    block being an opening fence, the run of word characters after it (the
    language, ['text'] when the run is empty), one line feed if it comes
    next, and the content up to the next fence, which the entry holds
    trimmed; and the empty list for a text without fenced block.  So for a
    fenced block whose language tag is made of word characters the entry
    has the fence's tag as language (['text'] when there is no tag) and the
    fenced content, trimmed, as code. *)
Theorem extractCodeBlocks_fenced (text : string) :
  (forall blocks,
     FencedBlocks (Js.chars text) blocks <-> extractCodeBlocks text = blocks)
  /\ (~ hasBlock (Js.chars text) -> extractCodeBlocks text = [])
  /\ (forall before tag content rest,
        Fenced (Js.chars text) before tag content rest ->
        Forall (fun c => Js.isWordChar c = true) tag ->
        exists blocks, extractCodeBlocks text = claimed tag content :: blocks).
Proof.
  assert (Hiff : forall blocks,
            FencedBlocks (Js.chars text) blocks <-> extractCodeBlocks text = blocks)
    by (intros blocks; by apply execLoop_blocks).
  split; [exact Hiff|]. split; [intros Hno; apply Hiff; by constructor|].
  intros before tag content rest Hfenced Hword.
  apply Fenced_FirstBlock in Hfenced; [|done].
  destruct (execLoop_step (length (Js.chars text)) _ rest tag ["010"%char] content before
              Hfenced (le_n _)) as (turns' & _ & _ & Hloop).
  exists (execLoop turns' rest). exact Hloop.
Qed.

End Fences.

(** ** What trimming removes *)

Section Trim.
Implicit Types (l : list ascii).

Lemma trimStart_spec l :
  exists leading,
    l = leading ++ Js.trimStart l
    /\ Forall (fun c => Js.isWhiteSpace c = true) leading
    /\ notStarting Js.isWhiteSpace (Js.trimStart l).
Proof.
  induction l as [|c l (leading & Heq & Hws & Hnot)]; simpl.
  - by exists [].
  - destruct (Js.isWhiteSpace c) eqn:Hc.
    + exists (c :: leading). split; [simpl; by rewrite <- Heq|].
      split; [by constructor|done].
    + by exists [].
Qed.

(** [trim] leaves the text between a leading and a trailing run of white
    space, and what it leaves neither starts nor ends with white space. *)
Lemma trim_spec l :
  exists leading trailing,
    l = leading ++ Js.trim l ++ trailing
    /\ Forall (fun c => Js.isWhiteSpace c = true) leading
    /\ Forall (fun c => Js.isWhiteSpace c = true) trailing
    /\ notStarting Js.isWhiteSpace (Js.trim l)
    /\ notStarting Js.isWhiteSpace (reverse (Js.trim l)).
Proof.
  destruct (trimStart_spec l) as (leading & Hl & Hleading & Hstart).
  destruct (trimStart_spec (reverse (Js.trimStart l))) as (t & Hr & Ht & Hend).
  assert (Hmid : Js.trimStart l = Js.trim l ++ reverse t).
  { unfold Js.trim, Js.trimEnd. rewrite <- reverse_app, <- Hr.
    by rewrite reverse_involutive. }
  exists leading, (reverse t).
  split; [by rewrite <- Hmid|]. split; [done|].
  split; [by apply Forall_reverse|]. split.
  - rewrite Hmid in Hstart. by destruct (Js.trim l).
  - unfold Js.trim, Js.trimEnd. by rewrite reverse_involutive.
Qed.

End Trim.

Section FenceExamples.
Import CodeEditor.

Example extractCodeBlocks_example :
  extractCodeBlocks "Run ```js
let x = 1;
``` then ``` plain ``` and an open ```py fence"
  = [ {| language := "js"; code := "let x = 1;";
         fullMatch := "```js
let x = 1;
```" |};
      {| language := "text"; code := "plain"; fullMatch := "``` plain ```" |} ].
Proof. vm_compute. reflexivity. Qed.

(** A block fenced with the tag [c++]: by the claim its entry has the
    language [c++] and the code [int x;]; [extractCodeBlocks] returns the
    language [c] and a code that starts with [++]. *)
Lemma extractCodeBlocks_cuts_tag :
  let text := "```c++
int x;
```" in
  Fenced (Js.chars text) [] (Js.chars "c++") (Js.chars "int x;
") []
  /\ claimed (Js.chars "c++") (Js.chars "int x;
") = {| language := "c++"; code := "int x;"; fullMatch := text |}
  /\ extractCodeBlocks text
     = [ {| language := "c"; code := "++
int x;"; fullMatch := text |} ]
  /\ extractCodeBlocks text
     <> [ claimed (Js.chars "c++") (Js.chars "int x;
") ].
Proof.
  intros text.
  assert (Hcode : extractCodeBlocks text
                  = [ {| language := "c"; code := "++
int x;"; fullMatch := text |} ]) by (vm_compute; reflexivity).
  split; [|split; [vm_compute; reflexivity|split; [exact Hcode|]]].
  - split.
    + vm_compute. reflexivity.
    + intros m Hm. simpl in Hm. lia.
    + vm_compute. by repeat constructor.
    + intros m Hm. unfold fenceAt.
      do 11 (destruct m as [|m]; [vm_compute; discriminate|]).
      simpl in Hm. lia.
  - rewrite Hcode. vm_compute. discriminate.
Qed.

End FenceExamples.

(** ** Strings as sequences of code units *)

Section StringFacts.
Implicit Types (s : string) (l term : list ascii).

Lemma str_chars s : Js.str (Js.chars s) = s.
Proof. apply String.string_of_list_ascii_of_string. Qed.

Lemma chars_str l : Js.chars (Js.str l) = l.
Proof. apply String.list_ascii_of_string_of_list_ascii. Qed.

Lemma chars_app s1 s2 : Js.chars (s1 +:+ s2) = Js.chars s1 ++ Js.chars s2.
Proof.
  unfold Js.chars. induction s1 as [|c s1 IH]; simpl; [done|]. by rewrite <- IH.
Qed.

Lemma append_empty s : s +:+ "" = s.
Proof.
  induction s as [|c s IH]; [done|].
  change (String c (s +:+ "") = String c s). by rewrite IH.
Qed.

Lemma len_app {A} (l1 l2 : list A) : Js.len (l1 ++ l2) = Js.len l1 + Js.len l2.
Proof. unfold Js.len. rewrite length_app. lia. Qed.

(** [startsWith] and [includes] say what they are named after. *)
Lemma startsWith_spec l term :
  Js.startsWith l term = true <-> exists rest, l = term ++ rest.
Proof.
  revert l. induction term as [|c term IH]; intros l.
  - split; [by exists l|by destruct l].
  - destruct l as [|d l]; [split; [done|by intros [rest ?]]|].
    change (Js.startsWith (d :: l) (c :: term))
      with (bool_decide (c = d) && Js.startsWith l term).
    rewrite andb_true_iff, bool_decide_eq_true, IH. split.
    + intros [-> [rest ->]]. by exists rest.
    + intros [rest [= -> ->]]. split; [done|by exists rest].
Qed.

Lemma stringIncludes_spec l term :
  Js.stringIncludes l term = true <-> exists before rest, l = before ++ term ++ rest.
Proof.
  induction l as [|d l IH].
  - change (Js.stringIncludes [] term) with (Js.startsWith [] term || false).
    rewrite orb_false_r, startsWith_spec. split.
    + intros [rest Hl]. by exists [], rest.
    + intros (before & rest & Hl). destruct before; [by exists rest|done].
  - change (Js.stringIncludes (d :: l) term)
      with (Js.startsWith (d :: l) term || Js.stringIncludes l term).
    rewrite orb_true_iff, startsWith_spec, IH. split.
    + intros [[rest Hl]|(before & rest & ->)].
      * by exists [], rest.
      * by exists (d :: before), rest.
    + intros (before & rest & Hl). destruct before as [|b before].
      * left. by exists rest.
      * right. injection Hl as -> ->. by exists before, rest.
Qed.

(** Lower case, one code unit at a time. *)
Lemma toLowerCaseChar_idemp c :
  Js.toLowerCaseChar (Js.toLowerCaseChar c) = Js.toLowerCaseChar c.
Proof. destruct c as [[] [] [] [] [] [] [] []]; vm_compute; reflexivity. Qed.

Lemma isWhiteSpace_toLowerCaseChar c :
  Js.isWhiteSpace (Js.toLowerCaseChar c) = Js.isWhiteSpace c.
Proof. destruct c as [[] [] [] [] [] [] [] []]; vm_compute; reflexivity. Qed.

Lemma toLowerCase_idemp l : Js.toLowerCase (Js.toLowerCase l) = Js.toLowerCase l.
Proof.
  unfold Js.toLowerCase. rewrite <- list_fmap_compose.
  apply list_fmap_ext. intros _ c _. apply toLowerCaseChar_idemp.
Qed.

(** [trim] leaves nothing exactly of the strings of white space. *)
Lemma trimStart_nil l :
  Js.trimStart l = [] <-> Forall (fun c => Js.isWhiteSpace c = true) l.
Proof.
  induction l as [|c l IH]; simpl; [split; [constructor|done]|].
  destruct (Js.isWhiteSpace c) eqn:Hc.
  - rewrite IH. split; [by constructor|by inversion 1].
  - split; [done|]. inversion 1; congruence.
Qed.

Lemma trim_nil l :
  Js.trim l = [] <-> Forall (fun c => Js.isWhiteSpace c = true) l.
Proof.
  unfold Js.trim, Js.trimEnd. split.
  - intros Hnil. apply (f_equal reverse) in Hnil.
    rewrite reverse_involutive, reverse_nil in Hnil.
    destruct (trimStart_spec l) as (leading & Hl & Hleading & Hstart).
    destruct (Js.trimStart l) as [|c rest] eqn:Hts.
    + by apply trimStart_nil.
    + apply trimStart_nil in Hnil. apply Forall_reverse in Hnil.
      rewrite reverse_involutive in Hnil.
      apply Forall_cons in Hnil as [Hc _]. simpl in Hstart. congruence.
  - intros Hl. apply trimStart_nil in Hl. rewrite Hl. done.
Qed.

Lemma trim_nil_toLowerCase l :
  Js.trim (Js.toLowerCase l) = [] <-> Js.trim l = [].
Proof.
  rewrite !trim_nil. unfold Js.toLowerCase. rewrite Forall_fmap.
  apply Forall_iff. intros c. simpl. by rewrite isWhiteSpace_toLowerCaseChar.
Qed.

End StringFacts.

(** ** Titles, search and date filter of chat sessions *)

Section ChatTitles.
Import ChatLogicService.
Implicit Types (messages before rest more : list Message) (m : Message).

Lemma find_first {A} (p : A -> bool) (before : list A) x (rest : list A) :
  (forall b, b ∈ before -> p b = false) -> p x = true ->
  List.find p (before ++ x :: rest) = Some x.
Proof.
  intros Hbefore Hx. induction before as [|b before IH]; simpl; [by rewrite Hx|].
  rewrite Hbefore by left. apply IH. intros b' Hb'. apply Hbefore. by right.
Qed.

Lemma find_none {A} (p : A -> bool) (l : list A) :
  (forall b, b ∈ l -> p b = false) -> List.find p l = None.
Proof.
  intros Hl. induction l as [|b l IH]; simpl; [done|].
  rewrite Hl by left. apply IH. intros b' Hb'. apply Hl. by right.
Qed.

Lemma sender_user_false m : sender m <> "user" -> Js.str_eq (sender m) "user" = false.
Proof. intros Hm. unfold Js.str_eq. by rewrite bool_decide_eq_false_2. Qed.

(** The title made of one message's text. *)
Definition titleOf m : string :=
  Js.str (Js.substring0 (Js.chars (text m)) 30)
  +:+ (if bool_decide (Js.len (Js.chars (text m)) > 30) then "..." else "").

Lemma titleOf_length m : Js.len (Js.chars (titleOf m)) <= 33.
Proof.
  unfold titleOf. rewrite chars_app, chars_str, len_app.
  unfold Js.substring0, Js.len at 1. rewrite length_take.
  pose proof (Nat.le_min_l (Z.to_nat 30) (length (Js.chars (text m)))) as Hmin.
  revert Hmin. generalize (Nat.min (Z.to_nat 30) (length (Js.chars (text m)))).
  intros n Hn. case_bool_decide; cbn [Js.chars String.list_ascii_of_string];
    unfold Js.len; cbn [length]; lia.
Qed.

(** X2. [generateChatTitle] returns ["New Chat"] when no message has sender
    ['user'].  Otherwise the title is made of the first such message alone:
    its text when that has at most 30 code units, its first 30 code units
    followed by ["..."] when it has more; messages that come later never
    change it.  A title never has more than 33 code units, and the title
    generated for the messages of a session fresh from
    [createNewChatSession] is the title that session has. *)
Theorem generateChatTitle_first_user_message messages :
  ((forall m, m ∈ messages -> sender m <> "user") ->
   generateChatTitle messages = "New Chat")
  /\ (forall before m rest,
        messages = before ++ m :: rest ->
        (forall b, b ∈ before -> sender b <> "user") ->
        sender m = "user" ->
        (Js.len (Js.chars (text m)) <= 30 -> generateChatTitle messages = text m)
        /\ (Js.len (Js.chars (text m)) > 30 ->
            generateChatTitle messages
            = Js.str (take 30 (Js.chars (text m))) +:+ "...")
        /\ forall more, generateChatTitle (messages ++ more) = generateChatTitle messages)
  /\ Js.len (Js.chars (generateChatTitle messages)) <= 33
  /\ forall timestamp,
       generateChatTitle (ChatLogicService.messages (createNewChatSession timestamp))
       = title (createNewChatSession timestamp).
Proof.
  split; [|split; [|split]].
  - intros Hnone. unfold generateChatTitle.
    rewrite find_none; [done|]. intros b Hb. by apply sender_user_false, Hnone.
  - intros before m rest -> Hbefore Hm.
    assert (Hfirst : forall more,
      generateChatTitle ((before ++ m :: rest) ++ more) = titleOf m).
    { intros more. unfold generateChatTitle. rewrite <- app_assoc, <- app_comm_cons.
      rewrite (find_first _ before m).
      - done.
      - intros b Hb. by apply sender_user_false, Hbefore.
      - unfold Js.str_eq. by rewrite bool_decide_eq_true_2. }
    pose proof (Hfirst []) as Htitle. rewrite app_nil_r in Htitle.
    split; [|split].
    + intros Hshort. rewrite Htitle. unfold titleOf, Js.substring0.
      rewrite bool_decide_eq_false_2 by lia.
      rewrite take_ge by (unfold Js.len in Hshort; lia).
      rewrite str_chars. apply append_empty.
    + intros Hlong. rewrite Htitle. unfold titleOf, Js.substring0.
      by rewrite bool_decide_eq_true_2 by lia.
    + intros more. by rewrite Hfirst, Htitle.
  - unfold generateChatTitle.
    destruct (List.find _ messages) as [m|]; [apply titleOf_length|].
    vm_compute. discriminate.
  - intros timestamp. reflexivity.
Qed.

End ChatTitles.

Section ChatSearch.
Import ChatLogicService.
Implicit Types (sessions : list ChatSession) (session : ChatSession).

Lemma List_filter_sublist {A} (p q : A -> bool) (l : list A) :
  (forall x, p x = true -> q x = true) ->
  sublist (List.filter p l) (List.filter q l).
Proof.
  intros Hpq. induction l as [|x l IH]; simpl; [done|].
  destruct (p x) eqn:Hp.
  - rewrite (Hpq x Hp). by constructor.
  - destruct (q x); [by constructor|done].
Qed.

Lemma List_filter_all {A} (l : list A) : List.filter (fun _ => true) l = l.
Proof. induction l as [|x l IH]; simpl; by rewrite ?IH. Qed.

Lemma List_filter_idemp {A} (p : A -> bool) (l : list A) :
  List.filter p (List.filter p l) = List.filter p l.
Proof.
  induction l as [|x l IH]; simpl; [done|].
  destruct (p x) eqn:Hp; simpl; by rewrite ?Hp, IH.
Qed.

Lemma List_filter_filter {A} (p q : A -> bool) (l : list A) :
  List.filter p (List.filter q l) = List.filter (fun x => q x && p x) l.
Proof.
  induction l as [|x l IH]; simpl; [done|].
  destruct (q x) eqn:Hq; simpl; by rewrite ?IH.
Qed.

(** What a session is searched in: its title and the texts of its
    messages, in lower case. *)
Definition searched session : list (list ascii) :=
  Js.toLowerCase (Js.chars (title session))
  :: ((fun message => Js.toLowerCase (Js.chars (text message))) <$> messages session).

(** The test of the filter of [searchChatSessions]. *)
Definition matches (term : list ascii) session : bool :=
  if Js.stringIncludes (Js.toLowerCase (Js.chars (title session))) term then true
  else Js.some
         (fun message => Js.stringIncludes (Js.toLowerCase (Js.chars (text message))) term)
         (messages session).

Lemma matches_spec term session :
  matches term session = true
  <-> exists field before rest, field ∈ searched session /\ field = before ++ term ++ rest.
Proof.
  unfold matches, searched.
  destruct (Js.stringIncludes (Js.toLowerCase (Js.chars (title session))) term) eqn:Htitle.
  - apply stringIncludes_spec in Htitle as (before & rest & Htitle).
    split; [|done]. intros _. exists (Js.toLowerCase (Js.chars (title session))), before, rest.
    split; [left|done].
  - unfold Js.some. rewrite existsb_exists. split.
    + intros (message & Hin & Hm). apply stringIncludes_spec in Hm as (before & rest & Hm).
      exists (Js.toLowerCase (Js.chars (text message))), before, rest.
      split; [|done]. right. apply list_elem_of_fmap. exists message.
      split; [done|]. by apply list_elem_of_In.
    + intros (field & before & rest & Hin & Hfield).
      apply elem_of_cons in Hin as [->|Hin].
      * assert (Js.stringIncludes (Js.toLowerCase (Js.chars (title session))) term = true)
          by (apply stringIncludes_spec; eauto).
        congruence.
      * apply list_elem_of_fmap in Hin as (message & -> & Hin).
        exists message. split; [by apply list_elem_of_In|].
        apply stringIncludes_spec. eauto.
Qed.

Lemma searchChatSessions_filter sessions searchTerm :
  Js.trim (Js.chars searchTerm) <> [] ->
  searchChatSessions sessions searchTerm
  = List.filter (matches (Js.toLowerCase (Js.chars searchTerm))) sessions.
Proof.
  intros Hterm. unfold searchChatSessions. by rewrite bool_decide_eq_false_2.
Qed.

Lemma searchChatSessions_sublist sessions searchTerm :
  sublist (searchChatSessions sessions searchTerm) sessions.
Proof.
  unfold searchChatSessions. case_bool_decide; [done|].
  rewrite <- (List_filter_all sessions) at 2. by apply List_filter_sublist.
Qed.

(** X3. [searchChatSessions] returns every session when the term is blank
    (empty or white space only).  For any other term it keeps, in their
    order, exactly the sessions whose title or one of whose message texts
    contains the term as typed, white space included, when both are taken
    in lower case; so two terms that differ only in case find the same
    sessions.  Searching the result again with the same term changes
    nothing. *)
Theorem searchChatSessions_matches sessions searchTerm :
  (Js.trim (Js.chars searchTerm) = [] -> searchChatSessions sessions searchTerm = sessions)
  /\ (Js.trim (Js.chars searchTerm) <> [] ->
      sublist (searchChatSessions sessions searchTerm) sessions
      /\ forall session,
           session ∈ searchChatSessions sessions searchTerm
           <-> session ∈ sessions
               /\ exists field before rest,
                    field ∈ searched session
                    /\ field = before ++ Js.toLowerCase (Js.chars searchTerm) ++ rest)
  /\ (forall other,
        Js.toLowerCase (Js.chars other) = Js.toLowerCase (Js.chars searchTerm) ->
        searchChatSessions sessions other = searchChatSessions sessions searchTerm)
  /\ searchChatSessions (searchChatSessions sessions searchTerm) searchTerm
     = searchChatSessions sessions searchTerm.
Proof.
  split; [|split; [|split]].
  - intros Hblank. unfold searchChatSessions. by rewrite bool_decide_eq_true_2.
  - intros Hterm. split; [apply searchChatSessions_sublist|].
    intros session. rewrite searchChatSessions_filter by done.
    rewrite list_elem_of_In, filter_In, <- list_elem_of_In. by rewrite matches_spec.
  - intros other Hother. unfold searchChatSessions. rewrite Hother.
    assert (Hblank : Js.trim (Js.chars other) = [] <-> Js.trim (Js.chars searchTerm) = []).
    { by rewrite <- (trim_nil_toLowerCase (Js.chars other)), Hother, trim_nil_toLowerCase. }
    do 2 case_bool_decide; tauto.
  - unfold searchChatSessions. case_bool_decide; [done|]. apply List_filter_idemp.
Qed.

(** X4. [filterChatSessionsByDate] keeps, in their order, exactly the
    sessions last updated at or after the cut-off [now - daysAgo] days; a
    longer period keeps everything a shorter one keeps, and filtering twice
    is filtering once with the shorter of the two periods. *)
Theorem filterChatSessionsByDate_periods now sessions daysAgo :
  sublist (filterChatSessionsByDate now sessions daysAgo) sessions
  /\ (forall session,
        session ∈ filterChatSessionsByDate now sessions daysAgo
        <-> session ∈ sessions /\ now - lastUpdatedAt session <= daysAgo * 86400000)
  /\ (forall longer, daysAgo <= longer ->
        sublist (filterChatSessionsByDate now sessions daysAgo)
                (filterChatSessionsByDate now sessions longer))
  /\ forall other,
       filterChatSessionsByDate now (filterChatSessionsByDate now sessions other) daysAgo
       = filterChatSessionsByDate now sessions (Z.min daysAgo other).
Proof.
  unfold filterChatSessionsByDate. split; [|split; [|split]].
  - rewrite <- (List_filter_all sessions) at 2. by apply List_filter_sublist.
  - intros session. rewrite list_elem_of_In, filter_In, <- list_elem_of_In.
    rewrite bool_decide_eq_true. split; intros [? ?]; split; (done || lia).
  - intros longer Hlonger. apply List_filter_sublist. intros session.
    rewrite !bool_decide_eq_true. lia.
  - intros other. rewrite List_filter_filter. apply filter_ext. intros session.
    apply eq_true_iff_eq. rewrite andb_true_iff, !bool_decide_eq_true. lia.
Qed.

End ChatSearch.

(** ** Listing a store *)

Section KeyOrder.



End KeyOrder.

Section SortPermutation.
Context {A : Type} (notAfter : A -> A -> bool).

Lemma sortInsert_Permutation x (l : list A) : Js.sortInsert notAfter x l ≡ₚ x :: l.
Proof.
  induction l as [|y l IH]; simpl; [done|].
  destruct (notAfter x y); [done|]. rewrite IH. apply Permutation_swap.
Qed.

Lemma sort_Permutation (l : list A) : Js.sort notAfter l ≡ₚ l.
Proof.
  induction l as [|x l IH]; simpl; [done|].
  rewrite sortInsert_Permutation. by rewrite IH.
Qed.

End SortPermutation.

Section Listing.
Import IndexedDBService.
Context {Item : Type} `{!KeyPath Item} `{!MessageIdPath Item}.
Implicit Types (w : World Item) (store : gmap string Item) (item other : Item)
  (name k : string).

(** The entries of a store in the order of their keys. *)
Definition entries store : list (string * Item) :=
  Js.sort (fun a b => String.leb a.1 b.1) (map_to_list store).

Lemma getAll_entries store : getAll store = snd <$> entries store.
Proof. done. Qed.

Lemma entries_elem store k item : (k, item) ∈ entries store <-> store !! k = Some item.
Proof.
  unfold entries. rewrite sort_Permutation. apply elem_of_map_to_list.
Qed.



Lemma getAll_elem store item :
  item ∈ getAll store <-> exists k, store !! k = Some item.
Proof.
  rewrite getAll_entries, list_elem_of_fmap. split.
  - intros ([k item'] & -> & Hin). exists k. by apply entries_elem.
  - intros [k Hk]. exists (k, item). split; [done|]. by apply entries_elem.
Qed.

Lemma getAll_length store : length (getAll store) = size store.
Proof.
  rewrite getAll_entries, length_fmap. unfold entries.
  rewrite sort_length. apply length_map_to_list.
Qed.


Lemma getAllFromStore_read w name store :
  opened w !! name = Some store ->
  getAllFromStore name w = (Resolved (getAll store), withDatabase w (opened w)).
Proof.
  intros Hs. unfold getAllFromStore, await. rewrite initDB_opened.
  unfold transaction, withDatabase. simpl. rewrite Hs. by rewrite insert_id.
Qed.



Lemma StronglySorted_fmap {B C} (f : B -> C) (R : C -> C -> Prop) (l : list B) :
  StronglySorted (fun a b => R (f a) (f b)) l -> StronglySorted R (f <$> l).
Proof.
  induction 1 as [|x l Hl IH Hx]; simpl; constructor; [done|].
  by apply Forall_fmap.
Qed.

Lemma StronglySorted_weaken {B} (R R' : B -> B -> Prop) (l : list B) :
  (forall a b, R a b -> R' a b) -> StronglySorted R l -> StronglySorted R' l.
Proof.
  intros HR. induction 1 as [|x l Hl IH Hx]; constructor; [done|].
  eapply Forall_impl; [exact Hx|]. intros y. apply HR.
Qed.







End Listing.


(** ** Deleting a chat from the sidebar *)

Section DeleteChat.
Import IndexedDBService ChatLogicService ChatSessionStore AppChats.
Implicit Types (w : World ChatSession) (state : ChatState) (del : string).

Lemma idAt_in (l : list ChatSession) i :
  0 <= i < Js.len l -> exists s, idAt l i = Some (id s) /\ s ∈ l.
Proof.
  intros Hi. unfold idAt, Js.index. rewrite bool_decide_eq_true_2 by lia.
  destruct (lookup_lt_is_Some_2 l (Z.to_nat i)) as [s Hs]; [unfold Js.len in Hi; lia|].
  exists s. rewrite Hs. split; [done|]. by eapply list_elem_of_lookup_2.
Qed.

Lemma survivors_elem del (sessions : list ChatSession) s :
  s ∈ survivors del sessions <-> s ∈ sessions /\ id s <> del.
Proof. unfold survivors. rewrite list_elem_of_filter. tauto. Qed.

(** What the handler gets from [calculateNextStateAfterDeletion]. *)
Lemma calculateNextStateAfterDeletion_next (sessions : list ChatSession) del act :
  exists next,
    calculateNextStateAfterDeletion sessions del act = Some next
    /\ updatedSessions next = survivors del sessions
    /\ (newActiveSessionId next = None <-> updatedSessions next = [])
    /\ (forall a, newActiveSessionId next = Some a ->
          exists s, s ∈ updatedSessions next /\ id s = a)
    /\ (forall a, act = Some a -> a <> del ->
          (exists s, s ∈ sessions /\ id s = a) -> newActiveSessionId next = Some a).
Proof.
  unfold calculateNextStateAfterDeletion. rewrite updated_is_survivors.
  set (upd := survivors del sessions).
  set (idx := Js.findIndex _ sessions).
  assert (Hkept : forall a, a <> del -> (exists s, s ∈ sessions /\ id s = a) ->
            exists s, s ∈ upd /\ id s = a).
  { intros a Ha (s & Hin & Hs). exists s. split; [|done].
    apply survivors_elem. split; [done|congruence]. }
  destruct (decide (upd = [])) as [Hemp|Hne].
  - rewrite (bool_decide_eq_true_2 (Js.len upd = 0)) by (by apply len_zero).
    exists {| updatedSessions := upd; newActiveSessionId := None |}.
    split; [by repeat case_bool_decide|]. simpl.
    repeat split; try done.
    intros a _ Ha Hin. destruct (Hkept a Ha Hin) as (s & Hs & _).
    rewrite Hemp in Hs. by apply elem_of_nil in Hs.
  - rewrite (bool_decide_eq_false_2 (Js.len upd = 0)) by (by rewrite len_zero).
    assert (Hlen : 0 < Js.len upd).
    { destruct upd; [done|]. unfold Js.len. simpl. lia. }
    assert (Hpick : forall i, 0 <= i < Js.len upd ->
      exists next,
        (a ← idAt upd i;
         Some {| updatedSessions := upd; newActiveSessionId := Some a |}) = Some next
        /\ updatedSessions next = upd
        /\ (newActiveSessionId next = None <-> updatedSessions next = [])
        /\ (forall a, newActiveSessionId next = Some a ->
              exists s, s ∈ updatedSessions next /\ id s = a)).
    { intros i Hi. destruct (idAt_in upd i Hi) as (s & -> & Hin).
      eexists. split; [done|]. simpl. repeat split; try done.
      intros a [= <-]. by exists s. }
    assert (Hother : forall i, 0 <= i < Js.len upd -> act <> Some del ->
      (forall a, act = Some a -> ~ exists s, s ∈ upd /\ id s = a) ->
      exists next,
        (a ← idAt upd i;
         Some {| updatedSessions := upd; newActiveSessionId := Some a |}) = Some next
        /\ updatedSessions next = upd
        /\ (newActiveSessionId next = None <-> updatedSessions next = [])
        /\ (forall a, newActiveSessionId next = Some a ->
              exists s, s ∈ updatedSessions next /\ id s = a)
        /\ (forall a, act = Some a -> a <> del ->
              (exists s, s ∈ sessions /\ id s = a) -> newActiveSessionId next = Some a)).
    { intros i Hi Hact Hgone. destruct (Hpick i Hi) as (next & ? & ? & ? & ?).
      exists next. repeat split; try done; try tauto.
      intros a Ha Hdel Hin. destruct (Hgone a Ha). by apply Hkept. }
    case_bool_decide as Hact.
    + assert (exists i, 0 <= i < Js.len upd /\
                (if bool_decide (idx >= 0) then
                   if bool_decide (idx < Js.len upd) then
                     a ← idAt upd idx;
                     Some {| updatedSessions := upd; newActiveSessionId := Some a |}
                   else
                     a ← idAt upd (Js.len upd - 1);
                     Some {| updatedSessions := upd; newActiveSessionId := Some a |}
                 else
                   a ← idAt upd 0;
                   Some {| updatedSessions := upd; newActiveSessionId := Some a |})
                = (a ← idAt upd i;
                   Some {| updatedSessions := upd; newActiveSessionId := Some a |}))
        as (i & Hi & ->).
      { repeat case_bool_decide; eexists; (split; [|reflexivity]); lia. }
      destruct (Hpick i Hi) as (next & ? & ? & ? & ?).
      exists next. repeat split; try done; try tauto.
      intros a Ha Hdel. congruence.
    + destruct act as [active|].
      * destruct (Js.some _ upd) eqn:Hsome; simpl.
        -- eexists. split; [done|]. simpl. repeat split; try done.
           intros a [= <-]. apply some_true in Hsome as (s & Hin & Hs).
           exists s. split; [done|].
           unfold Js.str_eq in Hs. by apply bool_decide_eq_true_1 in Hs.
        -- apply (Hother 0); [lia|done|].
           intros a [= <-] (s & Hin & Hs).
           assert (Js.some (fun s0 => Js.str_eq (id s0) active) upd = true); [|congruence].
           unfold Js.some. apply existsb_exists. exists s.
           split; [by apply list_elem_of_In|].
           unfold Js.str_eq. by apply bool_decide_eq_true_2.
      * apply (Hother 0); [lia|done|]. intros a [=].
Qed.

(** The sidebar and the store hold sessions of the same ids. *)
Definition inStep state w : Prop :=
  exists items w',
    getChatSessions w = (Resolved items, w')
    /\ forall k, (exists s, s ∈ chatSessions state /\ id s = k)
                 <-> (exists s, s ∈ items /\ id s = k).

(** X6. In a world where every store exists and every record sits under
    its own key, [handleDeleteChat] resolves (it never rejects).  The
    sessions of the new state are the old ones without those of the deleted
    id, and [getChatSessions] afterwards lists the stored sessions without
    those of that id, so a sidebar in step with the store stays in step.
    The new active id is [null] exactly when no session is left and
    otherwise names a session of the new state; an active session other
    than the deleted one stays active. *)
Theorem handleDeleteChat_deletes w state del :
  sound w ->
  exists state' w',
    handleDeleteChat del state w = (Resolved state', w')
    /\ sound w'
    /\ chatSessions state' = filter (fun s => id s <> del) (chatSessions state)
    /\ (exists items items',
          (getChatSessions w).1 = Resolved items
          /\ getChatSessions w' = (Resolved items', w')
          /\ forall s, s ∈ items' <-> s ∈ items /\ id s <> del)
    /\ (activeChatSessionId state' = None <-> chatSessions state' = [])
    /\ (forall a, activeChatSessionId state' = Some a ->
          exists s, s ∈ chatSessions state' /\ id s = a)
    /\ (forall a, activeChatSessionId state = Some a -> a <> del ->
          (exists s, s ∈ chatSessions state /\ id s = a) ->
          activeChatSessionId state' = Some a)
    /\ (inStep state w -> inStep state' w').
Proof.
  intros Hw. pose proof Hw as [Hc Hkeyed].
  destruct (Hc CHAT_SESSIONS) as [store Hs].
  destruct (calculateNextStateAfterDeletion_next (chatSessions state) del
              (activeChatSessionId state))
    as (next & Hnext & Hupd & Hnull & Hvalid & Hstay).
  set (w' := withDatabase w (<[STORES CHAT_SESSIONS := delete del store]> (opened w))).
  assert (Hw' : perform (Delete (STORES CHAT_SESSIONS) del) w = w').
  { simpl. by rewrite (deleteFromStore_removed w _ store). }
  assert (Hread : getChatSessions w = (Resolved (getAll store), withDatabase w (opened w))).
  { unfold getChatSessions. by apply getAllFromStore_read. }
  assert (Hread' : getChatSessions w' = (Resolved (getAll (delete del store)), w')).
  { unfold getChatSessions.
    rewrite (getAllFromStore_read w' _ (delete del store))
      by (unfold w'; rewrite opened_withDatabase; apply lookup_insert_eq).
    done. }
  assert (Hitems : forall s, s ∈ getAll (delete del store)
                             <-> s ∈ getAll store /\ id s <> del).
  { intros s. rewrite !getAll_elem. split.
    - intros [k Hk]. apply lookup_delete_Some in Hk as [Hne Hk].
      split; [by exists k|].
      pose proof (Hkeyed _ _ _ _ Hs Hk) as Hkey.
      change (Some (id s) = Some k) in Hkey. congruence.
    - intros [[k Hk] Hne]. exists k. apply lookup_delete_Some. split; [|done].
      pose proof (Hkeyed _ _ _ _ Hs Hk) as Hkey.
      change (Some (id s) = Some k) in Hkey. congruence. }
  exists {| chatSessions := updatedSessions next;
            activeChatSessionId := newActiveSessionId next |}, w'.
  split.
  { unfold handleDeleteChat. rewrite Hnext. unfold tryCatch, await, deleteChatSession.
    by rewrite (deleteFromStore_removed w _ store). }
  split; [rewrite <- Hw'; by apply perform_sound|].
  split; [exact Hupd|].
  split.
  { exists (getAll store), (getAll (delete del store)).
    split; [by rewrite Hread|]. split; [exact Hread'|exact Hitems]. }
  split; [exact Hnull|]. split; [exact Hvalid|]. split; [exact Hstay|].
  intros (items & w1 & Hitems1 & Hstep).
  rewrite Hread in Hitems1. injection Hitems1 as <- _.
  exists (getAll (delete del store)), w'. split; [exact Hread'|].
  intros k. simpl. rewrite Hupd. split.
  - intros (s & Hin & Hk). apply survivors_elem in Hin as [Hin Hne].
    destruct (proj1 (Hstep k)) as (s' & Hin' & Hk'); [by exists s|].
    exists s'. split; [|done]. apply Hitems. split; [done|congruence].
  - intros (s & Hin & Hk). apply Hitems in Hin as [Hin Hne].
    destruct (proj2 (Hstep k)) as (s' & Hin' & Hk'); [by exists s|].
    exists s'. split; [|done]. apply survivors_elem. split; [done|congruence].
Qed.

End DeleteChat.

Lemma handleDeleteChat_deletes_witness :
  sound (pristine 0 : IndexedDBService.World ChatLogicService.ChatSession)
  /\ exists state' w',
       AppChats.handleDeleteChat "0"
         {| AppChats.chatSessions := [ChatLogicService.createNewChatSession 0];
            AppChats.activeChatSessionId := Some "0" |}
         (pristine 0)
       = (IndexedDBService.Resolved state', w')
       /\ AppChats.activeChatSessionId state' = None.
Proof.
  split; [apply pristine_sound|].
  destruct (handleDeleteChat_deletes (pristine 0)
              {| AppChats.chatSessions := [ChatLogicService.createNewChatSession 0];
                 AppChats.activeChatSessionId := Some "0" |}
              "0" (pristine_sound 0))
    as (state' & w' & Hrun & _ & Hsessions & _ & Hnull & _).
  exists state', w'. split; [exact Hrun|].
  apply Hnull. rewrite Hsessions. reflexivity.
Defined.

(** ** The statistics record over several calls *)

Section StatsCalls.
Import IndexedDBService StatsService.
Implicit Types (w : World UserStats) (stats updates : UserStats) (t : Z).

(** The same origin when the clock reads [t]. *)
Definition atTime t w : World UserStats := {| database := database w; clock := t |}.

Lemma opened_atTime t w : opened (atTime t w) = opened w.
Proof. done. Qed.

Lemma sound_atTime t w : sound w -> sound (atTime t w).
Proof. done. Qed.

Lemma storedStats_atTime t w : storedStats (atTime t w) = storedStats w.
Proof. done. Qed.

Lemma sound_withStats w k item :
  sound w -> id item = Some k -> sound (withStats w k item).
Proof.
  intros Hw Hk. destruct (proj1 Hw USER_STATS) as [store Hs].
  pose proof (perform_sound (Put (STORES USER_STATS) item) w Hw) as Hsound.
  unfold perform in Hsound.
  rewrite (putInStore_stored w _ store item k) in Hsound
    by (done || by apply (clash_other_stores USER_STATS)).
  unfold withStats. by rewrite Hs.
Qed.

(** A world that holds a record stays as it is when a call obtains its
    statistics: nothing is written. *)
Lemma started_stored w stats :
  storedStats w = Some stats -> database w <> None -> started w = w.
Proof.
  intros Hst Hdb. unfold started. rewrite Hst.
  destruct w as [[d|] c]; [done|by destruct Hdb].
Qed.

Lemma database_started w : database (started w) <> None.
Proof. unfold started. by destruct (storedStats w). Qed.

Lemma database_withStats w k item : database (withStats w k item) <> None.
Proof. done. Qed.

(** X7. In a world where every store exists and every record sits under
    its own key, [initializeUserStats] resolves.  When a record is stored
    it resolves to that record and the store keeps it as it is.  When none
    is stored it resolves to a new object whose usage counters are 0, whose
    achievements list is empty and whose [joinDate] and [lastActiveDate]
    are the current time, and stores it under ['main'].  A call made
    afterwards, at whatever time, resolves to the stored record and writes
    nothing. *)
Theorem initializeUserStats_once w :
  sound w ->
  exists stats w1,
    initializeUserStats w = (Resolved stats, w1)
    /\ sound w1
    /\ (forall stored, storedStats w = Some stored ->
          stats = stored /\ storedStats w1 = Some stored)
    /\ (storedStats w = None ->
          stats = newUserStats (clock w) (clock w)
          /\ storedStats w1 = Some (asStored stats)
          /\ Forall (fun counter => numbers stats !! counter = Some 0)
               ["totalMessages"; "totalChats"; "totalQuickPrompts"; "streakDays";
                "timeSpentChatting"]
          /\ numbers stats !! "joinDate" = Some (clock w)
          /\ numbers stats !! "lastActiveDate" = Some (clock w)
          /\ achievements stats = Some [])
    /\ forall t, exists again,
         storedStats w1 = Some again
         /\ initializeUserStats (atTime t w1) = (Resolved again, atTime t w1).
Proof.
  intros Hw. exists (startingStats w), (started w).
  split; [by apply initializeUserStats_run, Hw|].
  split; [by apply sound_started|].
  split; [|split].
  - intros stored Hst. unfold startingStats, started. rewrite Hst.
    by rewrite storedStats_opened.
  - intros Hnone. unfold startingStats. rewrite Hnone. simpl.
    split; [done|]. split.
    + unfold started. rewrite Hnone. by rewrite storedStats_withStats.
    + split; [by repeat constructor|done].
  - intros t. exists (asStored (startingStats w)).
    split; [by apply storedStats_started_sound|].
    rewrite initializeUserStats_run by (apply sound_atTime, sound_started, Hw).
    unfold startingStats at 1.
    rewrite storedStats_atTime, storedStats_started_sound by done. simpl.
    f_equal. apply (started_stored _ (asStored (startingStats w))).
    + by rewrite storedStats_atTime, storedStats_started_sound.
    + apply database_started.
Qed.

(** The merge [{ ...before, ...updates }], property by property. *)
Definition merged (before updates after : UserStats) : Prop :=
  (forall name,
     numbers after !! name
     = match numbers updates !! name with
       | Some value => Some value
       | None => numbers before !! name
       end)
  /\ achievements after = orElse (achievements updates) (achievements before)
  /\ favoriteFeatures after
     = orElse (favoriteFeatures updates) (favoriteFeatures before).

Lemma merged_spread before updates : merged before updates (spread before updates).
Proof.
  unfold merged, spread. simpl. split; [|done].
  intros name. rewrite lookup_union. 
  destruct (numbers updates !! name), (numbers before !! name); done.
Qed.

Lemma spread_again before updates :
  id updates = None ->
  spread (spread before updates) updates = spread before updates.
Proof.
  intros Hid. unfold spread, orElse. simpl. rewrite Hid. f_equal.
  - by rewrite (assoc_L (∪)), (idemp_L (∪)).
  - by destruct (achievements updates).
  - by destruct (favoriteFeatures updates).
Qed.

Lemma withStats_again w k item : withStats (withStats w k item) k item = withStats w k item.
Proof.
  unfold withStats. rewrite !opened_withDatabase, lookup_insert_eq. simpl.
  unfold withDatabase. simpl. f_equal.
  by rewrite insert_insert_eq, insert_insert_eq.
Qed.

(** X8. For updates that carry no [id]: [updateUserStats] resolves; the
    record stored under ['main'] afterwards has, for every property the
    updates carry, the value of the updates, and for every other property
    the value it had before (the value of a new record when none was
    stored); the object returned holds the same values; and the same
    updates applied once more leave the store as it is. *)
Theorem updateUserStats_merges w updates :
  sound w ->
  id updates = None ->
  exists before after returned w',
    storedStats (started w) = Some before
    /\ updateUserStats updates w = (Resolved returned, w')
    /\ storedStats w' = Some after
    /\ id after = Some "main"
    /\ merged before updates after
    /\ merged (startingStats w) updates returned
    /\ updateUserStats updates w' = (Resolved after, w').
Proof.
  intros Hw Hid.
  pose proof (updateUserStats_run w updates (proj1 Hw)) as Hrun. cbv zeta in Hrun.
  assert (Hkey : default "main" (id (spread (startingStats w) updates)) = "main").
  { rewrite id_spread, Hid. simpl. by apply startingStats_key. }
  rewrite Hkey in Hrun.
  set (returned := spread (startingStats w) updates) in *.
  assert (Hafter : asStored returned = spread (asStored (startingStats w)) updates).
  { unfold returned, asStored, spread. simpl. rewrite Hid. simpl. f_equal.
    - rewrite !(right_id_L ∅ (∪)). done.
    - unfold orElse. by destruct (achievements updates), (achievements (startingStats w)).
    - unfold orElse.
      by destruct (favoriteFeatures updates), (favoriteFeatures (startingStats w)). }
  exists (asStored (startingStats w)), (asStored returned), returned.
  eexists. split; [by apply storedStats_started_sound|].
  split; [exact Hrun|].
  split; [by rewrite storedStats_withStats|].
  split; [rewrite id_asStored; by rewrite Hkey|].
  split; [rewrite Hafter; apply merged_spread|].
  split; [apply merged_spread|].
  set (w' := withStats (started w) "main" (asStored returned)).
  assert (Hw' : sound w').
  { apply sound_withStats; [by apply sound_started|].
    rewrite id_asStored. by rewrite Hkey. }
  assert (Hst' : storedStats w' = Some (asStored returned))
    by (unfold w'; by rewrite storedStats_withStats).
  rewrite updateUserStats_run by apply Hw'. cbv zeta.
  assert (Hstart' : startingStats w' = asStored returned)
    by (unfold startingStats; by rewrite Hst').
  rewrite Hstart', Hafter, spread_again by done. rewrite <- Hafter.
  rewrite id_asStored, Hkey. simpl.
  assert (asStored (asStored returned) = asStored returned) as ->
    by (apply asStored_keyed; rewrite id_asStored; by rewrite Hkey).
  f_equal. rewrite (started_stored w' (asStored returned)) by done.
  apply withStats_again.
Qed.

End StatsCalls.

Lemma initializeUserStats_once_witness :
  sound (pristine 0 : IndexedDBService.World StatsService.UserStats)
  /\ exists stats w1,
       StatsService.initializeUserStats (pristine 0) = (IndexedDBService.Resolved stats, w1)
       /\ StatsService.numbers stats !! "totalChats" = Some 0.
Proof.
  split; [apply pristine_sound|].
  destruct (initializeUserStats_once (pristine 0) (pristine_sound 0))
    as (stats & w1 & Hrun & _ & _ & Hnew & _).
  exists stats, w1. split; [exact Hrun|].
  destruct (Hnew eq_refl) as (-> & _). reflexivity.
Defined.

Lemma updateUserStats_merges_witness :
  let updates :=
    {| StatsService.id := None;
       StatsService.numbers := {[ "streakDays" := 2 ]};
       StatsService.achievements := None;
       StatsService.favoriteFeatures := None |} in
  sound (pristine 0 : IndexedDBService.World StatsService.UserStats)
  /\ StatsService.id updates = None
  /\ exists after returned w',
       StatsService.updateUserStats updates (pristine 0)
       = (IndexedDBService.Resolved returned, w')
       /\ storedStats w' = Some after
       /\ StatsService.numbers after !! "streakDays" = Some 2
       /\ StatsService.numbers after !! "totalChats" = Some 0.
Proof.
  intros updates.
  split; [apply pristine_sound|]. split; [reflexivity|].
  destruct (updateUserStats_merges (pristine 0) updates (pristine_sound 0) eq_refl)
    as (before & after & returned & w' & Hbefore & Hrun & Hafter & _ & Hmerged & _).
  exists after, returned, w'.
  split; [exact Hrun|]. split; [exact Hafter|].
  destruct Hmerged as (Hnumbers & _).
  split.
  - rewrite Hnumbers. reflexivity.
  - rewrite Hnumbers.
    change (StatsService.numbers before !! "totalChats" = Some 0).
    injection Hbefore as <-. vm_compute. reflexivity.
Defined.

(** ** The list of achievements and the usage insights *)

Section AchievementList.
Import IndexedDBService StatsService.
Implicit Types (w : World UserStats) (stats : UserStats).

(** What the list shows of a rule, and what the table says of it. *)
Definition shown (status : AchievementStatus) : string * string * string * string :=
  (status_id status, status_name status, status_description status, status_icon status).

Definition listedRule (a : Achievement) : string * string * string * string :=
  (a_id a, name a, description a, icon a).

Lemma getAllAchievements_run w :
  sound w ->
  exists statuses,
    getAllAchievements w = (Resolved statuses, started w)
    /\ shown <$> statuses = listedRule <$> achievementTable
    /\ Forall (fun status =>
                 earned status
                 = includes (default [] (achievements (startingStats w))) (status_id status))
              statuses.
Proof.
  intros Hw. unfold getAllAchievements, mbind, Async_bind, await.
  rewrite currentUserStats_run by apply Hw.
  eexists. split; [reflexivity|]. split; [reflexivity|].
  repeat constructor.
Qed.

Lemma checkAchievements_world stats w :
  sound w ->
  exists checked w',
    checkAchievements stats w = (Resolved checked, w')
    /\ sound w'
    /\ newAchievements checked = filter (due stats) achievementTable
    /\ (newAchievements checked <> [] ->
        exists stored,
          storedStats w' = Some stored
          /\ achievements stored
             = Some (default [] (achievements stats) ++ (a_id <$> newAchievements checked))).
Proof.
  intros Hw. destruct (checkAchievements_run stats w Hw) as (w' & Hrun & Hsame & Hstored).
  do 2 eexists. split; [exact Hrun|]. simpl.
  split; [|split; [done|exact Hstored]].
  destruct (filter (due stats) achievementTable) as [|a awarded] eqn:Haw.
  - by rewrite Hsame.
  - clear Hsame Hstored. unfold checkAchievements in Hrun.
    rewrite foldl_checkOne in Hrun; [|done|apply table_ids_distinct|done].
    rewrite Haw in Hrun.
    rewrite bool_decide_eq_true_2 in Hrun by (unfold Js.len; simpl; lia).
    unfold mbind, Async_bind, await in Hrun.
    rewrite updateUserStats_run in Hrun by apply Hw.
    injection Hrun as <-.
    apply sound_withStats; [by apply sound_started|].
    rewrite id_asStored, id_spread. simpl. by rewrite startingStats_key.
Qed.

(** X9. [getAllAchievements] resolves to a list of 10 entries that has, in
    the same order, the ids, names, descriptions and icons of the rules
    [checkAchievements] evaluates; an entry is marked earned exactly when
    its id is in the achievements list of the stored record (of a new
    record, which the call then stores, when none is stored).  Every
    achievement that a call of [checkAchievements] returns is marked earned
    in the list got afterwards. *)
Theorem getAllAchievements_shows_earned w :
  sound w ->
  (exists statuses w' stored,
      getAllAchievements w = (Resolved statuses, w')
      /\ storedStats w' = Some stored
      /\ length statuses = 10%nat
      /\ shown <$> statuses = listedRule <$> achievementTable
      /\ forall status, status ∈ statuses ->
           (earned status = true
            <-> status_id status ∈ default [] (achievements stored)))
  /\ forall stats checked w1,
       checkAchievements stats w = (Resolved checked, w1) ->
       exists statuses w2,
         getAllAchievements w1 = (Resolved statuses, w2)
         /\ forall a, a ∈ newAchievements checked ->
              exists status,
                status ∈ statuses /\ shown status = listedRule a
                /\ earned status = true.
Proof.
  intros Hw. split.
  - destruct (getAllAchievements_run w Hw) as (statuses & Hrun & Hshown & Hearned).
    exists statuses, (started w), (asStored (startingStats w)).
    split; [exact Hrun|]. split; [by apply storedStats_started_sound|].
    split; [by rewrite <- (length_fmap shown), Hshown|].
    split; [exact Hshown|].
    intros status Hin. rewrite Forall_forall in Hearned.
    rewrite (Hearned status Hin), achievements_asStored.
    unfold includes. apply bool_decide_eq_true.
  - intros stats checked w1 Hcheck.
    destruct (checkAchievements_world stats w Hw)
      as (checked' & w1' & Hcheck' & Hw1 & Hnew & Hstored).
    rewrite Hcheck in Hcheck'. injection Hcheck' as <- <-.
    destruct (getAllAchievements_run w1 Hw1) as (statuses & Hrun & Hshown & Hearned).
    exists statuses, (started w1). split; [exact Hrun|].
    intros a Ha.
    assert (Hin : a ∈ achievementTable)
      by (rewrite Hnew in Ha; by apply list_elem_of_filter in Ha as [_ ?]).
    assert (Hrule : listedRule a ∈ shown <$> statuses)
      by (rewrite Hshown; by apply list_elem_of_fmap_2).
    apply list_elem_of_fmap in Hrule as (status & Hrule & Hstatus).
    exists status. split; [done|]. split; [done|].
    rewrite Forall_forall in Hearned. rewrite (Hearned status Hstatus).
    destruct Hstored as (stored & Hst & Hach);
      [intros Hnil; rewrite Hnil in Ha; by apply elem_of_nil in Ha|].
    unfold startingStats. rewrite Hst. simpl. rewrite Hach. simpl.
    unfold includes. apply bool_decide_eq_true_2.
    apply elem_of_app. right.
    pose proof (f_equal (fun rule => rule.1.1.1) Hrule) as Hid. simpl in Hid.
    rewrite <- Hid.
    by apply list_elem_of_fmap_2.
Qed.

End AchievementList.

Lemma getAllAchievements_shows_earned_witness :
  sound (pristine 0 : IndexedDBService.World StatsService.UserStats)
  /\ exists statuses w',
       StatsService.getAllAchievements (pristine 0) = (IndexedDBService.Resolved statuses, w')
       /\ length statuses = 10%nat.
Proof.
  split; [apply pristine_sound|].
  destruct (getAllAchievements_shows_earned (pristine 0) (pristine_sound 0))
    as [(statuses & w' & stored & Hrun & _ & Hlen & _) _].
  exists statuses, w'. split; [exact Hrun|exact Hlen].
Defined.

Section Insights.
Import IndexedDBService StatsService.
Implicit Types (w : World UserStats) (stats : UserStats).

(** The quotient of two integers above 0, as a double, when it is below
    2^52: its exponent is negative, it has its 53 bits, and its mantissa is
    an integer nearest to the scaled quotient. *)
Lemma divide_small a b :
  0 < a -> 0 < b -> a < 2 ^ 52 * b ->
  exists m E,
    Js.divide a b = (m, - E) /\ 0 < E
    /\ 2 ^ 52 * b <= a * 2 ^ E
    /\ Z.abs (2 * (m * b - a * 2 ^ E)) <= b.
Proof.
  intros Ha Hb Hsmall. unfold Js.divide.
  rewrite bool_decide_eq_false_2 by lia.
  rewrite (Z.abs_eq a), (Z.sgn_pos a) by lia.
  destruct (Z.log2_spec a Ha) as [Hla Hla'].
  destruct (Z.log2_spec b Hb) as [Hlb Hlb'].
  pose proof (Z.log2_nonneg a) as Hna. pose proof (Z.log2_nonneg b) as Hnb.
  set (la := Z.log2 a) in *. set (lb := Z.log2 b) in *.
  assert (He0 : la - lb - 53 < 0).
  { destruct (decide (la - lb - 53 < 0)) as [|Hge]; [done|]. exfalso.
    assert (2 ^ (lb + 53) <= 2 ^ la) by (apply Z.pow_le_mono_r; lia).
    rewrite Z.pow_add_r in * by lia. rewrite Z.pow_succ_r in Hlb' by lia. nia. }
  remember (la - lb - 53) as e0 eqn:He0def.
  assert (Hlow : 2 ^ 52 * b <= a * 2 ^ (- e0)).
  { replace (- e0) with (lb + 53 - la) by lia.
    assert (Hpow : 2 ^ la * 2 ^ (lb + 53 - la) = 2 ^ (lb + 53)).
    { rewrite <- Z.pow_add_r by lia. f_equal. lia. }
    assert (0 < 2 ^ (lb + 53 - la)) by (apply Z.pow_pos_nonneg; lia).
    rewrite Z.pow_add_r in Hpow by lia. rewrite Z.pow_succ_r in Hlb' by lia. nia. }
  assert (Hnearest : forall n d, 0 < d ->
            Z.abs (2 * ((if bool_decide (2 * (n mod d) < d) then n / d
                         else if bool_decide (2 * (n mod d) > d) then n / d + 1
                         else if Z.even (n / d) then n / d else n / d + 1) * d - n)) <= d).
  { intros n d Hd. pose proof (Z.div_mod n d) as Hdiv.
    pose proof (Z.mod_pos_bound n d Hd) as Hmod.
    set (q := n / d) in *. set (r := n mod d) in *.
    assert (Hq : q * d - n = - r) by lia.
    assert (Hq1 : (q + 1) * d - n = d - r) by lia.
    repeat case_bool_decide; [| |destruct (Z.even q)]; rewrite ?Hq, ?Hq1; lia. }
  cbv zeta. rewrite (bool_decide_eq_false_2 (0 <= e0)) by lia. simpl.
  destruct (bool_decide_reflect (2 ^ 53 * b <= a * 2 ^ (- e0))) as [Hbig|Hbig].
  - assert (He1 : e0 + 1 < 0).
    { destruct (decide (e0 + 1 < 0)) as [|Hge]; [done|]. exfalso.
      assert (e0 = -1) as -> by lia. simpl in Hbig. lia. }
    rewrite bool_decide_eq_false_2 by lia.
    assert (Hhalf : 2 ^ (- e0) = 2 * 2 ^ (- (e0 + 1))).
    { rewrite <- Z.pow_succ_r by lia. f_equal. lia. }
    eexists _, (- (e0 + 1)). rewrite Z.opp_involutive.
    split; [rewrite Z.mul_1_l; reflexivity|].
    split; [lia|]. split; [nia|]. by apply Hnearest.
  - rewrite bool_decide_eq_false_2 by lia.
    eexists _, (- e0). rewrite Z.opp_involutive.
    split; [rewrite Z.mul_1_l; reflexivity|].
    split; [lia|]. split; [done|]. by apply Hnearest.
Qed.

(** [Math.floor] of the quotient of two integers is their integer
    quotient, while the dividend is below 2^53. *)
Lemma floor_divide a b :
  0 <= a < 2 ^ 53 -> 0 < b -> a < 2 ^ 52 * b -> Js.Math_floor (Js.divide a b) = a / b.
Proof.
  intros Ha Hb Hsmall.
  destruct (decide (a = 0)) as [->|Hne]; [done|].
  destruct (divide_small a b) as (m & E & -> & HE & Hlow & Hnear); [lia..|].
  unfold Js.Math_floor. rewrite bool_decide_eq_false_2, Z.opp_involutive by lia.
  assert (HP : 0 < 2 ^ E) by (apply Z.pow_pos_nonneg; lia).
  set (P := 2 ^ E) in *.
  pose proof (Z.div_mod a b) as Hdiv. pose proof (Z.mod_pos_bound a b Hb) as Hmod.
  symmetry. apply Z.div_unique with (m - a / b * P); nia.
Qed.

(** [Math.round] of the quotient of two integers is an integer nearest to
    their quotient, while the dividend is below 2^52. *)
Lemma round_divide a b :
  0 <= a < 2 ^ 52 -> 0 < b -> Z.abs (2 * (Js.Math_round (Js.divide a b) * b - a)) <= b.
Proof.
  intros Ha Hb.
  destruct (decide (a = 0)) as [->|Hne]; [simpl; lia|].
  destruct (divide_small a b) as (m & E & -> & HE & Hlow & Hnear); [nia..|].
  unfold Js.Math_round. rewrite bool_decide_eq_false_2, Z.opp_involutive by lia.
  assert (HP : 0 < 2 ^ E) by (apply Z.pow_pos_nonneg; lia).
  set (P := 2 ^ E) in *.
  pose proof (Z.div_mod (2 * m + P) (2 * P)) as Hdiv.
  pose proof (Z.mod_pos_bound (2 * m + P) (2 * P)) as Hmod.
  set (r := (2 * m + P) / (2 * P)) in *.
  assert (HbP : b < P) by nia.
  nia.
Qed.

Lemma roundDiv_nearest a b :
  0 <= a < 2 ^ 52 -> 0 < b -> Z.abs (2 * (roundDiv a b * b - a)) <= b.
Proof. apply round_divide. Qed.

(** Beyond 2^52 the double can lie on the other side of a half: of
    4505248894816257 messages in 8195 days the average is 549755813888 and
    a little less than a half, and the double nearest to it is that and a
    half. *)
Example roundDiv_far :
  roundDiv 4505248894816257 8195 = 549755813889
  /\ 2 * (4505248894816257 - 549755813888 * 8195) < 8195.
Proof. split; [vm_compute; reflexivity|lia]. Qed.

(** The whole days between two times of the clock. *)
Lemma days_between time joinDate :
  0 <= joinDate <= time -> time < 2 ^ 53 ->
  Js.Math_floor (Js.divide (Js.minus time joinDate) msPerDay) = (time - joinDate) / msPerDay.
Proof.
  intros Hjoin Htime. unfold Js.minus.
  rewrite roundDouble_safe by lia.
  apply floor_divide; unfold msPerDay; lia.
Qed.

(** The insights once the statistics are obtained, for statistics that
    have a [joinDate]. *)
Lemma getUsageInsights_run w joinDate :
  sound w ->
  numbers (startingStats w) !! "joinDate" = Some joinDate ->
  let stats := startingStats w in
  let days := Js.Math_floor (Js.divide (Js.minus (clock w) joinDate) msPerDay) in
  getUsageInsights w
  = (Resolved
       {| id := None;
          numbers := list_to_map
            [ ("totalMessages", numberOr0 stats "totalMessages");
              ("totalChats", numberOr0 stats "totalChats");
              ("totalQuickPrompts", numberOr0 stats "totalQuickPrompts");
              ("daysSinceJoin", if bool_decide (days = 0) then 1 else days);
              ("averageMessagesPerDay",
                roundDiv (numberOr0 stats "totalMessages") (Z.max days 1));
              ("averageChatsPerDay",
                roundDiv (numberOr0 stats "totalChats") (Z.max days 1));
              ("streakDays", numberOr0 stats "streakDays");
              ("timeSpentChatting", numberOr0 stats "timeSpentChatting");
              ("achievementsEarned", Js.len (default [] (achievements stats)));
              ("totalAchievements", 10) ];
          achievements := None;
          favoriteFeatures := None |},
     started w).
Proof.
  intros Hw Hjoin stats days.
  unfold getUsageInsights, mbind, Async_bind, await.
  rewrite currentUserStats_run by apply Hw.
  unfold Date_now. cbv beta iota zeta. rewrite clock_started, Hjoin. done.
Qed.

(** X10. At a time of the clock, for statistics whose [joinDate] is a
    time not in the future (those of a new record included):
    [getUsageInsights] resolves and leaves a stored record as it is;
    [daysSinceJoin] is the number of whole days since the join date, and 1
    on the first day; the totals are the stored counters, 0 for a missing
    one; each average, for a total from 0 to below 2^52, is the integer
    nearest to the total divided by [daysSinceJoin]; [achievementsEarned]
    is the length of the stored achievements list and [totalAchievements]
    the number of rules of the table. *)
Theorem getUsageInsights_bounds w :
  sound w ->
  0 <= clock w < 2 ^ 53 ->
  (forall stats, storedStats w = Some stats ->
     exists joinDate,
       numbers stats !! "joinDate" = Some joinDate /\ 0 <= joinDate <= clock w) ->
  exists insights w' before joinDate days,
    getUsageInsights w = (Resolved insights, w')
    /\ storedStats w' = Some before
    /\ (forall stats, storedStats w = Some stats -> before = stats)
    /\ numbers before !! "joinDate" = Some joinDate
    /\ numbers insights !! "daysSinceJoin" = Some days
    /\ days = Z.max 1 ((clock w - joinDate) / msPerDay)
    /\ (forall total average,
          (total, average) ∈ [("totalMessages", "averageMessagesPerDay");
                              ("totalChats", "averageChatsPerDay")] ->
          exists n nearest,
            numbers insights !! total = Some n
            /\ n = default 0 (numbers before !! total)
            /\ numbers insights !! average = Some nearest
            /\ (0 <= n < 2 ^ 52 -> Z.abs (2 * (nearest * days - n)) <= days))
    /\ numbers insights !! "achievementsEarned"
       = Some (Js.len (default [] (achievements before)))
    /\ numbers insights !! "totalAchievements" = Some (Js.len achievementTable).
Proof.
  intros Hw Hclock Hjoined.
  assert (Hjoin : exists joinDate,
            numbers (startingStats w) !! "joinDate" = Some joinDate
            /\ 0 <= joinDate <= clock w).
  { unfold startingStats. destruct (storedStats w) as [stats|] eqn:Hst.
    - by apply Hjoined.
    - exists (clock w). split; [done|lia]. }
  destruct Hjoin as (joinDate & Hjoin & Hpast).
  pose proof (getUsageInsights_run w joinDate Hw Hjoin) as Hrun. cbv zeta in Hrun.
  rewrite (days_between (clock w) joinDate) in Hrun by lia.
  set (d := (clock w - joinDate) / msPerDay) in *.
  assert (Hd : 0 <= d) by (apply Z.div_pos; unfold msPerDay; lia).
  assert (Hdays : (if bool_decide (d = 0) then 1 else d) = Z.max 1 d)
    by (case_bool_decide; lia).
  assert (Hmax : Z.max d 1 = Z.max 1 d) by lia.
  rewrite Hdays, Hmax in Hrun.
  do 2 eexists. exists (asStored (startingStats w)), joinDate, (Z.max 1 d).
  split; [exact Hrun|].
  split; [by apply storedStats_started_sound|].
  split.
  { intros stats Hst. unfold startingStats. rewrite Hst. simpl.
    apply asStored_keyed. by eapply stored_keyed. }
  split; [by rewrite numbers_asStored|].
  split; [done|]. split; [done|].
  rewrite numbers_asStored, achievements_asStored.
  split; [|done].
  intros total average Hin.
  apply elem_of_cons in Hin as [[= -> ->]|Hin];
    [|apply list_elem_of_singleton in Hin as [= -> ->]];
    (do 2 eexists; split; [reflexivity|]; split; [reflexivity|];
     split; [reflexivity|]; intros Hn; apply roundDiv_nearest; lia).
Qed.

End Insights.

(** Three and a half days after joining, with 8 messages sent: 3 days
    since the join date and, 8 / 3 being nearest to 3, 3 messages a day. *)
Lemma getUsageInsights_bounds_witness :
  let joined :=
    {| StatsService.id := Some "main";
       StatsService.numbers := <["joinDate" := 0]> (<["totalMessages" := 8]> ∅);
       StatsService.achievements := Some [];
       StatsService.favoriteFeatures := None |} in
  let w := after [Put "userStats" joined] (pristine 302400000) in
  sound w
  /\ 0 <= IndexedDBService.clock w < 2 ^ 53
  /\ (forall stats, storedStats w = Some stats ->
        exists joinDate,
          StatsService.numbers stats !! "joinDate" = Some joinDate
          /\ 0 <= joinDate <= IndexedDBService.clock w)
  /\ exists insights w',
       StatsService.getUsageInsights w = (IndexedDBService.Resolved insights, w')
       /\ StatsService.numbers insights !! "daysSinceJoin" = Some 3
       /\ exists nearest,
            StatsService.numbers insights !! "averageMessagesPerDay" = Some nearest
            /\ Z.abs (2 * (nearest * 3 - 8)) <= 3.
Proof.
  intros joined w.
  assert (Hstored : storedStats w = Some joined) by (vm_compute; reflexivity).
  assert (Hjoined : forall stats, storedStats w = Some stats ->
            exists joinDate,
              StatsService.numbers stats !! "joinDate" = Some joinDate
              /\ 0 <= joinDate <= IndexedDBService.clock w).
  { intros stats Hst. rewrite Hstored in Hst. injection Hst as <-.
    exists 0. split; [reflexivity|]. vm_compute. split; discriminate. }
  assert (Hclock : 0 <= IndexedDBService.clock w < 2 ^ 53)
    by (vm_compute; split; [discriminate|reflexivity]).
  split; [apply after_sound|]. split; [exact Hclock|]. split; [exact Hjoined|].
  destruct (getUsageInsights_bounds w (after_sound _ _) Hclock Hjoined)
    as (insights & w' & before & joinDate & days & Hrun & Hbefore & Hsame & Hjoin
        & Hdays & Hvalue & Haverage & _).
  assert (Hb : before = joined) by (by apply Hsame).
  subst before.
  assert (Hj : joinDate = 0) by (vm_compute in Hjoin; by injection Hjoin).
  subst joinDate.
  assert (Hthree : days = 3) by (rewrite Hvalue; vm_compute; reflexivity).
  subst days.
  exists insights, w'. split; [exact Hrun|]. split; [exact Hdays|].
  destruct (Haverage "totalMessages" "averageMessagesPerDay")
    as (n & nearest & _ & Hn & Hnear & Hbound); [left|].
  assert (Height : n = 8) by (rewrite Hn; vm_compute; reflexivity).
  subst n. exists nearest. split; [exact Hnear|].
  apply Hbound. lia.
Defined.

(** ** The streak over one day *)

Section StreakOnce.
Import IndexedDBService StatsService.
Variable zoneOffset : Z -> Z.
Implicit Types (w : World UserStats) (stats : UserStats).

(** X11. After a call of [updateStreakDays] the stored [lastActiveDate]
    falls on the day of the call, so a further call at any time of the
    same local day resolves to the stored record and writes nothing: the
    streak changes at most once a day. *)
Theorem updateStreakDays_once_a_day w t :
  sound w ->
  dayOf zoneOffset t = dayOf zoneOffset (clock w) ->
  exists stats w1 stored last,
    updateStreakDays zoneOffset w = (Resolved stats, w1)
    /\ storedStats w1 = Some stored
    /\ numbers stored !! "lastActiveDate" = Some last
    /\ dayOf zoneOffset last = dayOf zoneOffset (clock w)
    /\ updateStreakDays zoneOffset (atTime t w1) = (Resolved stored, atTime t w1).
Proof.
  intros Hw Hday.
  assert (Hagain : forall w1 stored last,
            sound w1 -> database w1 <> None ->
            storedStats w1 = Some stored ->
            numbers stored !! "lastActiveDate" = Some last ->
            dayOf zoneOffset last = dayOf zoneOffset (clock w) ->
            updateStreakDays zoneOffset (atTime t w1) = (Resolved stored, atTime t w1)).
  { intros w1 stored last Hw1 Hdb Hst Hlast Hsame.
    rewrite updateStreakDays_run by (by apply sound_atTime). cbv zeta.
    assert (Hstart : startingStats (atTime t w1) = stored)
      by (unfold startingStats; by rewrite storedStats_atTime, Hst).
    rewrite Hstart, Hlast. simpl.
    rewrite bool_decide_eq_true_2 by (f_equal; congruence).
    f_equal. apply (started_stored _ stored); [by rewrite storedStats_atTime|done]. }
  rewrite updateStreakDays_run by done. cbv zeta.
  pose proof (storedStats_started_sound w Hw) as Hstored.
  assert (Hwrite : forall newStreak,
    exists stats w1 stored last,
      updateUserStats (streakUpdate newStreak (clock w)) (started w) = (Resolved stats, w1)
      /\ storedStats w1 = Some stored
      /\ numbers stored !! "lastActiveDate" = Some last
      /\ dayOf zoneOffset last = dayOf zoneOffset (clock w)
      /\ updateStreakDays zoneOffset (atTime t w1) = (Resolved stored, atTime t w1)).
  { intros newStreak.
    destruct (streakUpdate_run w newStreak (clock w) Hw) as [Hupd Hkey].
    set (after := spread (asStored (startingStats w)) (streakUpdate newStreak (clock w)))
      in *.
    assert (Hlast : numbers after !! "lastActiveDate" = Some (clock w)).
    { unfold after, spread, streakUpdate. simpl.
      by rewrite lookup_union_l' by (by eexists). }
    assert (Hid : id after = Some "main").
    { unfold after. rewrite id_spread, id_asStored. simpl.
      by rewrite startingStats_key. }
    exists after, (withStats (started w) "main" after), after, (clock w).
    split; [exact Hupd|].
    split; [by rewrite storedStats_withStats|].
    split; [exact Hlast|]. split; [done|].
    apply (Hagain _ after (clock w)); try done.
    - apply sound_withStats; [by apply sound_started|done].
    - by rewrite storedStats_withStats. }
  case_bool_decide as Htoday; [|case_bool_decide; apply Hwrite].
  destruct (numbers (startingStats w) !! "lastActiveDate") as [last|] eqn:Hlast;
    [|discriminate Htoday].
  simpl in Htoday. injection Htoday as Htoday.
  exists (startingStats w), (started w), (asStored (startingStats w)), last.
  split; [done|]. split; [exact Hstored|].
  split; [by rewrite numbers_asStored|]. split; [done|].
  apply (Hagain _ (asStored (startingStats w)) last); try done.
  - by apply sound_started.
  - apply database_started.
  - by rewrite numbers_asStored.
Qed.

End StreakOnce.

Lemma updateStreakDays_once_a_day_witness :
  sound (pristine 0 : IndexedDBService.World StatsService.UserStats)
  /\ dayOf (fun _ => 0) 1000 = dayOf (fun _ => 0) 0
  /\ exists stats w1 stored,
       StatsService.updateStreakDays (fun _ => 0) (pristine 0)
       = (IndexedDBService.Resolved stats, w1)
       /\ StatsService.updateStreakDays (fun _ => 0) (atTime 1000 w1)
          = (IndexedDBService.Resolved stored, atTime 1000 w1).
Proof.
  split; [apply pristine_sound|]. split; [reflexivity|].
  destruct (updateStreakDays_once_a_day (fun _ => 0) (pristine 0) 1000
              (pristine_sound 0) eq_refl)
    as (stats & w1 & stored & last & Hrun & _ & _ & _ & Hagain).
  exists stats, w1, stored. split; [exact Hrun|exact Hagain].
Defined.

(** ** Maps in insertion order *)

Section MapFacts.
Context {V : Type}.
Implicit Types (m : list (string * V)) (k key : string) (v : V).

Lemma mapGet_nil k : Js.mapGet ([] : list (string * V)) k = None.
Proof. done. Qed.

Lemma mapGet_cons m k' v' k :
  Js.mapGet ((k', v') :: m) k = if decide (k' = k) then Some v' else Js.mapGet m k.
Proof.
  unfold Js.mapGet, Js.str_eq. simpl. destruct (decide (k' = k)).
  - by rewrite bool_decide_eq_true_2.
  - by rewrite bool_decide_eq_false_2.
Qed.

Lemma mapSet_cons m k' v' k v :
  Js.mapSet ((k', v') :: m) k v
  = if decide (k' = k) then (k, v) :: m else (k', v') :: Js.mapSet m k v.
Proof.
  simpl. unfold Js.str_eq. simpl. destruct (decide (k' = k)).
  - by rewrite bool_decide_eq_true_2.
  - by rewrite bool_decide_eq_false_2.
Qed.

Lemma mapGet_mapSet m k v k' :
  Js.mapGet (Js.mapSet m k v) k' = if decide (k = k') then Some v else Js.mapGet m k'.
Proof.
  induction m as [|[k0 v0] m IH].
  - simpl. by rewrite mapGet_cons.
  - rewrite mapSet_cons. destruct (decide (k0 = k)) as [->|Hne].
    + rewrite !mapGet_cons. by destruct (decide (k = k')).
    + rewrite !mapGet_cons, IH.
      destruct (decide (k0 = k')) as [->|?]; [|done].
      by rewrite decide_False by congruence.
Qed.

Lemma mapGet_None m k : Js.mapGet m k = None <-> k ∉ fst <$> m.
Proof.
  induction m as [|[k0 v0] m IH]; [split; [intros _; apply not_elem_of_nil|done]|].
  rewrite mapGet_cons, fmap_cons, not_elem_of_cons. simpl.
  destruct (decide (k0 = k)) as [->|Hne]; [split; [done|tauto]|].
  rewrite IH. split; [by split|tauto].
Qed.

Lemma mapGet_Some_elem m k v : Js.mapGet m k = Some v -> (k, v) ∈ m.
Proof.
  induction m as [|[k0 v0] m IH]; [done|].
  rewrite mapGet_cons. destruct (decide (k0 = k)) as [->|Hne].
  - intros [= ->]. left.
  - intros Hget. right. by apply IH.
Qed.

Lemma mapGet_elem m k v : NoDup (fst <$> m) -> (k, v) ∈ m -> Js.mapGet m k = Some v.
Proof.
  induction m as [|[k0 v0] m IH]; intros Hnd Hin; [by apply elem_of_nil in Hin|].
  rewrite fmap_cons in Hnd. apply NoDup_cons in Hnd as [Hfresh Hnd].
  rewrite mapGet_cons. apply elem_of_cons in Hin as [[= -> ->]|Hin].
  - by rewrite decide_True.
  - rewrite decide_False; [by apply IH|].
    intros ->. apply Hfresh. by apply (list_elem_of_fmap_2 fst _ (k, v)).
Qed.

Lemma mapHas_true m k : Js.mapHas m k = true <-> k ∈ fst <$> m.
Proof.
  unfold Js.mapHas. rewrite bool_decide_eq_true.
  destruct (Js.mapGet m k) as [v|] eqn:Hget.
  - split; [|by eexists]. intros _.
    destruct (decide (k ∈ fst <$> m)) as [?|Hnot]; [done|].
    apply mapGet_None in Hnot. congruence.
  - split; [by intros [? ?]|]. intros Hin. by apply mapGet_None in Hget.
Qed.

(** [set] keeps the keys in place and puts a new key last. *)
Lemma mapSet_keys m k v :
  fst <$> Js.mapSet m k v
  = if decide (k ∈ fst <$> m) then fst <$> m else (fst <$> m) ++ [k].
Proof.
  induction m as [|[k0 v0] m IH]; [by rewrite decide_False by apply not_elem_of_nil|].
  rewrite mapSet_cons. destruct (decide (k0 = k)) as [->|Hne].
  - rewrite decide_True by (rewrite fmap_cons; left). done.
  - rewrite !fmap_cons, IH. simpl.
    destruct (decide (k ∈ fst <$> m)) as [Hin|Hnot].
    + by rewrite decide_True by (by right).
    + rewrite decide_False; [done|].
      rewrite not_elem_of_cons. split; [congruence|done].
Qed.

Lemma mapSet_NoDup m k v : NoDup (fst <$> m) -> NoDup (fst <$> Js.mapSet m k v).
Proof.
  intros Hnd. rewrite mapSet_keys. destruct (decide (k ∈ fst <$> m)); [done|].
  apply NoDup_app. split; [done|]. split; [|apply NoDup_singleton].
  intros x Hx Hk. apply list_elem_of_singleton in Hk as ->. done.
Qed.

End MapFacts.

(** ** Counting tokens *)

Section Tally.
Import EmbeddingService.
Implicit Types (tokens seen : list string) (token k : string) (m : list (string * Z)).

(** How often [k] occurs among the tokens. *)
Definition occurrences k tokens : Z :=
  Js.len (filter (fun token => token = k) tokens).

Lemma occurrences_nil k : occurrences k [] = 0.
Proof. done. Qed.

Lemma occurrences_cons k token tokens :
  occurrences k (token :: tokens)
  = (if decide (token = k) then 1 else 0) + occurrences k tokens.
Proof.
  unfold occurrences, Js.len. rewrite filter_cons.
  destruct (decide (token = k)); simpl; lia.
Qed.

Lemma occurrences_nonneg k tokens : 0 <= occurrences k tokens.
Proof. unfold occurrences, Js.len. lia. Qed.

Lemma occurrences_pos k tokens : k ∈ tokens <-> 0 < occurrences k tokens.
Proof.
  induction tokens as [|token tokens IH].
  - rewrite occurrences_nil. split; [by intros ?%elem_of_nil|lia].
  - rewrite occurrences_cons, elem_of_cons, IH.
    pose proof (occurrences_nonneg k tokens).
    destruct (decide (token = k)) as [->|Hne]; [split; [lia|by left]|].
    split; [intros [?|?]; [congruence|lia]|]. intros ?. right. lia.
Qed.

Lemma occurrences_le k tokens : occurrences k tokens <= Js.len tokens.
Proof.
  unfold occurrences, Js.len. pose proof (length_filter (fun token => token = k) tokens). lia.
Qed.

(** The step [tf.set(token, (tf.get(token) || 0) + 1)]. *)
Definition countToken m token : list (string * Z) :=
  Js.mapSet m token (default 0 (Js.mapGet m token) + 1).

Lemma countToken_get m token k :
  Js.mapGet (countToken m token) k
  = if decide (token = k) then Some (default 0 (Js.mapGet m k) + 1) else Js.mapGet m k.
Proof.
  unfold countToken. rewrite mapGet_mapSet. by destruct (decide (token = k)) as [->|?].
Qed.

Lemma tally_get m tokens k :
  Js.mapGet (foldl countToken m tokens) k
  = if decide (k ∈ tokens) then Some (default 0 (Js.mapGet m k) + occurrences k tokens)
    else Js.mapGet m k.
Proof.
  revert m. induction tokens as [|token tokens IH]; intros m.
  - by rewrite decide_False by apply not_elem_of_nil.
  - simpl. rewrite IH, countToken_get, occurrences_cons.
    pose proof (occurrences_nonneg k tokens) as Hnonneg.
    pose proof (occurrences_pos k tokens) as Hpos.
    destruct (decide (k ∈ tokens)) as [Hin|Hnot].
    + rewrite (decide_True (P := k ∈ token :: tokens)) by (by right).
      destruct (decide (token = k)); simpl; f_equal; lia.
    + assert (occurrences k tokens = 0) as ->.
      { destruct (decide (0 < occurrences k tokens)) as [Hp|?]; [|lia].
        by apply Hpos in Hp. }
      destruct (decide (token = k)) as [->|Hne].
      * rewrite (decide_True (P := k ∈ k :: tokens)) by left. done.
      * rewrite (decide_False (P := k ∈ token :: tokens)); [done|].
        rewrite not_elem_of_cons. split; [congruence|done].
Qed.

(** The step of [uniqueTokens]. *)
Definition addToken seen token : list string :=
  if bool_decide (token ∈ seen) then seen else seen ++ [token].

Lemma addTokens_spec seen tokens :
  NoDup seen ->
  NoDup (foldl addToken seen tokens)
  /\ forall k, k ∈ foldl addToken seen tokens <-> k ∈ seen \/ k ∈ tokens.
Proof.
  revert seen. induction tokens as [|token tokens IH]; intros seen Hnd; simpl.
  - split; [done|]. intros k. rewrite elem_of_nil. tauto.
  - assert (Hstep : NoDup (addToken seen token)
                    /\ forall k, k ∈ addToken seen token <-> k ∈ seen \/ k = token).
    { unfold addToken. case_bool_decide as Hin.
      - split; [done|]. intros k. split; [tauto|]. intros [? | ->]; done.
      - split.
        + apply NoDup_app. split; [done|]. split; [|apply NoDup_singleton].
          intros x Hx Hk. apply list_elem_of_singleton in Hk as ->. done.
        + intros k. by rewrite elem_of_app, list_elem_of_singleton. }
    destruct Hstep as [Hnd' Hin']. destruct (IH _ Hnd') as [Hnd'' Hin''].
    split; [done|]. intros k. rewrite Hin'', Hin', elem_of_cons. tauto.
Qed.

Lemma uniqueTokens_NoDup tokens : NoDup (uniqueTokens tokens).
Proof. apply (addTokens_spec [] tokens). constructor. Qed.

Lemma uniqueTokens_elem tokens k : k ∈ uniqueTokens tokens <-> k ∈ tokens.
Proof.
  unfold uniqueTokens. fold addToken.
  destruct (addTokens_spec [] tokens) as [_ Hin]; [constructor|].
  change (k ∈ foldl addToken [] tokens <-> k ∈ tokens).
  rewrite Hin, elem_of_nil. tauto.
Qed.

Lemma tally_keys m tokens :
  fst <$> foldl countToken m tokens = foldl addToken (fst <$> m) tokens.
Proof.
  revert m. induction tokens as [|token tokens IH]; intros m; simpl; [done|].
  rewrite IH. f_equal. unfold countToken, addToken. rewrite mapSet_keys.
  destruct (decide (token ∈ fst <$> m)).
  - by rewrite bool_decide_eq_true_2.
  - by rewrite bool_decide_eq_false_2.
Qed.

Lemma mapGet_scaled {A B} (f : A -> B) (m : list (string * A)) k :
  Js.mapGet ((fun entry : string * A => (entry.1, f entry.2)) <$> m) k
  = f <$> Js.mapGet m k.
Proof.
  induction m as [|[k0 v0] m IH]; [done|].
  rewrite fmap_cons. simpl. rewrite !mapGet_cons, IH. by destruct (decide (k0 = k)).
Qed.

Lemma calculateTF_tally tokens :
  calculateTF tokens
  = (fun entry : string * Z => (entry.1, (IZR entry.2 / IZR (Js.len tokens))%R))
    <$> foldl countToken [] tokens.
Proof. done. Qed.

(** X12. [calculateTF] has one entry for every distinct token, in the
    order of first occurrence, whose value is the number of occurrences of
    the token divided by the number of tokens: a number above 0 and at
    most 1.  For the empty list the map is empty, and nothing is divided
    by zero. *)
Theorem calculateTF_distribution tokens :
  fst <$> calculateTF tokens = uniqueTokens tokens
  /\ NoDup (fst <$> calculateTF tokens)
  /\ (forall k,
        Js.mapGet (calculateTF tokens) k
        = if decide (k ∈ tokens)
          then Some (IZR (occurrences k tokens) / IZR (Js.len tokens))%R
          else None)
  /\ Forall (fun entry => 0 < entry.2 <= 1)%R (calculateTF tokens)
  /\ calculateTF [] = [].
Proof.
  assert (Hkeys : fst <$> calculateTF tokens = uniqueTokens tokens).
  { rewrite calculateTF_tally, <- list_fmap_compose.
    change (fst <$> foldl countToken [] tokens = uniqueTokens tokens).
    by rewrite tally_keys. }
  assert (Hget : forall k,
            Js.mapGet (calculateTF tokens) k
            = if decide (k ∈ tokens)
              then Some (IZR (occurrences k tokens) / IZR (Js.len tokens))%R
              else None).
  { intros k. rewrite calculateTF_tally.
    rewrite (mapGet_scaled (fun c => (IZR c / IZR (Js.len tokens))%R)), tally_get.
    destruct (decide (k ∈ tokens)); [|done]. simpl. by rewrite Z.add_0_l. }
  assert (Hnd : NoDup (fst <$> calculateTF tokens))
    by (rewrite Hkeys; apply uniqueTokens_NoDup).
  split; [done|]. split; [done|]. split; [done|].
  split; [|done].
  apply Forall_forall. intros [k v] Hin.
  pose proof (mapGet_elem _ k v Hnd Hin) as Hk. rewrite Hget in Hk.
  destruct (decide (k ∈ tokens)) as [Hktokens|]; [|done].
  injection Hk as <-. simpl.
  apply occurrences_pos in Hktokens.
  pose proof (occurrences_le k tokens) as Hle.
  assert (0 < IZR (Js.len tokens))%R by (apply IZR_lt; lia).
  assert (0 < IZR (occurrences k tokens))%R by (by apply IZR_lt).
  assert (IZR (occurrences k tokens) <= IZR (Js.len tokens))%R by (by apply IZR_le).
  split.
  - by apply Rdiv_lt_0_compat.
  - apply (Rmult_le_reg_r (IZR (Js.len tokens))); [done|].
    unfold Rdiv. rewrite Rmult_assoc, Rinv_l by lra. lra.
Qed.

End Tally.

(** ** Tokens *)

Section Tokens.
Import EmbeddingService.
Implicit Types (l piece : list ascii) (c : ascii) (text : string).

(** The code units a token is made of: [a-z0-9_]. *)
Definition isTokenChar c : bool :=
  let n := Js.code c in
  (((48 <=? n) && (n <=? 57)) || ((97 <=? n) && (n <=? 122)) || (n =? 95))%N.

Lemma wordChar_lowered c :
  Js.isWordChar (Js.toLowerCaseChar c) = true -> isTokenChar (Js.toLowerCaseChar c) = true.
Proof. destruct c as [[] [] [] [] [] [] [] []]; vm_compute; done. Qed.

Lemma space_isWhiteSpace : Js.isWhiteSpace " "%char = true.
Proof. reflexivity. Qed.

(** Every piece [split(/\s+/)] yields is made of code units of the string
    that are not white space. *)
Lemma splitWhiteSpaceFrom_pieces (P : ascii -> Prop) piece inRun l :
  Forall P piece ->
  Forall (fun c => Js.isWhiteSpace c = false -> P c) l ->
  Forall (Forall P) (Js.splitWhiteSpaceFrom piece inRun l).
Proof.
  intros Hpiece Hl. revert piece inRun Hpiece.
  induction Hl as [|c l Hc Hl IH]; intros piece inRun Hpiece; simpl.
  - constructor; [by apply Forall_reverse|constructor].
  - destruct (Js.isWhiteSpace c) eqn:Hws.
    + destruct inRun; [by apply IH|].
      constructor; [by apply Forall_reverse|by apply IH].
    + apply IH. constructor; [by apply Hc|done].
Qed.

(** X13. Every token [tokenize] returns has at least 3 code units, all of
    them lower-case letters, digits or underscores; and [tokenize] does not
    tell texts apart that differ only in the case of their letters. *)
Theorem tokenize_tokens text :
  Forall (fun token =>
            3 <= Js.len (Js.chars token)
            /\ Forall (fun c => isTokenChar c = true) (Js.chars token))
         (tokenize text)
  /\ forall other,
       Js.toLowerCase (Js.chars other) = Js.toLowerCase (Js.chars text) ->
       tokenize other = tokenize text.
Proof.
  split.
  - unfold tokenize. apply Forall_forall. intros token Hin.
    apply list_elem_of_In, filter_In in Hin as [Hin Hlen].
    apply bool_decide_eq_true in Hlen. split; [lia|].
    apply list_elem_of_In, list_elem_of_fmap in Hin as (piece & -> & Hpiece).
    rewrite chars_str. clear Hlen.
    revert piece Hpiece. apply Forall_forall.
    apply splitWhiteSpaceFrom_pieces; [constructor|].
    unfold blankPunctuation, Js.toLowerCase. rewrite <- list_fmap_compose.
    apply Forall_fmap, Forall_forall. intros c _. simpl.
    destruct (Js.isWordChar (Js.toLowerCaseChar c)) eqn:Hword; simpl.
    + intros _. by apply wordChar_lowered.
    + destruct (Js.isWhiteSpace (Js.toLowerCaseChar c)) eqn:Hws; [congruence|].
      rewrite space_isWhiteSpace. done.
  - intros other Hother. unfold tokenize. by rewrite Hother.
Qed.

End Tokens.

(** ** Document frequencies *)

Section Idf.
Import EmbeddingService.
Implicit Types (documents : list (list string)) (tokens : list string)
  (token k : string) (service : SimpleEmbeddingService)
  (vocabulary : list (string * Z)) (idfScores : list (string * R)).

(** The service once [updateIDF] has processed the documents, oldest
    first. *)
Definition processed documents : SimpleEmbeddingService :=
  foldl (fun service tokens => updateIDF tokens service) constructor documents.

(** The number of documents a token occurs in. *)
Definition documentFrequency token documents : Z :=
  Js.len (filter (fun tokens => token ∈ tokens) documents).

Lemma documentFrequency_bounds token documents :
  0 <= documentFrequency token documents <= Js.len documents.
Proof.
  unfold documentFrequency, Js.len.
  pose proof (length_filter (fun tokens => token ∈ tokens) documents). lia.
Qed.

Lemma documentFrequency_snoc token documents tokens :
  documentFrequency token (documents ++ [tokens])
  = documentFrequency token documents + (if decide (token ∈ tokens) then 1 else 0).
Proof.
  unfold documentFrequency, Js.len. rewrite filter_app, length_app.
  rewrite filter_cons, filter_nil. destruct (decide (token ∈ tokens)); simpl; lia.
Qed.

(** The step of the first loop of [updateIDF]. *)
Definition seeToken vocabulary token : list (string * Z) :=
  let vocabulary :=
    if negb (Js.mapHas vocabulary token) then Js.mapSet vocabulary token 0
    else vocabulary in
  Js.mapSet vocabulary token (default 0 (Js.mapGet vocabulary token) + 1).

Lemma seeToken_get vocabulary token k :
  Js.mapGet (seeToken vocabulary token) k
  = if decide (token = k) then Some (default 0 (Js.mapGet vocabulary k) + 1)
    else Js.mapGet vocabulary k.
Proof.
  unfold seeToken. destruct (Js.mapHas vocabulary token) eqn:Hhas; simpl.
  - rewrite mapGet_mapSet. by destruct (decide (token = k)) as [->|?].
  - assert (Js.mapGet vocabulary token = None) as Hnone.
    { unfold Js.mapHas in Hhas. apply bool_decide_eq_false in Hhas.
      destruct (Js.mapGet vocabulary token) eqn:Hget; [|done].
      destruct Hhas. by eexists. }
    rewrite !mapGet_mapSet.
    destruct (decide (token = k)) as [->|?]; [|done].
    rewrite (decide_True (P := k = k)) by done. by rewrite Hnone.
Qed.

Lemma seeToken_NoDup vocabulary token :
  NoDup (fst <$> vocabulary) -> NoDup (fst <$> seeToken vocabulary token).
Proof.
  intros Hnd. unfold seeToken. apply mapSet_NoDup.
  destruct (negb _); [by apply mapSet_NoDup|done].
Qed.

Lemma seeTokens_NoDup vocabulary tokens :
  NoDup (fst <$> vocabulary) -> NoDup (fst <$> foldl seeToken vocabulary tokens).
Proof.
  revert vocabulary. induction tokens as [|token tokens IH]; intros vocabulary Hnd;
    [done|]. simpl. by apply IH, seeToken_NoDup.
Qed.

Lemma seeTokens_get vocabulary tokens k :
  NoDup tokens ->
  Js.mapGet (foldl seeToken vocabulary tokens) k
  = if decide (k ∈ tokens) then Some (default 0 (Js.mapGet vocabulary k) + 1)
    else Js.mapGet vocabulary k.
Proof.
  revert vocabulary. induction tokens as [|token tokens IH]; intros vocabulary Hnd.
  - by rewrite decide_False by apply not_elem_of_nil.
  - apply NoDup_cons in Hnd as [Hfresh Hnd]. simpl.
    rewrite IH, seeToken_get by done.
    destruct (decide (token = k)) as [->|Hne].
    + rewrite (decide_False (P := k ∈ tokens)) by done.
      by rewrite (decide_True (P := k ∈ k :: tokens)) by left.
    + destruct (decide (k ∈ tokens)) as [Hin|Hnot].
      * by rewrite (decide_True (P := k ∈ token :: tokens)) by (by right).
      * rewrite (decide_False (P := k ∈ token :: tokens)); [done|].
        rewrite not_elem_of_cons. split; [congruence|done].
Qed.

(** The second loop of [updateIDF], for a score [f] of the count. *)
Lemma scores_get (f : Z -> R) idfScores vocabulary k :
  NoDup (fst <$> vocabulary) ->
  Js.mapGet
    (foldl (fun idfScores (entry : string * Z) =>
              Js.mapSet idfScores entry.1 (f entry.2))
           idfScores vocabulary) k
  = match Js.mapGet vocabulary k with
    | Some count => Some (f count)
    | None => Js.mapGet idfScores k
    end.
Proof.
  revert idfScores. induction vocabulary as [|[k0 c0] vocabulary IH];
    intros idfScores Hnd; [done|].
  rewrite fmap_cons in Hnd. apply NoDup_cons in Hnd as [Hfresh Hnd].
  simpl. rewrite IH by done. rewrite mapGet_cons, mapGet_mapSet.
  destruct (decide (k0 = k)) as [->|Hne]; [|done].
  simpl in Hfresh. apply mapGet_None in Hfresh. by rewrite Hfresh.
Qed.

Lemma updateIDF_unfold tokens service :
  updateIDF tokens service
  = let vocabulary := foldl seeToken (vocabulary service) (uniqueTokens tokens) in
    let documentCount := documentCount service + 1 in
    {| vocabulary := vocabulary;
       idfScores :=
         foldl (fun idfScores (entry : string * Z) =>
                  Js.mapSet idfScores entry.1 (ln (IZR documentCount / IZR entry.2)))
               (idfScores service) vocabulary;
       documentCount := documentCount |}.
Proof. done. Qed.

(** What holds of the service after any sequence of documents. *)
Definition counted documents service : Prop :=
  documentCount service = Js.len documents
  /\ NoDup (fst <$> vocabulary service)
  /\ (forall token,
        Js.mapGet (vocabulary service) token
        = if decide (0 < documentFrequency token documents)
          then Some (documentFrequency token documents) else None)
  /\ (forall token,
        Js.mapGet (idfScores service) token
        = (fun count => ln (IZR (documentCount service) / IZR count))
          <$> Js.mapGet (vocabulary service) token).

Lemma counted_constructor : counted [] constructor.
Proof.
  split; [done|]. split; [constructor|]. split; intros token; [|done].
  rewrite decide_False; [done|]. unfold documentFrequency, Js.len. simpl. lia.
Qed.

Lemma counted_updateIDF documents service tokens :
  counted documents service ->
  counted (documents ++ [tokens]) (updateIDF tokens service).
Proof.
  intros (Hcount & Hnd & Hvocabulary & Hscores).
  rewrite updateIDF_unfold. cbv zeta.
  assert (Hnd' : NoDup (fst <$> foldl seeToken (vocabulary service) (uniqueTokens tokens)))
    by (by apply seeTokens_NoDup).
  assert (Hget : forall token,
    Js.mapGet (foldl seeToken (vocabulary service) (uniqueTokens tokens)) token
    = if decide (0 < documentFrequency token (documents ++ [tokens]))
      then Some (documentFrequency token (documents ++ [tokens])) else None).
  { intros token. rewrite seeTokens_get by apply uniqueTokens_NoDup.
    rewrite documentFrequency_snoc, Hvocabulary.
    pose proof (documentFrequency_bounds token documents) as Hdf.
    destruct (decide (token ∈ uniqueTokens tokens)) as [Hin|Hnot].
    - apply (proj1 (uniqueTokens_elem tokens token)) in Hin.
      rewrite (decide_True (P := token ∈ tokens)) by done.
      rewrite (decide_True (P := 0 < _ + 1)) by lia.
      destruct (decide (0 < documentFrequency token documents)); simpl; f_equal; lia.
    - rewrite uniqueTokens_elem in Hnot.
      rewrite (decide_False (P := token ∈ tokens)) by done.
      rewrite Z.add_0_r. done. }
  split; [simpl; rewrite Hcount; unfold Js.len; rewrite length_app; simpl; lia|].
  split; [done|]. split; [done|].
  intros token. cbn [EmbeddingService.idfScores EmbeddingService.vocabulary
                     EmbeddingService.documentCount].
  rewrite (scores_get (fun count => ln (IZR (documentCount service + 1) / IZR count)))
    by done.
  destruct (Js.mapGet (foldl seeToken _ _) token) as [count|] eqn:Hcounted; [done|].
  simpl. rewrite Hscores.
  rewrite seeTokens_get in Hcounted by apply uniqueTokens_NoDup.
  destruct (decide (token ∈ uniqueTokens tokens)); [done|]. by rewrite Hcounted.
Qed.

Lemma processed_snoc documents tokens :
  processed (documents ++ [tokens]) = updateIDF tokens (processed documents).
Proof. unfold processed. by rewrite foldl_app. Qed.

Lemma processed_counted documents : counted documents (processed documents).
Proof.
  induction documents as [|tokens documents IH] using rev_ind.
  - apply counted_constructor.
  - rewrite processed_snoc. by apply counted_updateIDF.
Qed.

Lemma ln_nonneg (x : R) : (1 <= x)%R -> (0 <= ln x)%R.
Proof.
  intros [Hlt|<-]; [|rewrite ln_1; lra].
  left. rewrite <- ln_1. apply ln_increasing; lra.
Qed.

Lemma counted_score documents service token count :
  counted documents service ->
  Js.mapGet (vocabulary service) token = Some count ->
  1 <= count <= documentCount service
  /\ count = documentFrequency token documents
  /\ Js.mapGet (idfScores service) token
     = Some (ln (IZR (documentCount service) / IZR count))
  /\ (0 <= ln (IZR (documentCount service) / IZR count))%R.
Proof.
  intros (Hcount & Hnd & Hvocabulary & Hscores) Hget.
  rewrite Hvocabulary in Hget.
  pose proof (documentFrequency_bounds token documents) as Hdf.
  destruct (decide (0 < documentFrequency token documents)); [|done].
  injection Hget as <-.
  split; [lia|]. split; [done|].
  split; [rewrite Hscores, Hvocabulary; by rewrite decide_True|].
  apply ln_nonneg.
  assert (0 < IZR (documentFrequency token documents))%R by (by apply IZR_lt).
  assert (IZR (documentFrequency token documents) <= IZR (documentCount service))%R
    by (apply IZR_le; lia).
  apply (Rmult_le_reg_r (IZR (documentFrequency token documents))); [done|].
  unfold Rdiv. rewrite Rmult_assoc, Rinv_l by lra. lra.
Qed.

(** X14. After [updateIDF] has processed any sequence of documents,
    starting from the new service: [documentCount] is the number of
    documents; the vocabulary has one entry for every token that occurs in
    some document, and its count is the number of documents the token
    occurs in, so between 1 and [documentCount]; and the score of every
    vocabulary token is [ln (documentCount / count)], which is not
    negative.  Tokens outside the vocabulary have no score. *)
Theorem updateIDF_document_frequencies documents :
  let service := processed documents in
  documentCount service = Js.len documents
  /\ NoDup (fst <$> vocabulary service)
  /\ (forall token,
        (exists tokens, tokens ∈ documents /\ token ∈ tokens)
        <-> is_Some (Js.mapGet (vocabulary service) token))
  /\ (forall token count,
        Js.mapGet (vocabulary service) token = Some count ->
        count = documentFrequency token documents
        /\ 1 <= count <= documentCount service
        /\ Js.mapGet (idfScores service) token
           = Some (ln (IZR (documentCount service) / IZR count))
        /\ (0 <= ln (IZR (documentCount service) / IZR count))%R)
  /\ (forall token,
        Js.mapGet (vocabulary service) token = None ->
        Js.mapGet (idfScores service) token = None).
Proof.
  intros service. pose proof (processed_counted documents) as Hcounted.
  fold service in Hcounted.
  pose proof Hcounted as (Hcount & Hnd & Hvocabulary & Hscores).
  split; [done|]. split; [done|]. split; [|split].
  - intros token. rewrite Hvocabulary.
    assert (Hdf : 0 < documentFrequency token documents
                  <-> exists tokens, tokens ∈ documents /\ token ∈ tokens).
    { unfold documentFrequency, Js.len. split.
      - intros Hpos.
        destruct (filter (fun tokens => token ∈ tokens) documents) as [|tokens rest] eqn:Hf;
          [simpl in Hpos; lia|].
        assert (Hin : tokens ∈ filter (fun tokens => token ∈ tokens) documents)
          by (rewrite Hf; left).
        apply list_elem_of_filter in Hin as [? ?]. by exists tokens.
      - intros (tokens & Hin & Htoken).
        assert (Hf : tokens ∈ filter (fun tokens => token ∈ tokens) documents)
          by (by apply list_elem_of_filter).
        destruct (filter _ documents); [by apply elem_of_nil in Hf|]. simpl. lia. }
    rewrite <- Hdf.
    destruct (decide (0 < documentFrequency token documents)).
    + split; [by eexists|done].
    + split; [done|by intros [? ?]].
  - intros token count Hget.
    destruct (counted_score documents service token count Hcounted Hget)
      as (? & ? & ? & ?). done.
  - intros token Hnone. by rewrite Hscores, Hnone.
Qed.

End Idf.

(** ** The vectors of texts *)

Section Vectors.
Import EmbeddingService.
Implicit Types (documents : list (list string)) (service : SimpleEmbeddingService)
  (text other : string).

Lemma generateEmbedding_length service text :
  length (generateEmbedding service text) = 100%nat.
Proof.
  unfold generateEmbedding. rewrite length_take, length_app, length_replicate.
  rewrite length_fmap, length_take. lia.
Qed.

Lemma calculateTF_get tokens token :
  Js.mapGet (calculateTF tokens) token
  = if decide (token ∈ tokens)
    then Some (IZR (occurrences token tokens) / IZR (Js.len tokens))%R
    else None.
Proof.
  rewrite calculateTF_tally.
  rewrite (mapGet_scaled (fun c => (IZR c / IZR (Js.len tokens))%R)), tally_get.
  destruct (decide (token ∈ tokens)); [|done]. simpl. by rewrite Z.add_0_l.
Qed.

Lemma calculateTF_nonneg tokens token :
  (0 <= default 0 (Js.mapGet (calculateTF tokens) token))%R.
Proof.
  rewrite calculateTF_get. destruct (decide (token ∈ tokens)) as [Hin|]; simpl; [|lra].
  apply occurrences_pos in Hin.
  pose proof (occurrences_le token tokens).
  assert (0 < IZR (Js.len tokens))%R by (apply IZR_lt; lia).
  assert (0 < IZR (occurrences token tokens))%R by (by apply IZR_lt).
  left. by apply Rdiv_lt_0_compat.
Qed.

Lemma scores_nonneg documents token :
  (0 <= default 0 (Js.mapGet (idfScores (processed documents)) token))%R.
Proof.
  pose proof (processed_counted documents) as Hcounted.
  destruct (Js.mapGet (vocabulary (processed documents)) token) as [count|] eqn:Hget.
  - destruct (counted_score _ _ _ _ Hcounted Hget) as (_ & _ & -> & Hpos). done.
  - destruct Hcounted as (_ & _ & _ & Hscores). rewrite Hscores, Hget. simpl. lra.
Qed.

Lemma generateEmbedding_nonneg documents text :
  Forall (fun x => (0 <= x)%R) (generateEmbedding (processed documents) text).
Proof.
  unfold generateEmbedding. apply Forall_take, Forall_app. split.
  - apply Forall_fmap, Forall_forall. intros token _. simpl.
    apply Rmult_le_pos; [apply calculateTF_nonneg|apply scores_nonneg].
  - apply Forall_replicate. lra.
Qed.

(** X16. [generateEmbedding] always returns a vector of exactly 100
    numbers, whatever the vocabulary and the text; before any document has
    been processed they are all 0, and once [updateIDF] has processed any
    sequence of documents no entry is negative. *)
Theorem generateEmbedding_vector service text :
  length (generateEmbedding service text) = 100%nat
  /\ generateEmbedding constructor text = replicate 100 0%R
  /\ forall documents,
       Forall (fun x => (0 <= x)%R) (generateEmbedding (processed documents) text).
Proof.
  split; [apply generateEmbedding_length|]. split; [done|].
  intros documents. apply generateEmbedding_nonneg.
Qed.

End Vectors.

(** ** Related messages *)

Section Related.
Import IndexedDBService EmbeddingService.
Implicit Types (w : World EmbeddingRecord) (service : SimpleEmbeddingService).

(** What [getRelatedMessages] resolves to once the embeddings of the chat
    are read. *)
Definition related (messageEmbedding : list R) (messageText : string)
    (chatEmbeddings : list EmbeddingRecord) (limit : Z) : list SearchResult :=
  Js.slice0
    (Js.sort bySimilarity
       (List.filter
          (fun result =>
             bool_decide (similarity result > 0.2)%R
             && negb (Js.str_eq (text (record result)) messageText))
          ((fun embedding =>
              {| record := embedding;
                 similarity :=
                   cosineSimilarity messageEmbedding
                     (EmbeddingService.embedding embedding) |})
           <$> chatEmbeddings)))
    limit.

Lemma related_scored messageEmbedding messageText chatEmbeddings limit :
  Forall (fun result =>
            (similarity result > 0.2)%R
            /\ text (record result) <> messageText
            /\ record result ∈ chatEmbeddings
            /\ similarity result
               = cosineSimilarity messageEmbedding (embedding (record result)))
         (related messageEmbedding messageText chatEmbeddings limit).
Proof.
  unfold related.
  match goal with |- context [Js.slice0 ?l limit] =>
    destruct (slice0_prefix l limit) as [n ->] end.
  apply Forall_take, sort_Forall, Forall_forall. intros result Hin.
  apply list_elem_of_In, filter_In in Hin as [Hin Hkeep].
  apply andb_true_iff in Hkeep as [Hsim Htext].
  apply bool_decide_eq_true in Hsim.
  apply negb_true_iff in Htext. unfold Js.str_eq in Htext.
  apply bool_decide_eq_false in Htext.
  apply list_elem_of_In, list_elem_of_fmap in Hin as (e & -> & Hin). done.
Qed.

Lemma related_sorted messageEmbedding messageText chatEmbeddings limit :
  StronglySorted (fun a b => similarity a >= similarity b)%R
    (related messageEmbedding messageText chatEmbeddings limit).
Proof.
  unfold related.
  match goal with |- context [Js.slice0 ?l limit] =>
    destruct (slice0_prefix l limit) as [n ->] end.
  apply take_StronglySorted.
  eapply StronglySorted_weaken;
    [|apply (sort_sorted bySimilarity bySimilarity_total bySimilarity_transitive)].
  intros a b. apply bySimilarity_true.
Qed.

Lemma getRelatedMessages_run service messageText chatId limit w :
  getRelatedMessages service messageText chatId limit w
  = match getEmbeddingsByChat chatId w with
    | (Resolved chatEmbeddings, w') =>
        (Resolved (related (generateEmbedding service messageText) messageText
                     chatEmbeddings limit), w')
    | (Rejected e, w') => (Resolved [], w')
    end.
Proof.
  unfold getRelatedMessages, tryCatch, await.
  by destruct (getEmbeddingsByChat chatId w) as [[chatEmbeddings|e] w'].
Qed.

(** The records [getEmbeddingsByChat] resolves to are records of the
    store that belong to the chat. *)
Lemma getEmbeddingsByChat_records chatId w chatEmbeddings w' :
  getEmbeddingsByChat chatId w = (Resolved chatEmbeddings, w') ->
  Forall (fun e => EmbeddingService.chatId e = chatId
                   /\ exists store k,
                        opened w !! STORES EMBEDDINGS = Some store
                        /\ store !! k = Some e)
         chatEmbeddings.
Proof.
  unfold getEmbeddingsByChat, await. rewrite initDB_opened.
  unfold transaction, withDatabase. simpl.
  destruct (opened w !! "embeddings") as [store|] eqn:Hs; [|done].
  intros [= <- _]. apply Forall_forall. intros e Hin.
  apply list_elem_of_In, filter_In in Hin as [Hin Hchat].
  unfold Js.str_eq in Hchat. apply bool_decide_eq_true in Hchat.
  split; [done|]. exists store.
  apply list_elem_of_In, list_elem_of_fmap in Hin as ([k e'] & -> & Hin).
  exists k. split; [done|].
  rewrite sort_Permutation in Hin. by apply elem_of_map_to_list.
Qed.

(** X17. [getRelatedMessages] always resolves (it never rejects), to the
    empty list when the read of the stored embeddings rejects.  Every
    result is a stored record of the chat whose text is not the text of the
    given message and whose similarity to the vector of that text is above
    0.2; the results come in descending order of similarity, and there
    are at most [limit] of them, [limit] being a count. *)
Theorem getRelatedMessages_results service messageText chatId limit w :
  exists results w',
    getRelatedMessages service messageText chatId limit w = (Resolved results, w')
    /\ (forall e w1, getEmbeddingsByChat chatId w = (Rejected e, w1) -> results = [])
    /\ Forall (fun result =>
                 (similarity result > 0.2)%R
                 /\ similarity result
                    = cosineSimilarity (generateEmbedding service messageText)
                        (embedding (record result))
                 /\ text (record result) <> messageText
                 /\ EmbeddingService.chatId (record result) = chatId
                 /\ exists store k,
                      opened w !! STORES EMBEDDINGS = Some store
                      /\ store !! k = Some (record result))
              results
    /\ StronglySorted (fun a b => similarity a >= similarity b)%R results
    /\ (0 <= limit -> Js.len results <= limit).
Proof.
  rewrite getRelatedMessages_run.
  destruct (getEmbeddingsByChat chatId w) as [[chatEmbeddings|e] w'] eqn:Hread.
  - do 2 eexists. split; [done|]. split; [by intros e w1 [=]|].
    split; [|split; [apply related_sorted|apply slice0_length]].
    pose proof (getEmbeddingsByChat_records _ _ _ _ Hread) as Hrecords.
    rewrite Forall_forall in Hrecords.
    eapply Forall_impl; [apply related_scored|].
    intros result (Hsim & Htext & Hin & Hcos).
    destruct (Hrecords _ Hin) as [Hchat Hstored]. done.
  - exists [], w'. split; [done|]. split; [done|].
    split; [constructor|]. split; [constructor|]. unfold Js.len. simpl. lia.
Qed.

End Related.

(** ** Sentiment *)

Section SentimentScores.
Import EmbeddingService.
Implicit Types (words : list string) (word text : string).

(** The words [analyzeSentiment] looks at. *)
Definition wordsOf text : list string :=
  Js.str <$> Js.splitWhiteSpace (Js.toLowerCase (Js.chars text)).

Lemma words_disjoint word : word ∈ positiveWords -> word ∉ negativeWords.
Proof.
  intros Hpos Hneg. revert Hneg.
  unfold positiveWords in Hpos.
  repeat (apply elem_of_cons in Hpos as [->|Hpos];
          [apply (bool_decide_unpack (_ ∉ negativeWords)); vm_compute; exact I|]).
  by apply elem_of_nil in Hpos.
Qed.

Lemma scoreWords words p n :
  foldl scoreWord (p, n) words
  = (p + Js.len (filter (fun word => word ∈ positiveWords) words),
     n + Js.len (filter (fun word => word ∈ negativeWords) words)).
Proof.
  revert p n. induction words as [|word words IH]; intros p n.
  - unfold Js.len. simpl. f_equal; lia.
  - simpl. rewrite !filter_cons. case_bool_decide as Hpos.
    + rewrite IH. rewrite decide_True by done.
      rewrite decide_False by (by apply words_disjoint).
      unfold Js.len. simpl length. f_equal; lia.
    + rewrite (decide_False (P := word ∈ positiveWords)) by done.
      case_bool_decide as Hneg.
      * rewrite IH, decide_True by done. unfold Js.len. simpl length. f_equal; lia.
      * rewrite IH, decide_False by done. done.
Qed.

(** X18. [analyzeSentiment] splits the text, in lower case, at white
    space; [positiveScore] is the number of words that are in the list of
    positive words, [negativeScore] the number of those in the list of
    negative words, and [totalScore] their difference.  The sentiment is
    ['positive'], ['negative'] or ['neutral'] as the positive score is
    above, below or equal to the negative one, and the confidence is
    [min (0.9, 0.5 + 0.1 * |totalScore|)]: 0.5 exactly for a neutral text
    and never more than 0.9. *)
Theorem analyzeSentiment_scores text :
  let result := analyzeSentiment text in
  positiveScore result
  = Js.len (filter (fun word => word ∈ positiveWords) (wordsOf text))
  /\ negativeScore result
     = Js.len (filter (fun word => word ∈ negativeWords) (wordsOf text))
  /\ totalScore result = positiveScore result - negativeScore result
  /\ (sentiment result = "positive" <-> negativeScore result < positiveScore result)
  /\ (sentiment result = "negative" <-> positiveScore result < negativeScore result)
  /\ (sentiment result = "neutral" <-> positiveScore result = negativeScore result)
  /\ confidence result = Rmin 0.9 (0.5 + 0.1 * IZR (Z.abs (totalScore result)))
  /\ (0.5 <= confidence result <= 0.9)%R
  /\ (confidence result = 0.5%R <-> sentiment result = "neutral").
Proof.
  intros result. unfold result, analyzeSentiment. fold (wordsOf text).
  rewrite scoreWords. rewrite !Z.add_0_l.
  set (p := Js.len (filter (fun word => word ∈ positiveWords) (wordsOf text))).
  set (n := Js.len (filter (fun word => word ∈ negativeWords) (wordsOf text))).
  assert (Hmin : forall k : Z, 1 <= k ->
            (0.5 < Rmin 0.9 (0.5 + 0.1 * IZR k) <= 0.9)%R).
  { intros k Hk. apply IZR_le in Hk.
    unfold Rmin. destruct (Rle_dec _ _); lra. }
  case_bool_decide as Hpos; [|case_bool_decide as Hneg]; simpl.
  - rewrite Z.abs_eq by lia. rewrite (Rmult_comm (IZR (p - n))).
    specialize (Hmin (p - n) ltac:(lia)).
    repeat split; try done; try lia; try lra; try (intros [=]).
  - rewrite (Rmult_comm (IZR (Z.abs (p - n)))).
    specialize (Hmin (Z.abs (p - n)) ltac:(lia)).
    repeat split; try done; try lia; try lra; try (intros [=]).
  - assert (p = n) as Heq by lia. rewrite Heq, Z.sub_diag. simpl.
    rewrite Rmult_0_r, Rplus_0_r.
    assert (Rmin 0.9 0.5 = 0.5)%R as -> by (unfold Rmin; destruct (Rle_dec _ _); lra).
    repeat split; try done; try lia; try lra.
Qed.

End SentimentScores.

(** ** Topics *)

Section Topics.
Import EmbeddingService.
Implicit Types (tokens : list string) (token text : string)
  (frequencies : list (string * Z)).

(** The tokens [extractTopics] counts: no stop words, more than 3 code
    units. *)
Definition counts token : Prop :=
  (token ∉ stopWords) /\ Js.len (Js.chars token) > 3.

#[local] Instance counts_dec token : Decision (counts token).
Proof. unfold counts. apply _. Defined.

(** The comparison [(a, b) => b[1] - a[1]]. *)
Definition byCount (a b : string * Z) : bool := bool_decide (b.2 - a.2 <= 0).

Lemma byCount_true a b : byCount a b = true <-> b.2 <= a.2.
Proof. unfold byCount. rewrite bool_decide_eq_true. lia. Qed.

Lemma byCount_total a b : byCount a b = false -> byCount b a = true.
Proof. unfold byCount. rewrite bool_decide_eq_false, bool_decide_eq_true. lia. Qed.

Lemma byCount_transitive a b c :
  byCount a b = true -> byCount b c = true -> byCount a c = true.
Proof. rewrite !byCount_true. lia. Qed.

(** The frequency map of [extractTopics]. *)
Definition topicCounts tokens : list (string * Z) :=
  foldl (fun frequency token =>
           if negb (bool_decide (token ∈ stopWords))
              && bool_decide (Js.len (Js.chars token) > 3)
           then Js.mapSet frequency token (default 0 (Js.mapGet frequency token) + 1)
           else frequency)
        [] tokens.

Lemma topicCounts_tally_from frequencies tokens :
  foldl (fun frequency token =>
           if negb (bool_decide (token ∈ stopWords))
              && bool_decide (Js.len (Js.chars token) > 3)
           then Js.mapSet frequency token (default 0 (Js.mapGet frequency token) + 1)
           else frequency)
        frequencies tokens
  = foldl countToken frequencies (filter counts tokens).
Proof.
  revert frequencies. induction tokens as [|token tokens IH]; intros frequencies; [done|].
  simpl. rewrite filter_cons. destruct (decide (counts token)) as [[Hstop Hlen]|Hnot].
  - rewrite (bool_decide_eq_false_2 (token ∈ stopWords)) by done.
    rewrite (bool_decide_eq_true_2 (Js.len (Js.chars token) > 3)) by done.
    simpl. apply IH.
  - assert (negb (bool_decide (token ∈ stopWords))
            && bool_decide (Js.len (Js.chars token) > 3) = false) as ->; [|apply IH].
    apply andb_false_iff.
    destruct (decide (token ∈ stopWords)) as [?|Hstop].
    + left. by rewrite bool_decide_eq_true_2.
    + right. apply bool_decide_eq_false_2. intros ?. by apply Hnot.
Qed.

Lemma topicCounts_tally tokens :
  topicCounts tokens = foldl countToken [] (filter counts tokens).
Proof. apply topicCounts_tally_from. Qed.

Lemma occurrences_filter token tokens :
  counts token -> occurrences token (filter counts tokens) = occurrences token tokens.
Proof.
  intros Hcounts. induction tokens as [|t tokens IH]; [done|].
  rewrite filter_cons, occurrences_cons. destruct (decide (counts t)) as [?|Hnot].
  - by rewrite occurrences_cons, IH.
  - rewrite IH. destruct (decide (t = token)) as [->|?]; [done|lia].
Qed.

Lemma topicCounts_get tokens token :
  Js.mapGet (topicCounts tokens) token
  = if decide (token ∈ tokens /\ counts token)
    then Some (occurrences token tokens) else None.
Proof.
  rewrite topicCounts_tally, tally_get. simpl.
  destruct (decide (token ∈ filter counts tokens)) as [Hin|Hnot].
  - apply list_elem_of_filter in Hin as [Hcounts Hin].
    rewrite decide_True by done. by rewrite Z.add_0_l, occurrences_filter.
  - rewrite decide_False; [done|]. intros [? ?]. apply Hnot.
    by apply list_elem_of_filter.
Qed.

Lemma topicCounts_NoDup tokens : NoDup (fst <$> topicCounts tokens).
Proof.
  rewrite topicCounts_tally, tally_keys. apply (addTokens_spec [] _). constructor.
Qed.

(** The entries [extractTopics] turns into topics. *)
Definition topEntries tokens : list (string * Z) :=
  Js.slice0 (Js.sort byCount (topicCounts tokens)) 5.

Lemma topEntries_take tokens :
  topEntries tokens = take 5 (Js.sort byCount (topicCounts tokens)).
Proof. done. Qed.

Lemma extractTopics_entries text :
  extractTopics text
  = (fun entry : string * Z =>
       {| topic := entry.1;
          score := (IZR entry.2 / IZR (Js.len (tokenize text)))%R;
          frequency := entry.2 |})
    <$> topEntries (tokenize text).
Proof. done. Qed.

Lemma StronglySorted_app_between {A} (R : A -> A -> Prop) (l1 l2 : list A) x y :
  StronglySorted R (l1 ++ l2) -> x ∈ l1 -> y ∈ l2 -> R x y.
Proof.
  induction l1 as [|a l1 IH]; intros Hsorted Hx Hy; [by apply elem_of_nil in Hx|].
  simpl in Hsorted. apply StronglySorted_inv in Hsorted as [Hsorted Ha].
  apply elem_of_cons in Hx as [->|Hx]; [|by apply IH].
  rewrite Forall_forall in Ha. apply Ha, elem_of_app. by right.
Qed.

Lemma topEntries_spec tokens :
  let top := topEntries tokens in
  (length top <= 5)%nat
  /\ NoDup (fst <$> top)
  /\ StronglySorted (fun a b => b.2 <= a.2) top
  /\ (forall token count,
        (token, count) ∈ top ->
        token ∈ tokens /\ counts token /\ count = occurrences token tokens)
  /\ (forall token,
        token ∈ tokens -> counts token -> token ∉ fst <$> top ->
        length top = 5%nat
        /\ Forall (fun entry => occurrences token tokens <= entry.2) top).
Proof.
  intros top. unfold top. rewrite topEntries_take.
  set (sorted := Js.sort byCount (topicCounts tokens)).
  assert (Hperm : sorted ≡ₚ topicCounts tokens) by apply sort_Permutation.
  assert (Hsorted : StronglySorted (fun a b => b.2 <= a.2) sorted).
  { eapply StronglySorted_weaken;
      [|apply (sort_sorted byCount byCount_total byCount_transitive)].
    intros a b. apply byCount_true. }
  assert (Hnd : NoDup (fst <$> sorted))
    by (rewrite Hperm; apply topicCounts_NoDup).
  assert (Hentry : forall token count,
            (token, count) ∈ sorted
            <-> token ∈ tokens /\ counts token /\ count = occurrences token tokens).
  { intros token count. rewrite Hperm. split.
    - intros Hin. apply (mapGet_elem _ _ _ (topicCounts_NoDup tokens)) in Hin.
      rewrite topicCounts_get in Hin.
      destruct (decide (token ∈ tokens /\ counts token)) as [[? ?]|]; [|done].
      injection Hin as <-. done.
    - intros (Hin & Hcounts & ->). apply mapGet_Some_elem.
      rewrite topicCounts_get. by rewrite decide_True. }
  split; [rewrite length_take; lia|].
  split.
  { rewrite fmap_take. eapply sublist_NoDup; [exact Hnd|]. apply sublist_take. }
  split; [by apply take_StronglySorted|].
  split.
  { intros token count Hin. apply Hentry.
    apply elem_of_take in Hin as (i & Hi & _). by eapply list_elem_of_lookup_2. }
  intros token Hin Hcounts Hnot.
  assert (Hrest : (token, occurrences token tokens) ∈ drop 5 sorted).
  { assert (Hs : (token, occurrences token tokens) ∈ sorted) by (by apply Hentry).
    rewrite <- (take_drop 5 sorted) in Hs. apply elem_of_app in Hs as [Hs|Hs]; [|done].
    destruct Hnot. by apply (list_elem_of_fmap_2 fst _ (token, occurrences token tokens)). }
  split.
  - rewrite length_take. 
    assert (5 < length sorted)%nat; [|lia].
    destruct (decide (5 < length sorted)%nat) as [?|Hshort]; [done|].
    rewrite drop_ge in Hrest by lia. by apply elem_of_nil in Hrest.
  - apply Forall_forall. intros entry Hentry'.
    rewrite <- (take_drop 5 sorted) in Hsorted.
    apply (StronglySorted_app_between _ _ _ entry _ Hsorted Hentry' Hrest).
Qed.

(** X19. [extractTopics] returns at most 5 topics, no two of them the
    same.  Each is a token of the text that is not a stop word and has
    more than 3 code units; its frequency is the number of times the token
    occurs and its score that number divided by the number of all tokens,
    so above 0 and at most 1.  The topics come in descending order of
    frequency, and a token that could be a topic but is not among them
    occurs no more often than any of the 5 that are. *)
Theorem extractTopics_top text :
  let tokens := tokenize text in
  let topics := extractTopics text in
  (length topics <= 5)%nat
  /\ NoDup (topic <$> topics)
  /\ StronglySorted (fun a b => frequency b <= frequency a) topics
  /\ Forall (fun entry =>
               topic entry ∈ tokens
               /\ (topic entry ∉ stopWords)
               /\ Js.len (Js.chars (topic entry)) > 3
               /\ frequency entry = occurrences (topic entry) tokens
               /\ score entry = (IZR (frequency entry) / IZR (Js.len tokens))%R
               /\ (0 < score entry <= 1)%R)
            topics
  /\ (forall token,
        token ∈ tokens -> token ∉ stopWords -> Js.len (Js.chars token) > 3 ->
        token ∉ topic <$> topics ->
        length topics = 5%nat
        /\ Forall (fun entry => occurrences token tokens <= frequency entry) topics).
Proof.
  intros tokens topics. unfold topics. rewrite extractTopics_entries. fold tokens.
  destruct (topEntries_spec tokens) as (Hlen & Hnd & Hsorted & Hin & Htop).
  set (top := topEntries tokens) in *.
  split; [by rewrite length_fmap|].
  split; [by rewrite <- list_fmap_compose|].
  split; [by apply StronglySorted_fmap|].
  split.
  - apply Forall_fmap, Forall_forall. intros [token count] Hentry. simpl.
    destruct (Hin token count Hentry) as (Htoken & [Hstop Hlong] & ->).
    split; [done|]. split; [done|]. split; [done|]. split; [done|]. split; [done|].
    pose proof (proj1 (occurrences_pos token tokens) Htoken) as Hpos.
    pose proof (occurrences_le token tokens) as Hle.
    assert (0 < IZR (Js.len tokens))%R by (apply IZR_lt; lia).
    assert (0 < IZR (occurrences token tokens))%R by (by apply IZR_lt).
    assert (IZR (occurrences token tokens) <= IZR (Js.len tokens))%R by (by apply IZR_le).
    split; [by apply Rdiv_lt_0_compat|].
    apply (Rmult_le_reg_r (IZR (Js.len tokens))); [done|].
    unfold Rdiv. rewrite Rmult_assoc, Rinv_l by lra. lra.
  - intros token Htoken Hstop Hlong Hnot.
    destruct (Htop token Htoken (conj Hstop Hlong)) as [Hfive Hall].
    + by rewrite <- list_fmap_compose in Hnot.
    + split; [by rewrite length_fmap|]. by apply Forall_fmap.
Qed.

End Topics.

(** ** geminiService.js *)

Module GeminiService.
Import ChatLogicService.

(** The entries of the history handed to the model. *)
Record Part := { part_text : string }.

Record Content := {
  role : string;
  parts : list Part;
}.

Definition formatHistoryForGemini (messages : list Message) : list Content :=
  (fun msg =>
     {| role := if Js.str_eq (sender msg) "user" then "user" else "model";
        parts := [ {| part_text := text msg |} ] |})
  <$> messages.

(** [sanitizeHistory]: messages are shifted off a copy of the history
    while there is a first one and it is not the user's. *)
Fixpoint sanitizeHistory (history : list Message) : list Message :=
  match history with
  | [] => []
  | first :: rest =>
      if negb (Js.str_eq (sender first) "user") then sanitizeHistory rest
      else history
  end.

(** How a call into the SDK ends: with a value, with a thrown [Error], or
    with something else thrown. *)
Inductive Sdk (A : Type) :=
  | Returned (a : A)
  | ThrewError (message : string)
  | ThrewOther.
Arguments Returned {A} a.
Arguments ThrewError {A} message.
Arguments ThrewOther {A}.

(** What [sendMessage] ends with: the adapter around the SDK's stream, or
    a thrown [Error]. *)
Inductive Sent (Stream : Type) :=
  | Adapter (stream : Stream)
  | Thrown (message : string).
Arguments Adapter {Stream} stream.
Arguments Thrown {Stream} message.

Section SendMessage.
(** The key from the environment, [None] when it is not set, and the
    default system instruction. *)
Variable API_KEY : option string.
Variable GLOBAL_GEMINI_SYSTEM_INSTRUCTION : string.

(** The SDK: [getGenerativeModel] stands for the import of the module, the
    construction of the client with the key and its [getGenerativeModel]
    with the system instruction; [sendMessageStream] for [startChat] with a
    history followed by [sendMessageStream], whose stream is [None] when it
    is null or not iterable. *)
Context {Model Stream : Type}.
Variable getGenerativeModel : string -> string -> Sdk Model.
Variable sendMessageStream : Model -> list Content -> string -> Sdk (option Stream).

(** [!API_KEY]: an empty key counts as none. *)
Definition keyMissing : bool :=
  match API_KEY with
  | Some key => bool_decide (key = "")
  | None => true
  end.

Definition apiKeyError : option string :=
  if keyMissing
  then Some "API_KEY environment variable is not set. Gemini API will not be functional."
  else None.

Definition getApiKeyError : option string := apiKeyError.

Definition isGeminiAvailable : bool :=
  negb keyMissing && negb (bool_decide (is_Some apiKeyError)).

(** The body of [try] in [sendMessage]. *)
Definition trySend (messageText : string) (history : list Message)
    (activeSystemInstruction : string) : Sdk Stream :=
  match getGenerativeModel (default "" API_KEY) activeSystemInstruction with
  | Returned model =>
      let cleanedHistory := sanitizeHistory history in
      if bool_decide (Js.len cleanedHistory = 0)
         || match cleanedHistory with
            | first :: _ => negb (Js.str_eq (sender first) "user")
            | [] => false
            end
      then ThrewError "Gemini API requires the first message in history to be from the user."
      else
        match sendMessageStream model (formatHistoryForGemini cleanedHistory) messageText with
        | Returned (Some sdkStream) => Returned sdkStream
        | Returned None =>
            ThrewError "Received a null or non-iterable stream from the API."
        | ThrewError message => ThrewError message
        | ThrewOther => ThrewOther
        end
  | ThrewError message => ThrewError message
  | ThrewOther => ThrewOther
  end.

Definition sendMessage (messageText : string) (history : list Message)
    (systemInstructionOverride : option string) : Sent Stream :=
  if negb isGeminiAvailable then
    Thrown (default "Gemini AI client is not available." apiKeyError)
  else if bool_decide (Js.trim (Js.chars messageText) = []) then
    Thrown "Message text cannot be empty."
  else
    let activeSystemInstruction :=
      match systemInstructionOverride with
      | Some override =>
          if negb (bool_decide (override = ""))
             && negb (bool_decide (Js.trim (Js.chars override) = []))
          then override else GLOBAL_GEMINI_SYSTEM_INSTRUCTION
      | None => GLOBAL_GEMINI_SYSTEM_INSTRUCTION
      end in
    match trySend messageText history activeSystemInstruction with
    | Returned stream => Adapter stream
    | ThrewError message => Thrown ("Gemini API error: " +:+ message)
    | ThrewOther => Thrown "Unknown error sending message to Gemini API"
    end.

End SendMessage.

End GeminiService.

Section GeminiHistory.
Import ChatLogicService GeminiService.
Implicit Types (history dropped : list Message) (m first : Message).

Lemma sanitizeHistory_split history :
  exists dropped,
    history = dropped ++ sanitizeHistory history
    /\ Forall (fun m => sender m <> "user") dropped.
Proof.
  induction history as [|m history (dropped & Heq & Hdropped)]; [by exists []|].
  simpl. unfold Js.str_eq. case_bool_decide as Hm; simpl.
  - by exists [].
  - exists (m :: dropped). split; [simpl; by rewrite <- Heq|by constructor].
Qed.

Lemma sanitizeHistory_head history first :
  head (sanitizeHistory history) = Some first -> sender first = "user".
Proof.
  induction history as [|m history IH]; [done|].
  simpl. unfold Js.str_eq. case_bool_decide as Hm; simpl; [|done].
  by intros [= <-].
Qed.

Lemma sanitizeHistory_nil history :
  sanitizeHistory history = [] <-> forall m, m ∈ history -> sender m <> "user".
Proof.
  induction history as [|m history IH].
  - split; [intros _ m Hm; by apply elem_of_nil in Hm|done].
  - simpl. unfold Js.str_eq. case_bool_decide as Hm; simpl.
    + split; [done|]. intros Hall. destruct (Hall m); [left|done].
    + rewrite IH. split.
      * intros Hall m' Hm'. apply elem_of_cons in Hm' as [->|?]; [done|by apply Hall].
      * intros Hall m' Hm'. apply Hall. by right.
Qed.

(** X20. [sanitizeHistory] returns the history without its leading
    messages that are not the user's: what it drops has no message of
    sender ['user'], what it keeps is empty or starts with one, and it is
    empty exactly when the history has no such message; so it is for the
    messages of a session fresh from [createNewChatSession].  Sanitizing
    twice is sanitizing once.  [formatHistoryForGemini] keeps the number
    and the order of the messages and gives the role ['user'] to those of
    sender ['user'] and ['model'] to all others, so a sanitized and
    formatted history that is not empty starts with role ['user']. *)
Theorem sanitizeHistory_starts_with_user history :
  (exists dropped,
      history = dropped ++ sanitizeHistory history
      /\ Forall (fun m => sender m <> "user") dropped)
  /\ (forall first, head (sanitizeHistory history) = Some first -> sender first = "user")
  /\ (sanitizeHistory history = [] <-> forall m, m ∈ history -> sender m <> "user")
  /\ sanitizeHistory (sanitizeHistory history) = sanitizeHistory history
  /\ (forall timestamp, sanitizeHistory (messages (createNewChatSession timestamp)) = [])
  /\ length (formatHistoryForGemini history) = length history
  /\ (forall (i : nat) m,
        history !! i = Some m ->
        exists content,
          formatHistoryForGemini history !! i = Some content
          /\ parts content = [ {| part_text := text m |} ]
          /\ (sender m = "user" -> role content = "user")
          /\ (sender m <> "user" -> role content = "model"))
  /\ forall content,
       head (formatHistoryForGemini (sanitizeHistory history)) = Some content ->
       role content = "user".
Proof.
  split; [apply sanitizeHistory_split|].
  split; [apply sanitizeHistory_head|].
  split; [apply sanitizeHistory_nil|].
  split.
  { destruct (sanitizeHistory history) as [|first rest] eqn:Hs; [done|].
    pose proof (sanitizeHistory_head history first) as Hfirst.
    rewrite Hs in Hfirst. specialize (Hfirst eq_refl).
    simpl. unfold Js.str_eq. by rewrite bool_decide_eq_true_2. }
  split; [done|].
  split; [apply length_fmap|].
  split.
  { intros i m Hi. unfold formatHistoryForGemini. rewrite list_lookup_fmap, Hi. simpl.
    eexists. split; [done|]. split; [done|]. unfold Js.str_eq.
    split; intros Hm; [by rewrite bool_decide_eq_true_2|by rewrite bool_decide_eq_false_2]. }
  intros content. destruct (sanitizeHistory history) as [|first rest] eqn:Hs; [done|].
  pose proof (sanitizeHistory_head history first) as Hfirst.
  rewrite Hs in Hfirst. specialize (Hfirst eq_refl).
  simpl. intros [= <-]. simpl. unfold Js.str_eq. by rewrite bool_decide_eq_true_2.
Qed.

End GeminiHistory.

Section GeminiSend.
Import ChatLogicService GeminiService.
Variable API_KEY : option string.
Variable GLOBAL_GEMINI_SYSTEM_INSTRUCTION : string.
Context {Model Stream : Type}.
Variable getGenerativeModel : string -> string -> Sdk Model.
Implicit Types (sendMessageStream : Model -> list Content -> string -> Sdk (option Stream))
  (history : list Message) (messageText : string).

(** The key [sendMessage] hands to the SDK. *)
Definition usableKey (key : string) : Prop := API_KEY = Some key /\ key <> "".

Lemma isGeminiAvailable_key :
  isGeminiAvailable API_KEY = true <-> exists key, usableKey key.
Proof.
  unfold isGeminiAvailable, apiKeyError, keyMissing, usableKey.
  destruct API_KEY as [key|]; simpl.
  - case_bool_decide as Hkey; simpl.
    + split; [done|]. intros (key' & [= <-] & ?). done.
    + split; [|done]. intros _. by exists key.
  - split; [done|]. by intros (key & [=] & _).
Qed.

(** X21. [sendMessage] throws, without calling the SDK, when no API key is
    set and when the message is blank.  It hands a history to the SDK only
    after sanitizing it, and only when the sanitized history starts with a
    message of the user, which then has the role ['user']: for a history
    without any message of the user, such as that of a session fresh from
    [createNewChatSession], it throws whatever the SDK would answer.  Every
    error thrown after the two entry checks is wrapped: its message starts
    with ["Gemini API error: "], or it is the message for a thrown value
    that is not an [Error]. *)
Theorem sendMessage_guards sendMessageStream messageText history override :
  let send := sendMessage API_KEY GLOBAL_GEMINI_SYSTEM_INSTRUCTION
                getGenerativeModel sendMessageStream in
  (isGeminiAvailable API_KEY = false ->
     send messageText history override
     = Thrown "API_KEY environment variable is not set. Gemini API will not be functional.")
  /\ (isGeminiAvailable API_KEY = true -> Js.trim (Js.chars messageText) = [] ->
        send messageText history override = Thrown "Message text cannot be empty.")
  /\ (forall stream,
        send messageText history override = Adapter stream ->
        isGeminiAvailable API_KEY = true
        /\ Js.trim (Js.chars messageText) <> []
        /\ exists key instruction model first,
             usableKey key
             /\ getGenerativeModel key instruction = Returned model
             /\ head (sanitizeHistory history) = Some first
             /\ sender first = "user"
             /\ (role <$> head (formatHistoryForGemini (sanitizeHistory history)))
                = Some "user"
             /\ sendMessageStream model
                  (formatHistoryForGemini (sanitizeHistory history)) messageText
                = Returned (Some stream))
  /\ ((forall m, m ∈ history -> sender m <> "user") ->
        (exists message, send messageText history override = Thrown message)
        /\ forall other : Model -> list Content -> string -> Sdk (option Stream),
             sendMessage API_KEY GLOBAL_GEMINI_SYSTEM_INSTRUCTION
               getGenerativeModel other messageText history override
             = send messageText history override)
  /\ (forall timestamp,
        exists message,
          send messageText (messages (createNewChatSession timestamp)) override
          = Thrown message)
  /\ (forall message,
        send messageText history override = Thrown message ->
        isGeminiAvailable API_KEY = true -> Js.trim (Js.chars messageText) <> [] ->
        (exists cause, message = "Gemini API error: " +:+ cause)
        \/ message = "Unknown error sending message to Gemini API").
Proof.
  intros send.
  assert (Hnone : forall history' other,
            (forall m, m ∈ history' -> sender m <> "user") ->
            (exists message, send messageText history' override = Thrown message)
            /\ sendMessage API_KEY GLOBAL_GEMINI_SYSTEM_INSTRUCTION
                 getGenerativeModel other messageText history' override
               = send messageText history' override).
  { intros history' other Hall. apply sanitizeHistory_nil in Hall.
    unfold send, sendMessage, trySend. rewrite Hall.
    destruct (negb (isGeminiAvailable API_KEY)); [by eauto|].
    case_bool_decide; [by eauto|].
    destruct (getGenerativeModel _ _); simpl; eauto. }
  split; [|split; [|split; [|split; [|split]]]].
  - intros Hno. unfold send, sendMessage. rewrite Hno. simpl.
    unfold isGeminiAvailable, apiKeyError in *.
    destruct (keyMissing API_KEY); [done|]. simpl in Hno. discriminate Hno.
  - intros Hyes Hblank. unfold send, sendMessage. rewrite Hyes. simpl.
    by rewrite bool_decide_eq_true_2.
  - intros stream. unfold send, sendMessage.
    destruct (isGeminiAvailable API_KEY) eqn:Havailable; simpl; [|done].
    case_bool_decide as Hblank; [done|].
    apply isGeminiAvailable_key in Havailable as (key & Hkey).
    unfold trySend. destruct Hkey as [Hkey Hne]. rewrite Hkey. simpl.
    match goal with |- context [getGenerativeModel key ?i] => set (instruction := i) end.
    destruct (getGenerativeModel key instruction) as [model| |] eqn:Hmodel; try done.
    destruct (sanitizeHistory history) as [|first rest] eqn:Hs; [done|].
    pose proof (sanitizeHistory_head history first) as Hfirst.
    rewrite Hs in Hfirst. specialize (Hfirst eq_refl).
    unfold Js.len. cbn [length].
    rewrite bool_decide_eq_false_2 by lia.
    unfold Js.str_eq. rewrite !bool_decide_eq_true_2 by done. simpl.
    destruct (sendMessageStream model _ messageText) as [[sdkStream|]| |] eqn:Hsend;
      try done.
    intros [= ->]. split; [done|]. split; [done|].
    exists key, instruction, model, first.
    split; [done|]. split; [done|]. split; [done|]. split; [done|].
    split; [|done]. simpl. unfold Js.str_eq. by rewrite bool_decide_eq_true_2.
  - intros Hall. split; [by apply (Hnone history sendMessageStream)|].
    intros other. by apply Hnone.
  - intros timestamp. apply (Hnone _ sendMessageStream).
    intros m Hm. apply list_elem_of_singleton in Hm as ->. done.
  - intros message Hthrown Havailable Hblank. unfold send, sendMessage in Hthrown.
    rewrite Havailable in Hthrown. simpl in Hthrown.
    rewrite bool_decide_eq_false_2 in Hthrown by done.
    destruct (trySend _ _ _ _ _ _) as [stream|cause|]; [done| |].
    + injection Hthrown as <-. left. by exists cause.
    + injection Hthrown as <-. by right.
Qed.

End GeminiSend.

(** ** themeService.js *)

Module ThemeService.
Import IndexedDBService.

(** A theme; [id] is missing on a theme the user has not saved yet,
    [isCustom] on the default themes. *)
Record Theme := {
  id : option string;
  name : string;
  background : string;
  glassColor : string;
  accentColor : string;
  textColor : string;
  description : string;
  isCustom : option bool;
}.

#[global] Instance Theme_keyPath : KeyPath Theme := id.

(** A theme has no [messageId]. *)
#[global] Instance Theme_messageIdPath : MessageIdPath Theme := fun theme => None.

Abbreviation Async := (IndexedDBService.Async Theme).

Definition oceanBreeze : Theme :=
  {| id := Some "ocean-breeze"; name := "Ocean Breeze";
     background := "linear-gradient(135deg, #667eea 0%, #764ba2 100%)";
     glassColor := "rgba(255, 255, 255, 0.1)"; accentColor := "#3b82f6";
     textColor := "#ffffff"; description := "Cool ocean-inspired gradient";
     isCustom := None |}.

Definition DEFAULT_THEMES : list Theme :=
  [ oceanBreeze;
    {| id := Some "sunset-glow"; name := "Sunset Glow";
       background := "linear-gradient(135deg, #ff9a9e 0%, #fecfef 50%, #fecfef 100%)";
       glassColor := "rgba(255, 255, 255, 0.15)"; accentColor := "#f59e0b";
       textColor := "#1f2937"; description := "Warm sunset colors";
       isCustom := None |};
    {| id := Some "forest-mist"; name := "Forest Mist";
       background := "linear-gradient(135deg, #134e5e 0%, #71b280 100%)";
       glassColor := "rgba(255, 255, 255, 0.1)"; accentColor := "#10b981";
       textColor := "#ffffff"; description := "Serene forest atmosphere";
       isCustom := None |};
    {| id := Some "cosmic-purple"; name := "Cosmic Purple";
       background := "linear-gradient(135deg, #667eea 0%, #764ba2 100%)";
       glassColor := "rgba(255, 255, 255, 0.1)"; accentColor := "#8b5cf6";
       textColor := "#ffffff"; description := "Deep space vibes";
       isCustom := None |};
    {| id := Some "aurora-borealis"; name := "Aurora Borealis";
       background := "linear-gradient(135deg, #00c6ff 0%, #0072ff 100%)";
       glassColor := "rgba(255, 255, 255, 0.12)"; accentColor := "#06b6d4";
       textColor := "#ffffff"; description := "Northern lights inspiration";
       isCustom := None |};
    {| id := Some "cherry-blossom"; name := "Cherry Blossom";
       background := "linear-gradient(135deg, #ffecd2 0%, #fcb69f 100%)";
       glassColor := "rgba(255, 255, 255, 0.2)"; accentColor := "#ec4899";
       textColor := "#1f2937"; description := "Soft spring colors";
       isCustom := None |};
    {| id := Some "midnight-city"; name := "Midnight City";
       background := "linear-gradient(135deg, #2c3e50 0%, #34495e 100%)";
       glassColor := "rgba(255, 255, 255, 0.08)"; accentColor := "#3b82f6";
       textColor := "#ffffff"; description := "Dark urban aesthetic";
       isCustom := None |};
    {| id := Some "golden-hour"; name := "Golden Hour";
       background := "linear-gradient(135deg, #f093fb 0%, #f5576c 100%)";
       glassColor := "rgba(255, 255, 255, 0.15)"; accentColor := "#f59e0b";
       textColor := "#ffffff"; description := "Warm golden tones";
       isCustom := None |} ].

(** The theme functions of indexedDBService.js. *)
Definition getThemes : Async (list Theme) := getAllFromStore (STORES THEMES).
Definition saveTheme (theme : Theme) : Async unit := putInStore (STORES THEMES) theme.
Definition deleteTheme (id : string) : Async unit := deleteFromStore (STORES THEMES) id.

(** One turn of [for (const theme of DEFAULT_THEMES)], after the turns
    [run] before it. *)
Definition installOne (existingIds : list (option string)) (run : Async unit)
    (theme : Theme) : Async unit :=
  await run (fun _ =>
    if negb (bool_decide (id theme ∈ existingIds)) then saveTheme theme
    else resolve tt).

Definition initializeDefaultThemes : Async unit :=
  tryCatch
    (await getThemes (fun existingThemes =>
       let existingIds := id <$> existingThemes in
       foldl (installOne existingIds) (resolve tt) DEFAULT_THEMES))
    (fun error => resolve tt).

Definition getAllThemes : Async (list Theme) :=
  tryCatch
    (await initializeDefaultThemes (fun _ => getThemes))
    (fun error => resolve DEFAULT_THEMES).

(** [themes.find(theme => theme.id === themeId) || null] *)
Definition getThemeById (themeId : string) : Async (option Theme) :=
  tryCatch
    (await getAllThemes (fun themes =>
       resolve (List.find (fun theme => bool_decide (id theme = Some themeId)) themes)))
    (fun error => resolve None).

(** [theme.id || `custom-${Date.now()}`]: an empty id counts as none. *)
Definition idOrCustom (theme : Theme) (now : Z) : string :=
  match id theme with
  | Some i => if bool_decide (i = "") then "custom-" +:+ Js.toString now else i
  | None => "custom-" +:+ Js.toString now
  end.

(** [saveCustomTheme]; the error caught is thrown again. *)
Definition saveCustomTheme (theme : Theme) : Async Theme :=
  await Date_now (fun now =>
    let themeWithId :=
      {| id := Some (idOrCustom theme now); name := name theme;
         background := background theme; glassColor := glassColor theme;
         accentColor := accentColor theme; textColor := textColor theme;
         description := description theme; isCustom := Some true |} in
    await (saveTheme themeWithId) (fun _ => resolve themeWithId)).

(** What [deleteCustomTheme] can throw: a request's error, or the [Error]
    it creates. *)
Inductive Thrown :=
  | RequestError (e : DOMException)
  | Error (message : string).

Inductive Settled (A : Type) :=
  | Fulfilled (a : A)
  | Threw (e : Thrown).
Arguments Fulfilled {A} a.
Arguments Threw {A} e.

(** [theme && theme.isCustom] *)
Definition custom (theme : option Theme) : bool :=
  match theme with
  | Some theme => bool_decide (isCustom theme = Some true)
  | None => false
  end.

(** [deleteCustomTheme]; the error caught is thrown again. *)
Definition deleteCustomTheme (themeId : string)
    : World Theme -> Settled unit * World Theme :=
  fun w =>
    match getThemeById themeId w with
    | (Resolved theme, w1) =>
        if custom theme then
          match deleteTheme themeId w1 with
          | (Resolved _, w2) => (Fulfilled tt, w2)
          | (Rejected e, w2) => (Threw (RequestError e), w2)
          end
        else (Threw (Error "Cannot delete default theme"), w1)
    | (Rejected e, w1) => (Threw (RequestError e), w1)
    end.

(** [getCurrentTheme], with the item ['patel-chat-current-theme'] of the
    local storage as argument ([None] when there is none). *)
Definition getCurrentTheme (stored : option string) : Async Theme :=
  tryCatch
    (let currentThemeId :=
       match stored with
       | Some i => if bool_decide (i = "") then "ocean-breeze" else i
       | None => "ocean-breeze"
       end in
     await (getThemeById currentThemeId) (fun theme =>
       resolve (default oceanBreeze theme)))
    (fun error => resolve oceanBreeze).

(** [getTimeBasedThemeSuggestions], with [new Date().getHours()] as
    argument. *)
Definition getTimeBasedThemeSuggestions (hour : Z) : list string :=
  if bool_decide (hour >= 6) && bool_decide (hour < 12) then
    ["cherry-blossom"; "golden-hour"; "aurora-borealis"]
  else if bool_decide (hour >= 12) && bool_decide (hour < 18) then
    ["ocean-breeze"; "forest-mist"; "sunset-glow"]
  else
    ["midnight-city"; "cosmic-purple"; "aurora-borealis"].

End ThemeService.

(** ** The themes in the store *)

Section ThemeLaws.
Import IndexedDBService ThemeService.
Implicit Types (w : World Theme) (store : gmap string Theme) (theme : Theme)
  (themeId k : string).

(** The [themes] store of the opened database. *)
Definition themesOf w : gmap string Theme :=
  default ∅ (opened w !! STORES THEMES).

(** The world once the [themes] store is [store]. *)
Definition withThemes w store : World Theme :=
  withDatabase w (<[STORES THEMES := store]> (opened w)).

Lemma opened_withThemes w store :
  opened (withThemes w store) = <[STORES THEMES := store]> (opened w).
Proof. done. Qed.

Lemma themesOf_withThemes w store : themesOf (withThemes w store) = store.
Proof. unfold themesOf. by rewrite opened_withThemes, lookup_insert_eq. Qed.

Lemma withThemes_withThemes w store store' :
  withThemes (withThemes w store) store' = withThemes w store'.
Proof.
  unfold withThemes at 1. rewrite opened_withThemes.
  unfold withThemes, withDatabase. simpl. by rewrite insert_insert_eq.
Qed.

Lemma withThemes_opened w :
  complete (opened w) -> withDatabase w (opened w) = withThemes w (themesOf w).
Proof.
  intros Hc. destruct (Hc THEMES) as [store Hs].
  unfold withThemes, themesOf. rewrite Hs. simpl. by rewrite insert_id.
Qed.

Lemma lookup_themes w : complete (opened w) -> opened w !! STORES THEMES = Some (themesOf w).
Proof. intros Hc. destruct (Hc THEMES) as [store Hs]. unfold themesOf. by rewrite Hs. Qed.

Lemma sound_withThemes w store :
  sound w ->
  (forall k theme, store !! k = Some theme -> id theme = Some k) ->
  sound (withThemes w store).
Proof.
  intros [Hc Hk] Hstore. split.
  - intros s. rewrite opened_withThemes.
    destruct (decide (STORES THEMES = STORES s)) as [<-|?].
    + rewrite lookup_insert_eq. by eexists.
    + rewrite lookup_insert_ne by done. apply Hc.
  - intros name store' k theme. rewrite opened_withThemes.
    destruct (decide (STORES THEMES = name)) as [<-|?].
    + rewrite lookup_insert_eq. intros [= <-]. apply Hstore.
    + rewrite lookup_insert_ne by done. apply Hk.
Qed.

Lemma themesOf_keyed w k theme :
  sound w -> themesOf w !! k = Some theme -> id theme = Some k.
Proof.
  intros [Hc Hk] Hget. apply (Hk (STORES THEMES) (themesOf w)); [|done].
  by apply lookup_themes.
Qed.

Lemma getThemes_run w store :
  getThemes (withThemes w store) = (Resolved (getAll store), withThemes w store).
Proof.
  unfold getThemes.
  rewrite (getAllFromStore_read _ _ store)
    by (rewrite opened_withThemes; apply lookup_insert_eq).
  rewrite opened_withThemes.
  unfold withThemes, withDatabase. simpl. by rewrite ?insert_insert_eq.
Qed.

Lemma saveTheme_run w store theme k :
  id theme = Some k ->
  saveTheme theme (withThemes w store) = (Resolved tt, withThemes w (<[k := theme]> store)).
Proof.
  intros Hk. unfold saveTheme.
  rewrite (putInStore_stored _ _ store theme k);
    [|rewrite opened_withThemes; apply lookup_insert_eq|done
     |by apply (clash_other_stores THEMES)].
  rewrite opened_withThemes.
  unfold withThemes, withDatabase. simpl. by rewrite ?insert_insert_eq.
Qed.

Lemma deleteTheme_run w store k :
  deleteTheme k (withThemes w store) = (Resolved tt, withThemes w (delete k store)).
Proof.
  unfold deleteTheme.
  rewrite (deleteFromStore_removed _ _ store)
    by (rewrite opened_withThemes; apply lookup_insert_eq).
  rewrite opened_withThemes.
  unfold withThemes, withDatabase. simpl. by rewrite ?insert_insert_eq.
Qed.

(** The store once the loop of [initializeDefaultThemes] has gone through
    [themes], when [existing] was stored at the start. *)
Definition afterLoop (existing : gmap string Theme) (themes : list Theme)
    store : gmap string Theme :=
  foldl (fun store theme =>
           match id theme with
           | Some k => if decide (is_Some (existing !! k)) then store
                       else <[k := theme]> store
           | None => store
           end) store themes.

Lemma existing_ids existing theme k :
  (forall k theme, existing !! k = Some theme -> id theme = Some k) ->
  id theme = Some k ->
  id theme ∈ id <$> getAll existing <-> is_Some (existing !! k).
Proof.
  intros Hkeyed Hk. rewrite list_elem_of_fmap. split.
  - intros (other & Hid & Hin). apply getAll_elem in Hin as [k' Hk'].
    rewrite (Hkeyed _ _ Hk') in Hid. rewrite Hk in Hid. injection Hid as ->. by eexists.
  - intros [other Hother]. exists other. split.
    + by rewrite (Hkeyed _ _ Hother).
    + apply getAll_elem. by exists k.
Qed.

Lemma install_run w existing themes store (run : Async unit) w0 :
  (forall k theme, existing !! k = Some theme -> id theme = Some k) ->
  Forall (fun theme => is_Some (id theme)) themes ->
  run w0 = (Resolved tt, withThemes w store) ->
  foldl (installOne (id <$> getAll existing)) run themes w0
  = (Resolved tt, withThemes w (afterLoop existing themes store)).
Proof.
  intros Hkeyed Hids. revert store run.
  induction Hids as [|theme themes [k Hk] Hids IH]; intros store run Hrun; [done|].
  simpl. apply IH. unfold installOne, await. rewrite Hrun.
  pose proof (existing_ids existing theme k Hkeyed Hk) as Hexisting.
  rewrite Hk in Hexisting |- *.
  destruct (decide (is_Some (existing !! k))) as [Hin|Hnot].
  - rewrite bool_decide_eq_true_2 by (by apply Hexisting). done.
  - rewrite bool_decide_eq_false_2 by (by rewrite Hexisting).
    simpl. by apply saveTheme_run.
Qed.

Lemma defaults_have_ids : Forall (fun theme => is_Some (id theme)) DEFAULT_THEMES.
Proof. repeat constructor; by eexists. Qed.

Lemma defaults_distinct : NoDup (id <$> DEFAULT_THEMES).
Proof.
  apply (bool_decide_unpack (NoDup (id <$> DEFAULT_THEMES))). vm_compute. exact I.
Qed.

(** The store after [initializeDefaultThemes]. *)
Definition initialized w : gmap string Theme :=
  afterLoop (themesOf w) DEFAULT_THEMES (themesOf w).

Lemma initializeDefaultThemes_run w :
  sound w ->
  initializeDefaultThemes w = (Resolved tt, withThemes w (initialized w)).
Proof.
  intros Hw. unfold initializeDefaultThemes, tryCatch, await.
  unfold getThemes at 1.
  rewrite (getAllFromStore_read w _ (themesOf w)) by apply lookup_themes, Hw.
  rewrite (install_run w (themesOf w) DEFAULT_THEMES (themesOf w)); [done| | |].
  - intros k theme. by apply themesOf_keyed.
  - apply defaults_have_ids.
  - unfold resolve. f_equal. apply withThemes_opened, Hw.
Qed.

Lemma getAllThemes_run w :
  sound w ->
  getAllThemes w = (Resolved (getAll (initialized w)), withThemes w (initialized w)).
Proof.
  intros Hw. unfold getAllThemes, tryCatch, await.
  rewrite initializeDefaultThemes_run by done. by rewrite getThemes_run.
Qed.

(** What the loop leaves in the store: what was there, and each default
    theme whose id was not taken. *)
Lemma installed_lookup existing themes store k :
  NoDup (id <$> themes) ->
  afterLoop existing themes store !! k
  = if decide (is_Some (existing !! k)) then store !! k
    else match List.find (fun theme => bool_decide (id theme = Some k)) themes with
         | Some theme => Some theme
         | None => store !! k
         end.
Proof.
  revert store. induction themes as [|theme themes IH]; intros store Hnd.
  - simpl. by destruct (decide _).
  - rewrite fmap_cons in Hnd. apply NoDup_cons in Hnd as [Hfresh Hnd].
    simpl. rewrite IH by done.
    destruct (decide (is_Some (existing !! k))) as [Hin|Hnot].
    + destruct (id theme) as [k'|] eqn:Hk'; [|done].
      destruct (decide (is_Some (existing !! k'))); [done|].
      rewrite lookup_insert_ne; [done|]. intros ->. done.
    + case_bool_decide as Hthis.
      * rewrite Hthis. rewrite decide_False by done.
        rewrite lookup_insert_eq.
        destruct (List.find _ themes) as [other|] eqn:Hfind; [|done].
        apply find_some in Hfind as [Hin Hother].
        apply bool_decide_eq_true in Hother.
        destruct Hfresh. rewrite Hthis, <- Hother.
        apply list_elem_of_fmap_2. by apply list_elem_of_In.
      * destruct (List.find _ themes) as [other|]; [done|].
        destruct (id theme) as [k'|] eqn:Hk'; [|done].
        destruct (decide (is_Some (existing !! k'))); [done|].
        rewrite lookup_insert_ne; [done|]. intros ->. done.
Qed.

Lemma initialized_lookup w k :
  initialized w !! k
  = match themesOf w !! k with
    | Some theme => Some theme
    | None => List.find (fun theme => bool_decide (id theme = Some k)) DEFAULT_THEMES
    end.
Proof.
  unfold initialized. rewrite installed_lookup by apply defaults_distinct.
  destruct (themesOf w !! k) as [theme|] eqn:Hget.
  - by rewrite decide_True by (by eexists).
  - rewrite decide_False by (by intros [? ?]).
    by destruct (List.find _ DEFAULT_THEMES).
Qed.

Lemma initialized_keyed w k theme :
  sound w -> initialized w !! k = Some theme -> id theme = Some k.
Proof.
  intros Hw. rewrite initialized_lookup.
  destruct (themesOf w !! k) as [stored|] eqn:Hget.
  - intros [= <-]. by eapply themesOf_keyed.
  - intros Hfind. apply find_some in Hfind as [_ Hid].
    by apply bool_decide_eq_true in Hid.
Qed.

Lemma sound_initialized w : sound w -> sound (withThemes w (initialized w)).
Proof.
  intros Hw. apply sound_withThemes; [done|].
  intros k theme. by apply initialized_keyed.
Qed.

Lemma initialized_again w :
  initialized (withThemes w (initialized w)) = initialized w.
Proof.
  apply map_eq. intros k.
  rewrite initialized_lookup, themesOf_withThemes.
  destruct (initialized w !! k) as [theme|] eqn:Hget; [done|].
  rewrite initialized_lookup in Hget.
  by destruct (themesOf w !! k).
Qed.

End ThemeLaws.

Section ThemeClaims.
Import IndexedDBService ThemeService.
Implicit Types (w : World Theme) (store : gmap string Theme) (theme other : Theme)
  (themeId k : string).

(** Looking a theme up by its id in the listing of a store is looking up
    the key. *)
Lemma find_getAll store k :
  (forall k theme, store !! k = Some theme -> id theme = Some k) ->
  List.find (fun theme => bool_decide (id theme = Some k)) (getAll store) = store !! k.
Proof.
  intros Hkeyed.
  destruct (List.find _ (getAll store)) as [found|] eqn:Hfind.
  - apply find_some in Hfind as [Hin Hid]. apply bool_decide_eq_true in Hid.
    apply list_elem_of_In, getAll_elem in Hin as [k' Hk'].
    rewrite (Hkeyed _ _ Hk') in Hid. injection Hid as ->. done.
  - destruct (store !! k) as [theme|] eqn:Hget; [|done].
    assert (Hin : In theme (getAll store))
      by (apply list_elem_of_In, getAll_elem; by exists k).
    apply (List.find_none _ _ Hfind) in Hin.
    apply bool_decide_eq_false in Hin. destruct Hin. by apply Hkeyed.
Qed.

Lemma getThemeById_run w themeId :
  sound w ->
  getThemeById themeId w
  = (Resolved (initialized w !! themeId), withThemes w (initialized w)).
Proof.
  intros Hw. unfold getThemeById, tryCatch, await.
  rewrite getAllThemes_run by done. unfold resolve.
  rewrite find_getAll; [done|]. intros k theme. by apply initialized_keyed.
Qed.

Lemma getThemes_read w :
  sound w -> getThemes w = (Resolved (getAll (themesOf w)), withDatabase w (opened w)).
Proof.
  intros Hw. unfold getThemes. apply getAllFromStore_read, lookup_themes, Hw.
Qed.

Lemma NoDup_fmap_agree {A B} (f : A -> B) (l : list A) x y :
  NoDup (f <$> l) -> x ∈ l -> y ∈ l -> f x = f y -> x = y.
Proof.
  induction l as [|a l IH]; intros Hnd Hx Hy Hf; [by apply elem_of_nil in Hx|].
  rewrite fmap_cons in Hnd. apply NoDup_cons in Hnd as [Hfresh Hnd].
  apply elem_of_cons in Hx as [->|Hx]; apply elem_of_cons in Hy as [->|Hy].
  - done.
  - destruct Hfresh. rewrite Hf. by apply list_elem_of_fmap_2.
  - destruct Hfresh. rewrite <- Hf. by apply list_elem_of_fmap_2.
  - by apply IH.
Qed.

Lemma initialized_elem w theme :
  sound w ->
  theme ∈ getAll (initialized w)
  <-> theme ∈ getAll (themesOf w)
      \/ (theme ∈ DEFAULT_THEMES /\ id theme ∉ id <$> getAll (themesOf w)).
Proof.
  intros Hw. rewrite !getAll_elem. split.
  - intros [k Hk]. rewrite initialized_lookup in Hk.
    destruct (themesOf w !! k) as [stored|] eqn:Hget.
    + injection Hk as <-. left. by exists k.
    + right. apply find_some in Hk as [Hin Hid]. apply bool_decide_eq_true in Hid.
      split; [by apply list_elem_of_In|].
      rewrite (existing_ids (themesOf w) theme k);
        [rewrite Hget; by intros [? ?]| |done].
      intros k' t. by apply themesOf_keyed.
  - intros [[k Hk]|[Hin Hnot]].
    + exists k. by rewrite initialized_lookup, Hk.
    + pose proof defaults_have_ids as Hids. rewrite Forall_forall in Hids.
      destruct (Hids theme Hin) as [k Hk]. exists k.
      rewrite initialized_lookup.
      rewrite (existing_ids (themesOf w) theme k) in Hnot;
        [| intros k' t; by apply themesOf_keyed | done].
      destruct (themesOf w !! k) as [stored|]; [destruct Hnot; by eexists|].
      destruct (List.find _ DEFAULT_THEMES) as [found|] eqn:Hfind.
      * apply find_some in Hfind as [Hfound Hid]. apply bool_decide_eq_true in Hid.
        f_equal. pose proof defaults_distinct as Hnd.
        apply list_elem_of_In in Hfound.
        apply (NoDup_fmap_agree id DEFAULT_THEMES); try done. congruence.
      * apply list_elem_of_In in Hin. apply (List.find_none _ _ Hfind) in Hin.
        apply bool_decide_eq_false in Hin. done.
Qed.

(** X22. In a world where every store exists and every record sits under
    its own key, [getAllThemes] resolves to the themes that were stored,
    unchanged, together with every default theme whose id no stored theme
    has, which it stores; so the list has a theme for each of the 8 default
    ids.  A second call resolves to the same list and writes nothing. *)
Theorem getAllThemes_defaults w :
  sound w ->
  exists stored themes w',
    getThemes w = (Resolved stored, withDatabase w (opened w))
    /\ getAllThemes w = (Resolved themes, w')
    /\ sound w'
    /\ getThemes w' = (Resolved themes, w')
    /\ (forall theme,
          theme ∈ themes
          <-> theme ∈ stored \/ (theme ∈ DEFAULT_THEMES /\ id theme ∉ id <$> stored))
    /\ length DEFAULT_THEMES = 8%nat
    /\ (forall default, default ∈ DEFAULT_THEMES ->
          exists theme, theme ∈ themes /\ id theme = id default)
    /\ getAllThemes w' = (Resolved themes, w').
Proof.
  intros Hw.
  exists (getAll (themesOf w)), (getAll (initialized w)), (withThemes w (initialized w)).
  split; [by apply getThemes_read|].
  split; [by apply getAllThemes_run|].
  split; [by apply sound_initialized|].
  split; [apply getThemes_run|].
  split; [intros theme; by apply initialized_elem|].
  split; [done|].
  split.
  - intros default Hdefault.
    destruct (decide (id default ∈ id <$> getAll (themesOf w))) as [Hin|Hnot].
    + apply list_elem_of_fmap in Hin as (theme & Hid & Hin).
      exists theme. split; [|done]. apply initialized_elem; [done|]. by left.
    + exists default. split; [|done]. apply initialized_elem; [done|]. by right.
  - rewrite getAllThemes_run by (by apply sound_initialized).
    by rewrite initialized_again, withThemes_withThemes.
Qed.

(** X23. [deleteCustomTheme] looks the id up among the themes
    [getAllThemes] lists.  When the theme found is marked custom it is
    deleted: the call is fulfilled and the store afterwards holds the
    other listed themes and no theme of that id.  In every other case, a
    theme that is not custom or no theme at all, the call throws ['Cannot
    delete default theme'] and deletes nothing; so it is for every default
    theme in a store that held no theme of its id. *)
Theorem deleteCustomTheme_only_custom w themeId :
  sound w ->
  exists themes w1,
    getAllThemes w = (Resolved themes, w1)
    /\ ((exists theme, theme ∈ themes /\ id theme = Some themeId
                       /\ isCustom theme = Some true) ->
        exists w2 themes2,
          deleteCustomTheme themeId w = (Fulfilled tt, w2)
          /\ getThemes w2 = (Resolved themes2, w2)
          /\ forall other, other ∈ themes2 <-> other ∈ themes /\ id other <> Some themeId)
    /\ ((forall theme, theme ∈ themes -> id theme = Some themeId ->
           isCustom theme <> Some true) ->
        deleteCustomTheme themeId w = (Threw (Error "Cannot delete default theme"), w1)
        /\ getThemes w1 = (Resolved themes, w1))
    /\ ((exists default, default ∈ DEFAULT_THEMES /\ id default = Some themeId) ->
        (forall stored, stored ∈ (getAll (themesOf w)) -> id stored <> Some themeId) ->
        deleteCustomTheme themeId w = (Threw (Error "Cannot delete default theme"), w1)).
Proof.
  intros Hw.
  exists (getAll (initialized w)), (withThemes w (initialized w)).
  split; [by apply getAllThemes_run|].
  assert (Hfound : forall theme,
            theme ∈ getAll (initialized w) /\ id theme = Some themeId
            <-> initialized w !! themeId = Some theme).
  { intros theme. rewrite getAll_elem. split.
    - intros [[k Hk] Hid]. rewrite (initialized_keyed w k theme Hw Hk) in Hid.
      injection Hid as ->. done.
    - intros Hget. split; [by exists themeId|]. by eapply initialized_keyed. }
  assert (Hrefused :
    (forall theme, theme ∈ getAll (initialized w) -> id theme = Some themeId ->
       isCustom theme <> Some true) ->
    deleteCustomTheme themeId w
    = (Threw (Error "Cannot delete default theme"), withThemes w (initialized w))).
  { intros Hnot. unfold deleteCustomTheme. rewrite getThemeById_run by done.
    destruct (initialized w !! themeId) as [theme|] eqn:Hget; [|done].
    destruct (proj2 (Hfound theme) eq_refl) as [Hin Hid]. simpl.
    by rewrite bool_decide_eq_false_2 by (by apply Hnot). }
  split; [|split].
  - intros (theme & Hin & Hid & Hcustom).
    assert (Hget : initialized w !! themeId = Some theme) by (by apply Hfound).
    exists (withThemes w (delete themeId (initialized w))),
           (getAll (delete themeId (initialized w))).
    split.
    { unfold deleteCustomTheme. rewrite getThemeById_run, Hget by done. simpl.
      rewrite bool_decide_eq_true_2 by done. by rewrite deleteTheme_run. }
    split; [apply getThemes_run|].
    intros other. rewrite !getAll_elem. split.
    + intros [k Hk]. apply lookup_delete_Some in Hk as [Hne Hk].
      split; [by exists k|]. rewrite (initialized_keyed w k other Hw Hk). congruence.
    + intros [[k Hk] Hne]. exists k. apply lookup_delete_Some. split; [|done].
      intros <-. by rewrite (initialized_keyed w themeId other Hw Hk) in Hne.
  - intros Hnot. split; [by apply Hrefused|apply getThemes_run].
  - intros (default & Hdefault & Hid) Hfree. apply Hrefused.
    intros theme Hin Hthis.
    apply (proj1 (initialized_elem w theme Hw)) in Hin as [Hin|[Hin _]].
    + by destruct (Hfree theme Hin).
    + assert (Hcustom : Forall (fun t => isCustom t = None) DEFAULT_THEMES)
        by (by repeat constructor).
      rewrite Forall_forall in Hcustom. by rewrite (Hcustom theme Hin).
Qed.

(** X24. [saveCustomTheme] resolves to the theme with [isCustom] set and
    with its own id or, when it has none, the id [custom-] followed by the
    current time; it stores that theme, so that [getThemeById] of the id
    then resolves to it and [deleteCustomTheme] of the id is fulfilled. *)
Theorem saveCustomTheme_saved w theme :
  sound w ->
  exists saved w1 w2 w3,
    saveCustomTheme theme w = (Resolved saved, w1)
    /\ sound w1
    /\ id saved = Some (idOrCustom theme (clock w))
    /\ (forall i, id theme = Some i -> i <> "" -> id saved = Some i)
    /\ isCustom saved = Some true
    /\ (name saved, background saved, glassColor saved, accentColor saved,
        textColor saved, description saved)
       = (name theme, background theme, glassColor theme, accentColor theme,
          textColor theme, description theme)
    /\ getThemeById (idOrCustom theme (clock w)) w1 = (Resolved (Some saved), w2)
    /\ deleteCustomTheme (idOrCustom theme (clock w)) w1 = (Fulfilled tt, w3).
Proof.
  intros Hw.
  set (key := idOrCustom theme (clock w)).
  set (saved := {| id := Some key; name := name theme;
                   background := background theme; glassColor := glassColor theme;
                   accentColor := accentColor theme; textColor := textColor theme;
                   description := description theme; isCustom := Some true |}).
  set (w1 := withThemes w (<[key := saved]> (themesOf w))).
  assert (Hw1 : sound w1).
  { apply sound_withThemes; [done|]. intros k other.
    destruct (decide (key = k)) as [<-|Hne].
    - rewrite lookup_insert_eq. by intros [= <-].
    - rewrite lookup_insert_ne by done. by apply themesOf_keyed. }
  assert (Hget : initialized w1 !! key = Some saved).
  { rewrite initialized_lookup. unfold w1.
    by rewrite themesOf_withThemes, lookup_insert_eq. }
  exists saved, w1. do 2 eexists.
  split.
  { unfold saveCustomTheme, await, Date_now. fold key. fold saved.
    unfold saveTheme.
    rewrite (putInStore_stored w _ (themesOf w) saved key);
      [done|by apply lookup_themes, Hw|done|by apply (clash_other_stores THEMES)]. }
  split; [done|]. split; [done|].
  split.
  { intros i Hi Hne. simpl. unfold key, idOrCustom. rewrite Hi.
    by rewrite bool_decide_eq_false_2. }
  split; [done|]. split; [done|].
  split; [by rewrite getThemeById_run, Hget|].
  unfold deleteCustomTheme. rewrite getThemeById_run, Hget by done.
  cbn [custom]. rewrite (bool_decide_eq_true_2 (isCustom saved = Some true)) by done.
  by rewrite deleteTheme_run.
Qed.

Lemma suggestions_default hour :
  Forall (fun i => Some i ∈ id <$> DEFAULT_THEMES) (getTimeBasedThemeSuggestions hour).
Proof.
  unfold getTimeBasedThemeSuggestions.
  destruct (_ && _); [|destruct (_ && _)];
    repeat (constructor;
            [apply (bool_decide_unpack (_ ∈ id <$> DEFAULT_THEMES)); vm_compute; exact I|]);
    constructor.
Qed.

(** X25. Whatever the hour, [getTimeBasedThemeSuggestions] returns three
    different ids, each the id of a default theme: the morning list from 6
    to 11, the afternoon list from 12 to 17 and the night list at every
    other hour; and [getThemeById] finds a theme for every suggested id. *)
Theorem getTimeBasedThemeSuggestions_found hour :
  length (getTimeBasedThemeSuggestions hour) = 3%nat
  /\ NoDup (getTimeBasedThemeSuggestions hour)
  /\ Forall (fun i => exists default, default ∈ DEFAULT_THEMES /\ id default = Some i)
       (getTimeBasedThemeSuggestions hour)
  /\ (6 <= hour < 12 ->
        getTimeBasedThemeSuggestions hour
        = ["cherry-blossom"; "golden-hour"; "aurora-borealis"])
  /\ (12 <= hour < 18 ->
        getTimeBasedThemeSuggestions hour = ["ocean-breeze"; "forest-mist"; "sunset-glow"])
  /\ (hour < 6 \/ 18 <= hour ->
        getTimeBasedThemeSuggestions hour
        = ["midnight-city"; "cosmic-purple"; "aurora-borealis"])
  /\ forall w i,
       sound w -> i ∈ getTimeBasedThemeSuggestions hour ->
       exists theme w',
         getThemeById i w = (Resolved (Some theme), w') /\ id theme = Some i.
Proof.
  assert (Hcases :
    getTimeBasedThemeSuggestions hour = ["cherry-blossom"; "golden-hour"; "aurora-borealis"]
    \/ getTimeBasedThemeSuggestions hour = ["ocean-breeze"; "forest-mist"; "sunset-glow"]
    \/ getTimeBasedThemeSuggestions hour
       = ["midnight-city"; "cosmic-purple"; "aurora-borealis"]).
  { unfold getTimeBasedThemeSuggestions.
    destruct (_ && _); [by left|]. destruct (_ && _); [right; by left|right; by right]. }
  assert (Hdefault : Forall (fun i => exists default,
                                 default ∈ DEFAULT_THEMES /\ id default = Some i)
                       (getTimeBasedThemeSuggestions hour)).
  { eapply Forall_impl; [apply suggestions_default|].
    intros i Hin. apply list_elem_of_fmap in Hin as (default & Hid & Hin). eauto. }
  split; [by destruct Hcases as [-> | [-> | ->]]|].
  split.
  { destruct Hcases as [-> | [-> | ->]];
      apply (bool_decide_unpack (NoDup _)); vm_compute; exact I. }
  split; [done|].
  split; [|split; [|split]].
  - intros Hhour. unfold getTimeBasedThemeSuggestions.
    by rewrite !bool_decide_eq_true_2 by lia.
  - intros Hhour. unfold getTimeBasedThemeSuggestions.
    rewrite (bool_decide_eq_true_2 (hour >= 6)) by lia.
    rewrite (bool_decide_eq_false_2 (hour < 12)) by lia. simpl.
    by rewrite !bool_decide_eq_true_2 by lia.
  - intros Hhour. unfold getTimeBasedThemeSuggestions.
    destruct Hhour.
    + rewrite (bool_decide_eq_false_2 (hour >= 6)) by lia. simpl.
      by rewrite (bool_decide_eq_false_2 (hour >= 12)) by lia.
    + rewrite (bool_decide_eq_false_2 (hour < 12)) by lia. rewrite andb_false_r.
      rewrite (bool_decide_eq_false_2 (hour < 18)) by lia. by rewrite andb_false_r.
  - intros w i Hw Hin. rewrite Forall_forall in Hdefault.
    destruct (Hdefault i Hin) as (default & Hdef & Hid).
    rewrite getThemeById_run by done.
    destruct (initialized w !! i) as [theme|] eqn:Hget.
    + exists theme. eexists. split; [done|]. by eapply initialized_keyed.
    + rewrite initialized_lookup in Hget.
      destruct (themesOf w !! i); [done|].
      apply list_elem_of_In in Hdef. apply (List.find_none _ _ Hget) in Hdef.
      apply bool_decide_eq_false in Hdef. done.
Qed.

End ThemeClaims.

Lemma getAllThemes_defaults_witness :
  sound (pristine 0 : IndexedDBService.World ThemeService.Theme)
  /\ exists themes w',
       ThemeService.getAllThemes (pristine 0) = (IndexedDBService.Resolved themes, w')
       /\ ThemeService.getAllThemes w' = (IndexedDBService.Resolved themes, w').
Proof.
  split; [apply pristine_sound|].
  destruct (getAllThemes_defaults (pristine 0) (pristine_sound 0))
    as (stored & themes & w' & _ & Hrun & _ & _ & _ & _ & _ & Hagain).
  exists themes, w'. split; [exact Hrun|exact Hagain].
Defined.

Lemma deleteCustomTheme_only_custom_witness :
  sound (pristine 0 : IndexedDBService.World ThemeService.Theme)
  /\ exists w1,
       ThemeService.deleteCustomTheme "ocean-breeze" (pristine 0)
       = (ThemeService.Threw (ThemeService.Error "Cannot delete default theme"), w1).
Proof.
  split; [apply pristine_sound|].
  destruct (deleteCustomTheme_only_custom (pristine 0) "ocean-breeze" (pristine_sound 0))
    as (themes & w1 & _ & _ & _ & Hdefault).
  exists w1. apply Hdefault.
  - exists ThemeService.oceanBreeze. split; [left|reflexivity].
  - intros stored Hstored.
    assert (Hempty : IndexedDBService.getAll
                       (themesOf (pristine 0 : IndexedDBService.World ThemeService.Theme))
                     = []) by (vm_compute; reflexivity).
    rewrite Hempty in Hstored. inversion Hstored.
Defined.

Lemma saveCustomTheme_saved_witness :
  sound (pristine 7 : IndexedDBService.World ThemeService.Theme)
  /\ exists saved w1,
       ThemeService.saveCustomTheme
         {| ThemeService.id := None; ThemeService.name := "Mine";
            ThemeService.background := "#000000";
            ThemeService.glassColor := "rgba(255, 255, 255, 0.1)";
            ThemeService.accentColor := "#3b82f6"; ThemeService.textColor := "#ffffff";
            ThemeService.description := "Mine"; ThemeService.isCustom := None |}
         (pristine 7)
       = (IndexedDBService.Resolved saved, w1)
       /\ ThemeService.id saved = Some "custom-7".
Proof.
  split; [apply pristine_sound|].
  destruct (saveCustomTheme_saved (pristine 7)
              {| ThemeService.id := None; ThemeService.name := "Mine";
                 ThemeService.background := "#000000";
                 ThemeService.glassColor := "rgba(255, 255, 255, 0.1)";
                 ThemeService.accentColor := "#3b82f6"; ThemeService.textColor := "#ffffff";
                 ThemeService.description := "Mine"; ThemeService.isCustom := None |}
              (pristine_sound 7))
    as (saved & w1 & w2 & w3 & Hrun & _ & Hid & _).
  exists saved, w1. split; [exact Hrun|]. rewrite Hid. vm_compute. reflexivity.
Defined.

(** ** The shape of the extracted blocks *)

Section BlockShape.
Import CodeEditor.
Implicit Types (l text gap last : list ascii) (block : CodeBlock)
  (blocks : list CodeBlock).

Lemma trim_trimmed l :
  notStarting Js.isWhiteSpace l -> notStarting Js.isWhiteSpace (reverse l) ->
  Js.trim l = l.
Proof.
  intros Hstart Hend.
  assert (Hts : forall l', notStarting Js.isWhiteSpace l' -> Js.trimStart l' = l').
  { intros [|c l'] Hc; [done|]. simpl in *. by rewrite Hc. }
  unfold Js.trim, Js.trimEnd. rewrite (Hts l) by done. rewrite (Hts (reverse l)) by done.
  apply reverse_involutive.
Qed.

Lemma trim_idemp l : Js.trim (Js.trim l) = Js.trim l.
Proof.
  destruct (trim_spec l) as (leading & trailing & _ & _ & _ & Hstart & Hend).
  by apply trim_trimmed.
Qed.

(** The text is its blocks, in order, each after a gap, and a rest. *)
Fixpoint interleaved (gaps : list (list ascii)) blocks last : list ascii :=
  match gaps, blocks with
  | gap :: gaps, block :: blocks =>
      gap ++ Js.chars (fullMatch block) ++ interleaved gaps blocks last
  | _, _ => last
  end.

(** What holds of every entry. *)
Definition wellFormed block : Prop :=
  language block <> ""
  /\ Forall (fun c => Js.isWordChar c = true) (Js.chars (language block))
  /\ Js.trim (Js.chars (code block)) = Js.chars (code block)
  /\ (exists inner, Js.chars (fullMatch block) = fence ++ inner ++ fence)
  /\ Js.stringIncludes (Js.chars (fullMatch block)) (Js.chars (code block)) = true.

Lemma entry_wellFormed tag newline content :
  Forall (fun c => Js.isWordChar c = true) tag ->
  wellFormed (entry tag newline content).
Proof.
  intros Htag. unfold wellFormed, entry.
  cbn [language code fullMatch]. rewrite !chars_str.
  split; [|split; [|split; [|split]]].
  - destruct tag as [|c tag]; [done|]. simpl. discriminate.
  - destruct tag as [|c tag]; [by repeat constructor|]. by rewrite chars_str.
  - apply trim_idemp.
  - exists (tag ++ newline ++ content). by rewrite <- !app_assoc.
  - apply stringIncludes_spec.
    destruct (trim_spec content) as (leading & trailing & Hcontent & _).
    exists (fence ++ tag ++ newline ++ leading), (trailing ++ fence).
    rewrite Hcontent at 1. by rewrite <- !app_assoc.
Qed.

Lemma FencedBlocks_shape text blocks :
  FencedBlocks text blocks ->
  Forall wellFormed blocks
  /\ (exists gaps last,
        length gaps = length blocks /\ text = interleaved gaps blocks last)
  /\ (6 * length blocks <= length text)%nat.
Proof.
  induction 1 as [text Hno|text before tag newline content rest blocks Hfirst _ IH].
  - split; [constructor|]. split; [by exists [], text|simpl; lia].
  - destruct IH as (Hall & (gaps & last & Hlen & Hrest) & Hcount).
    destruct Hfirst as [Htext _ Htag _ _ _].
    split; [constructor; [by apply entry_wellFormed|done]|].
    split.
    + exists (before :: gaps), last. split; [simpl; by rewrite Hlen|].
      simpl. rewrite chars_str, <- Hrest, Htext. by rewrite <- !app_assoc.
    + rewrite Htext, !length_app. simpl. lia.
Qed.

(** X26. Every block [extractCodeBlocks] returns has a language that is
    not empty and is made of word characters (['text'] when the fence has
    no tag), a code without white space at either end, and a [fullMatch]
    that starts and ends with a fence and contains the code.  The text is
    made of the [fullMatch] strings of the blocks, in the order of the
    list and without overlap, each after a gap, followed by a rest; so
    there are at most a sixth as many blocks as the text has code units. *)
Theorem extractCodeBlocks_shape (text : string) :
  let blocks := extractCodeBlocks text in
  Forall (fun block =>
            language block <> ""
            /\ Forall (fun c => Js.isWordChar c = true) (Js.chars (language block))
            /\ Js.trim (Js.chars (code block)) = Js.chars (code block)
            /\ (exists inner, Js.chars (fullMatch block) = fence ++ inner ++ fence)
            /\ Js.stringIncludes (Js.chars (fullMatch block)) (Js.chars (code block))
               = true)
         blocks
  /\ (exists gaps last,
        length gaps = length blocks
        /\ Js.chars text = interleaved gaps blocks last)
  /\ (6 * length blocks <= length (Js.chars text))%nat.
Proof.
  intros blocks.
  assert (Hfenced : FencedBlocks (Js.chars text) blocks)
    by (by apply (execLoop_blocks (length (Js.chars text)))).
  apply FencedBlocks_shape in Hfenced as (Hall & Hparts & Hcount). done.
Qed.

End BlockShape.

(** ** The current theme *)

Section CurrentTheme.
Import IndexedDBService ThemeService.
Implicit Types (w : World Theme) (theme : Theme) (stored : option string).

(** [localStorage.getItem('patel-chat-current-theme') || 'ocean-breeze'] *)
Definition currentId stored : string :=
  match stored with
  | Some i => if bool_decide (i = "") then "ocean-breeze" else i
  | None => "ocean-breeze"
  end.

(** X27. [getCurrentTheme] never rejects: it resolves with a theme in
    every state of the database.  When the database works, the theme is
    the one saved under the id kept in the local storage (['ocean-breeze']
    when nothing or the empty string is kept), else the default theme of
    that id, else Ocean Breeze; and the default themes are installed on
    the way. *)
Theorem getCurrentTheme_falls_back stored w :
  exists theme w',
    getCurrentTheme stored w = (Resolved theme, w')
    /\ (sound w ->
        w' = withThemes w (initialized w)
        /\ theme = match themesOf w !! currentId stored with
                   | Some saved => saved
                   | None =>
                       default oceanBreeze
                         (List.find (fun d => bool_decide (id d = Some (currentId stored)))
                                    DEFAULT_THEMES)
                   end).
Proof.
  unfold getCurrentTheme, tryCatch, await. fold (currentId stored).
  destruct (getThemeById (currentId stored) w) as [[found|e] w1] eqn:Hrun.
  - unfold resolve. eexists _, _. split; [reflexivity|]. intros Hw.
    rewrite getThemeById_run in Hrun by done. injection Hrun as <- <-.
    split; [done|]. rewrite initialized_lookup.
    by destruct (themesOf w !! currentId stored).
  - unfold resolve. eexists _, _. split; [reflexivity|]. intros Hw.
    rewrite getThemeById_run in Hrun by done. discriminate.
Qed.

End CurrentTheme.

(** ** embeddingService.js: the similarity as doubles compute it *)

Module EmbeddingDoubles.

(** The sums of the loop of [cosineSimilarity]. *)
Record Sums := { dotProduct : float; norm1 : float; norm2 : float }.

Definition accumulate (sums : Sums) (pair : float * float) : Sums :=
  let '(x, y) := pair in
  {| dotProduct := dotProduct sums + x * y;
     norm1 := norm1 sums + x * x;
     norm2 := norm2 sums + y * y |}%float.

(** [cosineSimilarity] on arrays of numbers, with the arithmetic of the
    doubles: [===] is [=?], under which a zero of either sign is 0 and
    [NaN] is nothing. *)
Definition cosineSimilarity (vec1 vec2 : list float) : float :=
  if bool_decide (length vec1 <> length vec2) then 0%float
  else
    let sums :=
      foldl accumulate {| dotProduct := 0; norm1 := 0; norm2 := 0 |} (zip vec1 vec2) in
    if (norm1 sums =? 0)%float || (norm2 sums =? 0)%float then 0%float
    else (dotProduct sums / (PrimFloat.sqrt (norm1 sums) * PrimFloat.sqrt (norm2 sums)))%float.

End EmbeddingDoubles.

Section SimilarityOfDoubles.
Import EmbeddingDoubles.
Implicit Types (vec : list float) (x y : float).


Lemma SFmul_comm (a b : spec_float) : SF64mul a b = SF64mul b a.
Proof.
  unfold SF64mul.
  destruct a as [sa|sa| |sa ma ea], b as [sb|sb| |sb mb eb]; simpl;
    rewrite ?(xorb_comm sa sb); try reflexivity.
  by rewrite (Pos.mul_comm ma mb), (Z.add_comm ea eb).
Qed.

Lemma mul_comm x y : (x * y = y * x)%float.
Proof. apply Prim2SF_inj. by rewrite !mul_spec, SFmul_comm. Qed.

(** The sums with the two vectors exchanged. *)
Definition exchanged (sums : Sums) : Sums :=
  {| dotProduct := dotProduct sums; norm1 := norm2 sums; norm2 := norm1 sums |}.

Lemma loop_exchanged vec1 vec2 sums :
  foldl accumulate (exchanged sums) (zip vec2 vec1)
  = exchanged (foldl accumulate sums (zip vec1 vec2)).
Proof.
  revert vec2 sums. induction vec1 as [|x vec1 IH]; intros [|y vec2] sums; try done.
  simpl. rewrite <- IH. f_equal. unfold exchanged. simpl. by rewrite (mul_comm y x).
Qed.

(** X15. [cosineSimilarity], as the doubles compute it, does not depend on
    the order of the two vectors: the two calls return the same number, or
    both return [NaN]. *)
Theorem cosineSimilarity_symmetric vec1 vec2 :
  cosineSimilarity vec1 vec2 = cosineSimilarity vec2 vec1.
Proof.
  unfold cosineSimilarity.
  destruct (decide (length vec1 = length vec2)) as [Hlen|Hlen].
  - rewrite !bool_decide_eq_false_2 by (intros Hne; apply Hne; done).
    pose proof (loop_exchanged vec1 vec2
                  {| dotProduct := 0; norm1 := 0; norm2 := 0 |}) as Hswap.
    change (exchanged {| dotProduct := 0; norm1 := 0; norm2 := 0 |})
      with {| dotProduct := 0%float; norm1 := 0%float; norm2 := 0%float |} in Hswap.
    cbv zeta. rewrite Hswap. unfold exchanged. simpl.
    rewrite orb_comm. destruct (_ || _); [done|].
    by rewrite mul_comm.
  - by rewrite !bool_decide_eq_true_2 by (intros Heq; apply Hlen; done).
Qed.

End SimilarityOfDoubles.

(** ** The signs of the doubles *)

Section Signs.
Implicit Types (x y : float) (a b : spec_float).

(** Not negative: a zero of either sign, a positive number or [Infinity];
    [NaN] is let through. *)
Definition notNegative a : Prop :=
  match a with
  | S754_zero _ | S754_nan => True
  | S754_infinity s | S754_finite s _ _ => s = false
  end.

(** With the sign bit clear, or [NaN]. *)
Definition signClear a : Prop :=
  match a with
  | S754_nan => True
  | S754_zero s | S754_infinity s | S754_finite s _ _ => s = false
  end.

Lemma signClear_notNegative a : signClear a -> notNegative a.
Proof. by destruct a. Qed.

(** Rounding keeps the sign it is given. *)
Lemma binary_round_aux_sign (s : bool) m e l :
  match binary_round_aux prec emax s m e l with
  | S754_nan => True
  | S754_zero s' | S754_infinity s' | S754_finite s' _ _ => s' = s
  end.
Proof.
  unfold binary_round_aux.
  destruct (shr_fexp prec emax m e l) as [mrs' e'].
  destruct (shr_fexp prec emax _ e' loc_Exact) as [mrs'' e''].
  destruct (shr_m mrs''); [done| |done].
  by destruct (Z.leb e'' (emax - prec)).
Qed.

Lemma binary_round_aux_signClear m e l :
  signClear (binary_round_aux prec emax false m e l).
Proof.
  pose proof (binary_round_aux_sign false m e l) as H.
  by destruct (binary_round_aux prec emax false m e l).
Qed.

Lemma SFmul_notNegative a b :
  notNegative a -> notNegative b -> notNegative (SF64mul a b).
Proof.
  unfold SF64mul.
  destruct a as [sa|sa| |sa ma ea], b as [sb|sb| |sb mb eb]; simpl;
    intros Ha Hb; subst; simpl; try done.
  apply signClear_notNegative, binary_round_aux_signClear.
Qed.

Lemma SFmul_signClear a b : signClear a -> signClear b -> signClear (SF64mul a b).
Proof.
  unfold SF64mul.
  destruct a as [sa|sa| |sa ma ea], b as [sb|sb| |sb mb eb]; simpl;
    intros Ha Hb; subst; simpl; try done.
  apply binary_round_aux_signClear.
Qed.

Lemma SFadd_signClear a b : signClear a -> notNegative b -> signClear (SF64add a b).
Proof.
  unfold SF64add.
  destruct a as [sa|sa| |sa ma ea], b as [sb|sb| |sb mb eb]; simpl;
    intros Ha Hb; subst; simpl; try done.
  - by destruct sb.
  - unfold binary_round.
    destruct (shl_align _ _ _) as [mz ez]. apply binary_round_aux_signClear.
Qed.

Lemma SFsqrt_signClear a : signClear a -> signClear (SF64sqrt a).
Proof.
  unfold SF64sqrt. destruct a as [sa|sa| |sa ma ea]; simpl;
    intros Ha; subst; simpl; try done.
  destruct (SFsqrt_core_binary prec emax (Z.pos ma) ea) as [[mz ez] lz].
  apply binary_round_aux_signClear.
Qed.

Lemma SFdiv_signClear a b : signClear a -> signClear b -> signClear (SF64div a b).
Proof.
  unfold SF64div.
  destruct a as [sa|sa| |sa ma ea], b as [sb|sb| |sb mb eb]; simpl;
    intros Ha Hb; subst; simpl; try done.
  destruct (SFdiv_core_binary prec emax (Z.pos ma) ea (Z.pos mb) eb)
    as [[mz ez] lz].
  apply binary_round_aux_signClear.
Qed.

(** What [0 <= x] says of a double. *)
Lemma leb_zero x : (0 <=? x)%float = true -> notNegative (Prim2SF x).
Proof.
  intros H. rewrite FloatAxioms.leb_spec in H. change (Prim2SF 0) with (S754_zero false) in H.
  unfold SFleb in H. by destruct (Prim2SF x) as [s|[|]| |[|] m e].
Qed.

Lemma signClear_leb x :
  signClear (Prim2SF x) -> is_nan x = true \/ (0 <=? x)%float = true.
Proof.
  intros Hx. unfold is_nan. rewrite FloatAxioms.leb_spec, FloatAxioms.eqb_spec.
  change (Prim2SF 0) with (S754_zero false).
  unfold SFleb, SFeqb. destruct (Prim2SF x) as [s|s| |s m e]; simpl in *.
  - by right.
  - subst s. by right.
  - by left.
  - subst s. by right.
Qed.

End Signs.

(** ** The weights of the doubles *)

Section Magnitudes.
Implicit Types (x y : float) (a b : spec_float) (m : positive) (e : Z).

(** The number of binary digits of a mantissa, through [Z.log2]. *)
Lemma digits2_pos_size m : digits2_pos m = Pos.size m.
Proof. induction m as [m IH|m IH|]; simpl; by rewrite ?IH. Qed.

Lemma digits2_pos_log2 m : Z.pos (digits2_pos m) = Z.log2 (Z.pos m) + 1.
Proof.
  rewrite digits2_pos_size. destruct m as [m|m|]; simpl; [| |done];
    by rewrite Pos2Z.inj_succ.
Qed.

(** The exponent of the position a number of [d] digits above [2^e] is
    rounded at. *)
Lemma fexp_spec d : fexp prec emax d = Z.max (d - 53) (-1074).
Proof. done. Qed.

(** A shift to the right halves the mantissa. *)
Lemma shr_m_shr_1 mrs :
  0 <= shr_m mrs -> shr_m (shr_1 mrs) = Z.div2 (shr_m mrs).
Proof.
  destruct mrs as [mm r s]. simpl.
  destruct mm as [|[p|p|]|p]; simpl; done.
Qed.

Lemma shr_m_iter (p : positive) mrs :
  0 <= shr_m mrs ->
  shr_m (SpecFloat.iter_pos shr_1 p mrs) = Z.shiftr (shr_m mrs) (Z.pos p).
Proof.
  revert mrs. induction p as [p IH|p IH|]; intros mrs Hm; simpl.
  - assert (H1 : 0 <= shr_m (shr_1 mrs))
      by (rewrite shr_m_shr_1, Z.div2_spec by done; by apply Z.shiftr_nonneg).
    assert (H2 : 0 <= shr_m (SpecFloat.iter_pos shr_1 p (shr_1 mrs)))
      by (rewrite IH by done; by apply Z.shiftr_nonneg).
    rewrite IH, IH, shr_m_shr_1, Z.div2_spec, !Z.shiftr_shiftr by (done || lia).
    f_equal. lia.
  - assert (H2 : 0 <= shr_m (SpecFloat.iter_pos shr_1 p mrs))
      by (rewrite IH by done; by apply Z.shiftr_nonneg).
    rewrite IH, IH, !Z.shiftr_shiftr by (done || lia).
    f_equal. lia.
  - rewrite shr_m_shr_1, Z.div2_spec by done. done.
Qed.

Lemma shr_m_of_loc (z : Z) l : shr_m (shr_record_of_loc z l) = z.
Proof. by destruct l as [|[| |]]. Qed.

(** Rounding a positive mantissa at its position leaves a positive one
    with the same weight, as long as the position is not below the
    smallest double. *)
Lemma shr_fexp_positive m e l mrs e' :
  -1073 <= Z.log2 (Z.pos m) + 1 + e ->
  shr_fexp prec emax (Z.pos m) e l = (mrs, e') ->
  exists m', shr_m mrs = Z.pos m'
             /\ Z.log2 (Z.pos m') + 1 + e' = Z.log2 (Z.pos m) + 1 + e.
Proof.
  intros Hd. unfold shr_fexp, shr. simpl Zdigits2.
  rewrite digits2_pos_log2, fexp_spec.
  destruct (Z.max _ _ - e) as [|p|p] eqn:Hn.
  - intros [= <- <-]. exists m. by rewrite shr_m_of_loc.
  - intros [= <- <-]. rewrite shr_m_iter, shr_m_of_loc by (by rewrite shr_m_of_loc).
    assert (Hp : Z.pos p <= Z.log2 (Z.pos m)) by lia.
    assert (Hlog : Z.log2 (Z.shiftr (Z.pos m) (Z.pos p)) = Z.log2 (Z.pos m) - Z.pos p).
    { rewrite Z.log2_shiftr by done. lia. }
    assert (Hpos : 0 < Z.shiftr (Z.pos m) (Z.pos p)).
    { rewrite Z.shiftr_div_pow2 by done.
      apply Z.div_str_pos. split; [by apply Z.pow_pos_nonneg|].
      etrans; [apply Z.pow_le_mono_r; [done|exact Hp]|].
      by apply Z.log2_spec. }
    destruct (Z.shiftr (Z.pos m) (Z.pos p)) as [|m'|m'] eqn:Hs; [done| |done].
    exists m'. split; [done|]. lia.
  - intros [= <- <-]. exists m. by rewrite shr_m_of_loc.
Qed.

Lemma round_nearest_even_positive m l :
  exists m', round_nearest_even (Z.pos m) l = Z.pos m'
             /\ Z.log2 (Z.pos m) <= Z.log2 (Z.pos m').
Proof.
  assert (Hup : exists m', Z.pos m + 1 = Z.pos m'
                           /\ Z.log2 (Z.pos m) <= Z.log2 (Z.pos m')).
  { exists (m + 1)%positive. split; [lia|]. apply Z.log2_le_mono. lia. }
  assert (Hsame : exists m', Z.pos m = Z.pos m'
                             /\ Z.log2 (Z.pos m) <= Z.log2 (Z.pos m'))
    by (exists m; split; [done|lia]).
  unfold round_nearest_even. destruct l as [|[| |]]; try done.
  by destruct (Z.even (Z.pos m)).
Qed.

(** Rounded to a double, a positive number whose weight is not below the
    smallest double is a number of at least that weight, or [Infinity]:
    it is not 0. *)
Lemma binary_round_aux_lower (s : bool) m e l :
  -1073 <= Z.log2 (Z.pos m) + 1 + e ->
  match binary_round_aux prec emax s (Z.pos m) e l with
  | S754_finite _ m' e' => Z.log2 (Z.pos m) + 1 + e <= Z.log2 (Z.pos m') + 1 + e'
  | S754_infinity _ => True
  | S754_zero _ | S754_nan => False
  end.
Proof.
  intros Hd. unfold binary_round_aux.
  destruct (shr_fexp prec emax (Z.pos m) e l) as [mrs1 e1] eqn:H1.
  apply shr_fexp_positive in H1 as (m1 & Hm1 & Hd1); [|done].
  rewrite Hm1.
  destruct (round_nearest_even_positive m1 (loc_of_shr_record mrs1)) as (m2 & -> & Hm2).
  destruct (shr_fexp prec emax (Z.pos m2) e1 loc_Exact) as [mrs3 e3] eqn:H3.
  apply shr_fexp_positive in H3 as (m3 & Hm3 & Hd3); [|lia].
  rewrite Hm3. destruct (Z.leb e3 (emax - prec)); [lia|done].
Qed.

(** The weight of a double is not below that of the smallest one. *)
Lemma valid_weight (s : bool) m e :
  valid_binary (S754_finite s m e) = true -> -1073 <= Z.log2 (Z.pos m) + 1 + e.
Proof.
  unfold SpecFloat.valid_binary, SpecFloat.bounded, SpecFloat.canonical_mantissa.
  rewrite digits2_pos_log2, fexp_spec.
  intros H. apply andb_true_iff in H as [H _]. apply Z.eqb_eq in H.
  pose proof (Z.log2_nonneg (Z.pos m)). lia.
Qed.

(** The square root of a positive double has at least half its weight. *)
Lemma SFsqrt_lower m e :
  -1073 <= Z.log2 (Z.pos m) + 1 + e ->
  match SF64sqrt (S754_finite false m e) with
  | S754_finite _ m' e' => -536 <= Z.log2 (Z.pos m') + 1 + e'
  | S754_infinity _ => True
  | S754_zero _ | S754_nan => False
  end.
Proof.
  intros Hd. unfold SF64sqrt, SFsqrt, SFsqrt_core_binary.
  simpl Zdigits2. rewrite digits2_pos_log2.
  set (e' := Z.min _ _).
  assert (He' : 2 * e' <= e).
  { assert (e' <= Z.div2 e) by apply Z.le_min_r.
    rewrite Z.div2_div in *. pose proof (Z.div_mod e 2). pose proof (Z.mod_pos_bound e 2).
    lia. }
  set (shifted := match e - 2 * e' with
                  | 0 => Z.pos m
                  | Z.pos _ => Z.shiftl (Z.pos m) (e - 2 * e')
                  | Z.neg _ => 0
                  end).
  assert (Hshifted : shifted = Z.pos m * 2 ^ (e - 2 * e')).
  { unfold shifted. destruct (e - 2 * e') as [|p|p] eqn:Hs; [lia| |lia].
    by rewrite Z.shiftl_mul_pow2. }
  assert (Hpos : 0 < shifted).
  { rewrite Hshifted. apply Z.mul_pos_pos; [done|]. apply Z.pow_pos_nonneg; lia. }
  assert (Hlog : Z.log2 shifted = (e - 2 * e') + Z.log2 (Z.pos m)).
  { rewrite Hshifted. apply Z.log2_mul_pow2; [done|lia]. }
  pose proof (Z.sqrtrem_sqrt shifted) as Hfst.
  destruct (Z.sqrtrem shifted) as [q r]. simpl in Hfst. subst q.
  set (k := Z.log2 shifted / 2).
  assert (Hk : 0 <= k) by (apply Z.div_pos; [apply Z.log2_nonneg|done]).
  assert (Hroot : 2 ^ k <= Z.sqrt shifted).
  { apply Z.sqrt_le_square; [lia|apply Z.pow_nonneg; lia|].
    rewrite <- Z.pow_add_r by done.
    etrans; [|apply Z.log2_spec; exact Hpos].
    apply Z.pow_le_mono_r; [done|]. unfold k.
    pose proof (Z.div_mod (Z.log2 shifted) 2). pose proof (Z.mod_pos_bound (Z.log2 shifted) 2).
    lia. }
  assert (Hq : 0 < Z.sqrt shifted)
    by (pose proof (Z.pow_pos_nonneg 2 k); lia).
  destruct (Z.sqrt shifted) as [|q|q] eqn:Hsqrt; [done| |done].
  assert (Hweight : -536 <= Z.log2 (Z.pos q) + 1 + e').
  { assert (k <= Z.log2 (Z.pos q)) by (by apply Z.log2_le_pow2).
    unfold k in *. rewrite Hlog in *.
    pose proof (Z.div_mod (e - 2 * e' + Z.log2 (Z.pos m)) 2).
    pose proof (Z.mod_pos_bound (e - 2 * e' + Z.log2 (Z.pos m)) 2).
    lia. }
  match goal with
  | |- context [binary_round_aux prec emax false (Z.pos q) e' ?l] =>
      pose proof (binary_round_aux_lower false q e' l) as Hround
  end.
  destruct (binary_round_aux prec emax false (Z.pos q) e' _); try (apply Hround; lia).
  specialize (Hround ltac:(lia)). lia.
Qed.

(** Neither 0 nor, when it is a number, of less than the weight of a
    square root. *)
Definition ample a : Prop :=
  match a with
  | S754_nan | S754_infinity _ => True
  | S754_finite _ m e => -536 <= Z.log2 (Z.pos m) + 1 + e
  | S754_zero _ => False
  end.

Lemma SFsqrt_ample a :
  valid_binary a = true -> SFeqb a (S754_zero false) = false -> ample (SF64sqrt a).
Proof.
  intros Hvalid Hnonzero. destruct a as [s|[|]| |[|] m e]; try done.
  apply valid_weight in Hvalid. pose proof (SFsqrt_lower m e Hvalid) as Hroot.
  by destruct (SF64sqrt (S754_finite false m e)).
Qed.

(** The product of two such doubles is not 0. *)
Lemma SFmul_ample a b :
  ample a -> ample b -> SFeqb (SF64mul a b) (S754_zero false) = false.
Proof.
  intros Ha Hb.
  destruct a as [sa|sa| |sa ma ea], b as [sb|sb| |sb mb eb];
    try contradiction; try reflexivity; try (by destruct sa, sb).
  unfold ample in Ha, Hb. unfold SF64mul, SFmul.
  pose proof (binary_round_aux_lower (xorb sa sb) (ma * mb) (ea + eb) loc_Exact) as Hround.
  assert (Hweight : -1073 <= Z.log2 (Z.pos (ma * mb)) + 1 + (ea + eb)).
  { pose proof (Z.log2_mul_below (Z.pos ma) (Z.pos mb)).
    rewrite Pos2Z.inj_mul. lia. }
  specialize (Hround Hweight).
  by destruct (binary_round_aux prec emax (xorb sa sb) (Z.pos (ma * mb)) (ea + eb) loc_Exact)
    as [s|[|]| |[|] m e].
Qed.

(** The test of [cosineSimilarity] is enough: with two squared norms that
    are not 0 the product of their square roots is not 0. *)
Lemma denominator_not_zero x y :
  (x =? 0)%float = false -> (y =? 0)%float = false ->
  (PrimFloat.sqrt x * PrimFloat.sqrt y =? 0)%float = false.
Proof.
  rewrite !FloatAxioms.eqb_spec, FloatAxioms.mul_spec, !FloatAxioms.sqrt_spec.
  change (Prim2SF 0) with (S754_zero false).
  intros Hx Hy. apply SFmul_ample; apply SFsqrt_ample; try done; apply Prim2SF_valid.
Qed.

End Magnitudes.

(** ** The guards of the similarity *)

Section Guards.
Import EmbeddingDoubles.
Implicit Types (vec : list float) (x y : float) (sums : Sums).

Definition noSums : Sums := {| dotProduct := 0; norm1 := 0; norm2 := 0 |}.

(** The three sums never have the sign bit set while the entries are not
    negative. *)
Lemma loop_signClear vec1 vec2 sums :
  Forall (fun x => (0 <=? x)%float = true) vec1 ->
  Forall (fun y => (0 <=? y)%float = true) vec2 ->
  signClear (Prim2SF (dotProduct sums)) ->
  signClear (Prim2SF (norm1 sums)) ->
  signClear (Prim2SF (norm2 sums)) ->
  let after := foldl accumulate sums (zip vec1 vec2) in
  signClear (Prim2SF (dotProduct after))
  /\ signClear (Prim2SF (norm1 after))
  /\ signClear (Prim2SF (norm2 after)).
Proof.
  intros H1. revert vec2 sums.
  induction H1 as [|x vec1 Hx _ IH]; intros vec2 sums H2 Hd Hn1 Hn2; [done|].
  destruct H2 as [|y vec2 Hy H2]; [done|].
  apply leb_zero in Hx, Hy.
  simpl. apply IH; [done|..]; simpl;
    rewrite FloatAxioms.add_spec, FloatAxioms.mul_spec;
    by apply SFadd_signClear, SFmul_notNegative.
Qed.

(** A sum of squares of zeros is 0. *)
Lemma zero_square x :
  (x =? 0)%float = true -> Prim2SF (x * x) = S754_zero false.
Proof.
  rewrite FloatAxioms.eqb_spec, FloatAxioms.mul_spec.
  change (Prim2SF 0) with (S754_zero false).
  by destruct (Prim2SF x) as [[|]|[|]| |[|] m e].
Qed.

Lemma loop_norm1_zero vec1 vec2 sums :
  Forall (fun x => (x =? 0)%float = true) vec1 ->
  Prim2SF (norm1 sums) = S754_zero false ->
  Prim2SF (norm1 (foldl accumulate sums (zip vec1 vec2))) = S754_zero false.
Proof.
  intros H1. revert vec2 sums.
  induction H1 as [|x vec1 Hx _ IH]; intros vec2 sums Hn; [done|].
  destruct vec2 as [|y vec2]; [done|].
  simpl. apply IH. simpl. rewrite FloatAxioms.add_spec, Hn, zero_square by done. done.
Qed.

Lemma loop_norm2_zero vec1 vec2 sums :
  Forall (fun y => (y =? 0)%float = true) vec2 ->
  Prim2SF (norm2 sums) = S754_zero false ->
  Prim2SF (norm2 (foldl accumulate sums (zip vec1 vec2))) = S754_zero false.
Proof.
  intros H2. revert vec1 sums.
  induction H2 as [|y vec2 Hy _ IH]; intros vec1 sums Hn; [by destruct vec1|].
  destruct vec1 as [|x vec1]; [done|].
  simpl. apply IH. simpl. rewrite FloatAxioms.add_spec, Hn, zero_square by done. done.
Qed.

Lemma eqb_zero x : Prim2SF x = S754_zero false -> (x =? 0)%float = true.
Proof. intros H. by rewrite FloatAxioms.eqb_spec, H. Qed.

(** X29. [cosineSimilarity], as the doubles compute it, returns 0 when the
    lengths differ and when every entry of one of the vectors is 0; it
    divides only when neither squared norm it has summed is 0, and then
    the divisor, the product of their square roots, is not 0 either; and
    for vectors without negative entry the result has no minus sign: it is
    0 or more, or it is [NaN]. *)
Theorem cosineSimilarity_doubles_guarded vec1 vec2 :
  (length vec1 <> length vec2 -> cosineSimilarity vec1 vec2 = 0%float)
  /\ (Forall (fun x => (x =? 0)%float = true) vec1
      \/ Forall (fun y => (y =? 0)%float = true) vec2 ->
      cosineSimilarity vec1 vec2 = 0%float)
  /\ (length vec1 = length vec2 ->
      let sums := foldl accumulate noSums (zip vec1 vec2) in
      let divisor := (PrimFloat.sqrt (norm1 sums) * PrimFloat.sqrt (norm2 sums))%float in
      if (norm1 sums =? 0)%float || (norm2 sums =? 0)%float
      then cosineSimilarity vec1 vec2 = 0%float
      else cosineSimilarity vec1 vec2 = (dotProduct sums / divisor)%float
           /\ (divisor =? 0)%float = false)
  /\ (Forall (fun x => (0 <=? x)%float = true) vec1 ->
      Forall (fun y => (0 <=? y)%float = true) vec2 ->
      is_nan (cosineSimilarity vec1 vec2) = true
      \/ (0 <=? cosineSimilarity vec1 vec2)%float = true).
Proof.
  split; [|split; [|split]].
  - intros Hlen. unfold cosineSimilarity. by rewrite bool_decide_eq_true_2.
  - intros Hzero. unfold cosineSimilarity. case_bool_decide; [done|].
    fold noSums. cbv zeta.
    destruct Hzero as [H1|H2].
    + by rewrite (eqb_zero _ (loop_norm1_zero vec1 vec2 noSums H1 eq_refl)).
    + rewrite (eqb_zero _ (loop_norm2_zero vec1 vec2 noSums H2 eq_refl)).
      apply orb_true_r || by rewrite orb_true_r.
  - intros Hlen sums divisor. unfold cosineSimilarity.
    rewrite bool_decide_eq_false_2 by (intros Hne; by apply Hne).
    fold noSums. fold sums. cbv zeta.
    destruct (norm1 sums =? 0)%float eqn:Hn1; [done|].
    destruct (norm2 sums =? 0)%float eqn:Hn2; [done|].
    simpl. split; [done|]. by apply denominator_not_zero.
  - intros H1 H2. unfold cosineSimilarity. case_bool_decide; [by right|].
    fold noSums. cbv zeta.
    destruct (loop_signClear vec1 vec2 noSums H1 H2) as (Hd & Hn1 & Hn2); [done..|].
    cbv zeta in Hd, Hn1, Hn2.
    destruct (_ || _); [by right|].
    apply signClear_leb. rewrite FloatAxioms.div_spec, FloatAxioms.mul_spec,
      !FloatAxioms.sqrt_spec.
    by apply SFdiv_signClear, SFmul_signClear; [|apply SFsqrt_signClear..].
Qed.

End Guards.
